(** * ambientweatherexporter: the observation translator

    A shallow embedding of package [weather] (the [Parser] of
    [src/main.go], in its current form with the [remote_adress] label) and
    the properties of its specification; after them, more of the
    translator, its HTTP handler, and the earlier form of the package that
    the source holds as well.

    - Go's [float64] is Rocq's primitive binary64 [float]; every operation
      is rounded on its own (no fused multiply-add).  [math.Sqrt] and
      [math.Abs] are the primitive [sqrt] and [abs]; [math.Pow], [math.Log]
      and [strconv.ParseFloat] belong to Go's library and are parameters.
    - A Go [string] is a [string] of bytes, [url.Values] a finite map from
      field names to lists of raw values.
    - A [prometheus.GaugeVec] is its list of label names and a finite map
      from label values to the gauge's value, with the behaviour that
      client_golang documents: [WithLabelValues] panics when the number of
      label values is not the number of labels, and creates the series (a
      gauge at 0) when that combination of label values is accessed for
      the first time, and it panics as well when a label value is not
      valid UTF-8; [DeleteLabelValues] returns false and removes nothing
      in these two cases.
    - A panic unwinds [Parse] up to its deferred [recover]; what was written
      to the registry before stays written.  Of the log output only the
      line of [p.Log] in [ServeHTTP] is modelled. *)

From Stdlib Require Import ZArith String Ascii Floats DecimalString Lia.
From Stdlib Require Uint63.
From stdpp Require Import base option list gmap strings.

Set Warnings "-inexact-float".

Local Open Scope string_scope.
Local Open Scope float_scope.

(** ** The derived quantities (main.go, lines 503-543) *)

Section Formulas.

(** [math.Pow] and [math.Log]. *)
Variable math_Pow : float -> float -> float.
Variable math_Log : float -> float.

Definition calculateWindChill (tempF windSpeedMph : float) : float :=
  if (40 <? tempF) || (windSpeedMph <? 5) then tempF
  else
    let windExp := math_Pow windSpeedMph 0.16 in
    35.74 + (0.6215 * tempF) - (35.75 * windExp) + (0.4275 * tempF * windExp).

Definition calculateHeatIndex (tempF rh : float) : float :=
  if tempF <? 80 then tempF
  else
    let simpleHI := 0.5 * (tempF + 61 + ((tempF - 68) * 1.2) + (rh * 0.094)) in
    if simpleHI <? 80 then simpleHI
    else
      let hi :=
        -42.379 +
        2.04901523 * tempF +
        10.14333127 * rh -
        0.22475541 * tempF * rh -
        0.00683783 * tempF * tempF -
        0.05481717 * rh * rh +
        0.00122874 * tempF * tempF * rh +
        0.00085282 * tempF * rh * rh -
        0.00000199 * tempF * tempF * rh * rh in
      if (rh <? 13) && (80 <=? tempF) && (tempF <=? 112) then
        hi - ((13 - rh) / 4) * PrimFloat.sqrt ((17 - PrimFloat.abs (tempF - 95)) / 17)
      else if (85 <? rh) && (80 <=? tempF) && (tempF <=? 87) then
        hi + ((rh - 85) / 10) * ((87 - tempF) / 5)
      else hi.

Definition calculateDewPoint (tempF rh : float) : float :=
  let a := 17.625 in
  let b := 243.04 in
  let t := (tempF - 32) * 5 / 9 in
  let alpha := math_Log (rh / 100) + ((a * t) / (b + t)) in
  (b * alpha / (a - alpha) * 9 / 5) + 32.

(** *** The formulas as the specification words them *)

Definition windChill_formula (T W : float) : float :=
  35.74 + 0.6215 * T - 35.75 * math_Pow W 0.16 + 0.4275 * T * math_Pow W 0.16.

Definition simpleHI_formula (T RH : float) : float :=
  0.5 * (T + 61 + (T - 68) * 1.2 + RH * 0.094).

Definition rothfusz (T RH : float) : float :=
  -42.379 + 2.04901523 * T + 10.14333127 * RH - 0.22475541 * T * RH
  - 0.00683783 * T * T - 0.05481717 * RH * RH + 0.00122874 * T * T * RH
  + 0.00085282 * T * RH * RH - 0.00000199 * T * T * RH * RH.

Definition low_humidity (T RH : float) : bool :=
  (RH <? 13) && (80 <=? T) && (T <=? 112).

Definition high_humidity (T RH : float) : bool :=
  (85 <? RH) && (80 <=? T) && (T <=? 87).

Definition low_humidity_correction (T RH : float) : float :=
  ((13 - RH) / 4) * PrimFloat.sqrt ((17 - PrimFloat.abs (T - 95)) / 17).

Definition high_humidity_correction (T RH : float) : float :=
  ((RH - 85) / 10) * ((87 - T) / 5).

Definition toCelsius (T : float) : float := (T - 32) * 5 / 9.
Definition toFahrenheit (C : float) : float := C * 9 / 5 + 32.

Definition magnus_alpha (T RH : float) : float :=
  math_Log (RH / 100) + (17.625 * toCelsius T) / (243.04 + toCelsius T).

Definition magnus_dewPoint (T RH : float) : float :=
  toFahrenheit (243.04 * magnus_alpha T RH / (17.625 - magnus_alpha T RH)).

End Formulas.

(** [math.Log] at the one argument the dew-point example needs: 0.5, where
    Go returns the binary64 number nearest to -ln 2. *)
Definition Log_half : float := -0.6931471805599453.

Definition Log_at_half (x : float) : float :=
  if x =? 0.5 then Log_half else nan.

Definition Pow_undefined (x y : float) : float := nan.

(** ** Go values *)

(** [strings.ReplaceAll(s, old, "")] for a one-byte [old]. *)
Fixpoint ReplaceAll_empty (s : string) (old : ascii) : string :=
  match s with
  | EmptyString => EmptyString
  | String c r =>
      if Ascii.eqb c old then ReplaceAll_empty r old
      else String c (ReplaceAll_empty r old)
  end.

Definition LF : ascii := ascii_of_nat 10.
Definition CR : ascii := ascii_of_nat 13.

(** [strconv.Itoa], which is also what [%d] prints. *)
Definition Itoa (i : Z) : string := NilZero.string_of_int (Z.to_int i).

(** [url.Values]: [map[string][]string]. *)
Abbreviation Values := (gmap string (list string)).

Definition Has (values : Values) (key : string) : bool :=
  bool_decide (is_Some (values !! key)).

(** A Go [error] is [None] for [nil]; the two errors [Parse] builds with
    [fmt.Errorf] are told apart by what they report. *)
Inductive error : Type :=
  | no_such_param (name : string)
  | failed_to_parse_value (first : string).

(** [err == station_err] on two [error] interfaces.  Each non-nil error of
    [Parse] is a pointer that a call of [fmt.Errorf] has just allocated, so
    two of them are never identical: the test holds only for two [nil]s. *)
Definition error_eq (e1 e2 : option error) : bool :=
  match e1, e2 with
  | None, None => true
  | _, _ => false
  end.

(** [utf8.ValidString]: the bytes of [s] are the UTF-8 encodings of code
    points, one after the other, without an overlong form, a surrogate or
    a value above U+10FFFF.  [valid_from need lo hi] is the scan with
    [need] continuation bytes still due, the next of them between [lo] and
    [hi]. *)
Module utf8.

Fixpoint valid_from (need : nat) (lo hi : N) (s : string) : bool :=
  match s with
  | EmptyString => Nat.eqb need 0
  | String c r =>
      let b := N_of_ascii c in
      match need with
      | S need => (lo <=? b)%N && (b <=? hi)%N && valid_from need 0x80 0xBF r
      | O =>
          if (b <=? 0x7F)%N then valid_from 0 0x80 0xBF r
          else if (0xC2 <=? b)%N && (b <=? 0xDF)%N then valid_from 1 0x80 0xBF r
          else if (b =? 0xE0)%N then valid_from 2 0xA0 0xBF r
          else if (0xE1 <=? b)%N && (b <=? 0xEC)%N then valid_from 2 0x80 0xBF r
          else if (b =? 0xED)%N then valid_from 2 0x80 0x9F r
          else if (0xEE <=? b)%N && (b <=? 0xEF)%N then valid_from 2 0x80 0xBF r
          else if (b =? 0xF0)%N then valid_from 3 0x90 0xBF r
          else if (0xF1 <=? b)%N && (b <=? 0xF3)%N then valid_from 3 0x80 0xBF r
          else if (b =? 0xF4)%N then valid_from 3 0x80 0x8F r
          else false
      end
  end.

Definition ValidString (s : string) : bool := valid_from 0 0x80 0xBF s.

End utf8.

(** ** The gauge registry *)

Record GaugeOpts : Type := {
  Name : string;
  Help : string;
  Namespace : string
}.

Record GaugeVec : Type := {
  opts : GaugeOpts;
  variableLabels : list string;
  metrics : gmap (list string) float
}.

Record Parser : Type := {
  name : string;
  be_verbose : bool;
  metric_prefix : string;
  temperature : GaugeVec;
  battery : GaugeVec;
  humidity : GaugeVec;
  barometer : GaugeVec;
  windDir : GaugeVec;
  windSpeedMph : GaugeVec;
  solarRadiation : GaugeVec;
  rainIn : GaugeVec;
  ultraviolet : GaugeVec;
  lightning_strikes : GaugeVec;
  lightning_last_strike : GaugeVec;
  lightning_distance : GaugeVec;
  stationtype : GaugeVec
}.

Definition newGauge (metric_prefix name help : string) (labels : list string)
  : GaugeVec :=
  {| opts := {| Name := name; Help := help; Namespace := metric_prefix |};
     variableLabels := labels;
     metrics := ∅ |}.

(** [NewParser] (lines 329-348), when it returns: [promauto] registers
    each vector as it is made and panics when the registry refuses one, as
    it does for a prefix that makes no valid metric name.  This is the
    parser that a call which returns gives back. *)
Definition NewParser (name metric_prefix : string) (be_verbose : bool) : Parser :=
  {| name := name;
     be_verbose := be_verbose;
     metric_prefix := metric_prefix;
     temperature := newGauge metric_prefix "temperature" "temperature Temperature in fahrenheit" ["remote_adress"; "name"; "sensor"];
     battery := newGauge metric_prefix "battery" "battery" ["remote_adress"; "name"; "sensor"];
     humidity := newGauge metric_prefix "humidity" "humidity" ["remote_adress"; "name"; "sensor"];
     barometer := newGauge metric_prefix "barometer" "barometer" ["remote_adress"; "name"; "type"];
     windDir := newGauge metric_prefix "wind_dir" "wind_dir" ["remote_adress"; "name"; "period"];
     windSpeedMph := newGauge metric_prefix "wind_speed_mph" "wind_speed_mph" ["remote_adress"; "name"; "type"];
     solarRadiation := newGauge metric_prefix "solar_radiation" "Solar radiation in W/m2" ["remote_adress"; "name"];
     rainIn := newGauge metric_prefix "rain_in" "Rain in inches" ["remote_adress"; "name"; "period"];
     ultraviolet := newGauge metric_prefix "ultraviolet" "Ultra Violet index 1-10" ["remote_adress"; "name"];
     lightning_strikes := newGauge metric_prefix "lightning_strikes" "lightning_strikes" ["remote_adress"; "name"; "period"];
     lightning_last_strike := newGauge metric_prefix "lightning_last_strike" "in seconds since Epoch" ["remote_adress"; "name"];
     lightning_distance := newGauge metric_prefix "lightning_distance" "last lightning strike distance in km" ["remote_adress"; "name"];
     stationtype := newGauge metric_prefix "stationtype_info" "stationtype_info" ["remote_adress"; "name"; "type"] |}.

(** The thirteen gauge vectors of a [Parser], by name. *)
Inductive family : Type :=
  | Temperature | Battery | Humidity | Barometer | WindDir | WindSpeedMph
  | SolarRadiation | RainIn | Ultraviolet | LightningStrikes
  | LightningLastStrike | LightningDistance | StationType.

#[global] Instance family_eq_dec : EqDecision family.
Proof. solve_decision. Defined.

Definition vec (g : family) (p : Parser) : GaugeVec :=
  match g with
  | Temperature => temperature p
  | Battery => battery p
  | Humidity => humidity p
  | Barometer => barometer p
  | WindDir => windDir p
  | WindSpeedMph => windSpeedMph p
  | SolarRadiation => solarRadiation p
  | RainIn => rainIn p
  | Ultraviolet => ultraviolet p
  | LightningStrikes => lightning_strikes p
  | LightningLastStrike => lightning_last_strike p
  | LightningDistance => lightning_distance p
  | StationType => stationtype p
  end.

(** [p] with the vector [g] replaced by [v]. *)
Definition with_vec (g : family) (v : GaugeVec) (p : Parser) : Parser :=
  let pick h := if decide (g = h) then v else vec h p in
  {| name := name p;
     be_verbose := be_verbose p;
     metric_prefix := metric_prefix p;
     temperature := pick Temperature;
     battery := pick Battery;
     humidity := pick Humidity;
     barometer := pick Barometer;
     windDir := pick WindDir;
     windSpeedMph := pick WindSpeedMph;
     solarRadiation := pick SolarRadiation;
     rainIn := pick RainIn;
     ultraviolet := pick Ultraviolet;
     lightning_strikes := pick LightningStrikes;
     lightning_last_strike := pick LightningLastStrike;
     lightning_distance := pick LightningDistance;
     stationtype := pick StationType |}.

Definition on_metrics (f : gmap (list string) float -> gmap (list string) float)
    (v : GaugeVec) : GaugeVec :=
  {| opts := opts v; variableLabels := variableLabels v; metrics := f (metrics v) |}.

(** The series of vector [g] with label values [lvs], if the registry has it. *)
Definition series (g : family) (lvs : list string) (p : Parser) : option float :=
  metrics (vec g p) !! lvs.

(** The state of a parser that [NewParser] built: its vectors carry the
    label names declared there. *)
Definition declared (g : family) : list string :=
  variableLabels (vec g (NewParser "" "" false)).

Definition registered (p : Parser) : Prop :=
  forall g, variableLabels (vec g p) = declared g.

(** *** Calls on the registry

    [Parse] talks to the registry through three methods and never reads a
    result back: a run of [Parse] is the sequence of calls it makes up to
    its return or its first panic.  A [Gauge] is used as soon as
    [WithLabelValues] has returned it, so [Set] on it is recorded with the
    vector and label values of its series. *)
Inductive call : Type :=
  | CallWithLabelValues (g : family) (lvs : list string)
  | CallSet (g : family) (lvs : list string) (value : float)
  | CallDeleteLabelValues (g : family) (lvs : list string).

Definition getOrCreateMetric (lvs : list string) (m : gmap (list string) float)
  : gmap (list string) float :=
  match m !! lvs with
  | Some _ => m
  | None => <[lvs := 0]> m
  end.

(** One call on the registry; [None] is a panic.  [WithLabelValues] panics
    when the number of label values is not the number of labels of the
    vector, and when a label value is not valid UTF-8; in these two cases
    [DeleteLabelValues] returns false and removes nothing. *)
Definition step (c : call) (p : Parser) : option Parser :=
  match c with
  | CallWithLabelValues g lvs =>
      if decide (length lvs = length (variableLabels (vec g p)))
      then
        if forallb utf8.ValidString lvs
        then Some (with_vec g (on_metrics (getOrCreateMetric lvs) (vec g p)) p)
        else None
      else None
  | CallSet g lvs value =>
      Some (with_vec g (on_metrics (insert lvs value) (vec g p)) p)
  | CallDeleteLabelValues g lvs =>
      if decide (length lvs = length (variableLabels (vec g p)))
      then
        if forallb utf8.ValidString lvs
        then Some (with_vec g (on_metrics (delete lvs) (vec g p)) p)
        else Some p
      else Some p
  end.

Inductive outcome : Type := Returned | Panicked.

Fixpoint exec (cs : list call) (p : Parser) : outcome * Parser :=
  match cs with
  | [] => (Returned, p)
  | c :: cs =>
      match step c p with
      | Some p' => exec cs p'
      | None => (Panicked, p)
      end
  end.

(** *** Code that calls the registry and may panic

    [calls] are the registry calls made so far, [result] is [None] once the
    code itself has panicked (an index out of range). *)
Record Prog (A : Type) : Type := MkProg {
  calls : list call;
  result : option A
}.
Arguments MkProg {A} _ _.
Arguments calls {A} _.
Arguments result {A} _.

Definition ret {A} (a : A) : Prog A := MkProg [] (Some a).
Definition panic {A} : Prog A := MkProg [] None.

Definition bind {A B} (m : Prog A) (f : A -> Prog B) : Prog B :=
  match result m with
  | Some a => let r := f a in MkProg (calls m ++ calls r) (result r)
  | None => MkProg (calls m) None
  end.

#[global] Instance Prog_ret : MRet Prog := @ret.
#[global] Instance Prog_bind : MBind Prog := fun A B f m => bind m f.

Definition run {A} (m : Prog A) (p : Parser) : outcome * Parser :=
  match exec (calls m) p with
  | (Returned, p') =>
      (match result m with Some _ => Returned | None => Panicked end, p')
  | (Panicked, p') => (Panicked, p')
  end.

(** A handle on one series. *)
Definition Gauge : Type := family * list string.

Definition WithLabelValues (g : family) (lvs : list string) : Prog Gauge :=
  MkProg [CallWithLabelValues g lvs] (Some (g, lvs)).

Definition Gauge_Set (gauge : Gauge) (value : float) : Prog unit :=
  MkProg [CallSet gauge.1 gauge.2 value] (Some tt).

(** The boolean that [DeleteLabelValues] returns is dropped by [Parse]. *)
Definition DeleteLabelValues (g : family) (lvs : list string) : Prog unit :=
  MkProg [CallDeleteLabelValues g lvs] (Some tt).

(** [array[0]]. *)
Definition index0 (array : list string) : Prog string :=
  match array with
  | first :: _ => mret first
  | [] => panic
  end.

Fixpoint for_each {A} (l : list A) (body : A -> Prog unit) : Prog unit :=
  match l with
  | [] => mret tt
  | i :: l => body i ;; for_each l body
  end.

Definition updateGauge (gauge : Gauge) (r : float * option error) : Prog unit :=
  match r.2 with
  | None => Gauge_Set gauge r.1
  | Some _ => mret tt
  end.

(** ** The translator (main.go, lines 387-501) *)

Section Translator.

(** [strconv.ParseFloat(s, 64)]: the number, or [None] for its error. *)
Variable ParseFloat : string -> option float.
Variable math_Pow : float -> float -> float.
Variable math_Log : float -> float.

Definition stripped (s : string) : string :=
  ReplaceAll_empty (ReplaceAll_empty s LF) CR.

Definition parseString (values : Values) (name : string)
  : Prog (string * option error) :=
  match values !! name with
  | None => mret ("", Some (no_such_param name))
  | Some array =>
      first ← index0 array;
      mret (stripped first, None)
  end.

Definition parseValue (values : Values) (name : string)
  : Prog (float * option error) :=
  match values !! name with
  | None => mret (0, Some (no_such_param name))
  | Some array =>
      first ← index0 array;
      let first := stripped first in
      match ParseFloat first with
      | Some value => mret (value, None)
      | None => mret (0, Some (failed_to_parse_value first))
      end
  end.

(** The statement [updateGauge(vec.WithLabelValues(lvs...))(parseValue(field))]:
    Go evaluates the gauge first, then the arguments, then calls. *)
Definition update (values : Values) (g : family) (lvs : list string)
    (field : string) : Prog unit :=
  gauge ← WithLabelValues g lvs;
  r ← parseValue values field;
  updateGauge gauge r.

(** The body of the loop, for slot [i] (lines 422-441). *)
Definition slot (p_name remote_adress : string) (values : Values) (i : Z)
  : Prog unit :=
  let iStr := Itoa i in
  (if Has values ("temp" +:+ Itoa i +:+ "f") then
     update values Temperature [remote_adress; p_name; iStr] ("temp" +:+ Itoa i +:+ "f");;
     update values Battery [remote_adress; p_name; iStr] ("batt" +:+ iStr)
   else
     DeleteLabelValues Battery [p_name; iStr];;
     DeleteLabelValues Temperature [p_name; iStr]);;
  (if Has values ("soilhum" +:+ iStr) then
     update values Humidity [remote_adress; p_name; "soil" +:+ iStr] ("soilhum" +:+ iStr);;
     update values Battery [remote_adress; p_name; "soil" +:+ iStr] ("battsm" +:+ iStr)
   else
     DeleteLabelValues Humidity [p_name; "soil" +:+ iStr];;
     DeleteLabelValues Battery [p_name; "soil" +:+ iStr]);;
  (if Has values ("humidity" +:+ iStr) then
     update values Humidity [remote_adress; p_name; iStr] ("humidity" +:+ iStr)
   else
     DeleteLabelValues Humidity [p_name; iStr]).

(** Lines 445-465; the result is the [err] of line 445, which line 490
    reads again. *)
Definition outdoor (p_name remote_adress : string) (values : Values)
  : Prog (option error) :=
  r ← parseValue values "tempf";
  let tempF := r.1 in
  let err := r.2 in
  match err with
  | None =>
      gauge ← WithLabelValues Temperature [remote_adress; p_name; "outdoor"];
      Gauge_Set gauge tempF;;
      let feelsLike := tempF in
      w ← parseValue values "windspeedmph";
      feelsLike ←
        match w.2 with
        | None =>
            gauge ← WithLabelValues WindSpeedMph [remote_adress; p_name; "sustained"];
            Gauge_Set gauge w.1;;
            mret (if tempF <=? 40 then calculateWindChill math_Pow tempF w.1
                  else feelsLike)
        | Some _ => mret feelsLike
        end;
      h ← parseValue values "humidity";
      feelsLike ←
        match h.2 with
        | None =>
            gauge ← WithLabelValues Humidity [remote_adress; p_name; "outdoor"];
            Gauge_Set gauge h.1;;
            gauge ← WithLabelValues Temperature [remote_adress; p_name; "dewpoint"];
            Gauge_Set gauge (calculateDewPoint math_Log tempF h.1);;
            mret (if 80 <=? tempF then calculateHeatIndex tempF h.1
                  else feelsLike)
        | Some _ => mret feelsLike
        end;
      gauge ← WithLabelValues Temperature [remote_adress; p_name; "feelsLike"];
      Gauge_Set gauge feelsLike;;
      mret err
  | Some _ => mret err
  end.

(** Lines 489-492. *)
Definition station (p_name remote_adress : string) (values : Values)
    (err : option error) : Prog unit :=
  s ← parseString values "stationtype";
  let stationType := s.1 in
  let station_err := s.2 in
  if error_eq err station_err then
    gauge ← WithLabelValues StationType [remote_adress; p_name; stationType];
    updateGauge gauge (1, None)
  else mret tt.

Definition Parse_body (p_name remote_adress : string) (values : Values)
  : Prog unit :=
  for_each (seqZ 1 10) (slot p_name remote_adress values);;
  update values Temperature [remote_adress; p_name; "indoor"] "tempinf";;
  err ← outdoor p_name remote_adress values;
  update values Battery [remote_adress; p_name; "outdoor"] "battout";;
  update values Battery [remote_adress; p_name; "indoor"] "battin";;
  update values Battery [remote_adress; p_name; "lightning"] "batt_lightning";;
  update values Humidity [remote_adress; p_name; "indoor"] "humidityin";;
  update values Barometer [remote_adress; p_name; "relative"] "baromrelin";;
  update values Barometer [remote_adress; p_name; "absolute"] "baromabsin";;
  update values WindDir [remote_adress; p_name; "current"] "winddir";;
  update values WindDir [remote_adress; p_name; "avg10m"] "winddir_avg10m";;
  update values WindSpeedMph [remote_adress; p_name; "gusts"] "windgustmph";;
  update values SolarRadiation [remote_adress; p_name] "solarradiation";;
  update values RainIn [remote_adress; p_name; "hourly"] "hourlyrainin";;
  update values RainIn [remote_adress; p_name; "daily"] "dailyrainin";;
  update values RainIn [remote_adress; p_name; "weekly"] "weeklyrainin";;
  update values RainIn [remote_adress; p_name; "monthly"] "monthlyrainin";;
  update values RainIn [remote_adress; p_name; "yearly"] "yearlyrainin";;
  update values RainIn [remote_adress; p_name; "total"] "totalrainin";;
  update values RainIn [remote_adress; p_name; "event"] "eventrainin";;
  update values Ultraviolet [remote_adress; p_name] "uv";;
  update values LightningStrikes [remote_adress; p_name; "day"] "lightning_day";;
  update values LightningDistance [remote_adress; p_name] "lightning_distance";;
  update values LightningLastStrike [remote_adress; p_name] "lightning_time";;
  station p_name remote_adress values err.

(** [Parse]: the deferred [recover] ends a panic of the body, so the
    caller gets the registry as the body left it. *)
Definition Parse (remote_adress : string) (values : Values) (p : Parser)
  : Parser :=
  (run (Parse_body (name p) remote_adress values) p).2.

End Translator.

(** A [strconv.ParseFloat] for the examples: it reads an unsigned decimal
    integer below 2^53, whose binary64 value is the integer itself, and
    reports an error for every string without a digit at its head or with
    a character that is no digit in it.  On these two kinds of strings it
    agrees with Go's; no example uses another kind. *)
Fixpoint decimal (s : string) (acc : Z) : option Z :=
  match s with
  | EmptyString => Some acc
  | String c r =>
      let d := (Z.of_nat (nat_of_ascii c) - 48)%Z in
      if ((0 <=? d) && (d <=? 9))%Z then decimal r (10 * acc + d)%Z else None
  end.

Definition ParseFloat_uint (s : string) : option float :=
  match s with
  | EmptyString => None
  | _ =>
      match decimal s 0 with
      | Some n =>
          if (n <? 2 ^ 53)%Z then Some (PrimFloat.of_uint63 (Uint63.of_Z n))
          else None
      | None => None
      end
  end.

Definition station_home : Parser := NewParser "home" "" false.

(** ** Effect of the calls on one series *)

(** What a call does to a series it reaches; [touch] is the access of
    [WithLabelValues]. *)
Definition touch (x : option float) : option float := Some (default 0 x).

Definition effect (c : call) (p : Parser) (g0 : family) (k0 : list string)
    (x : option float) : option float :=
  match c with
  | CallWithLabelValues g lvs =>
      if decide (g = g0 /\ lvs = k0) then touch x else x
  | CallSet g lvs value =>
      if decide (g = g0 /\ lvs = k0) then Some value else x
  | CallDeleteLabelValues g lvs =>
      if decide (g = g0 /\ lvs = k0 /\
                 length lvs = length (variableLabels (vec g p)) /\
                 forallb utf8.ValidString lvs = true)
      then None else x
  end.

(** A sequence of calls acts on a series in one of three ways. *)
Inductive shape : Type :=
  | Keep
  | Touch
  | Const (o : option float).

Definition interp (s : shape) (x : option float) : option float :=
  match s with
  | Keep => x
  | Touch => touch x
  | Const o => o
  end.

(** [s1] first, [s2] next. *)
Definition shape_then (s1 s2 : shape) : shape :=
  match s2 with
  | Keep => s1
  | Const o => Const o
  | Touch =>
      match s1 with
      | Keep => Touch
      | Touch => Touch
      | Const o => Const (touch o)
      end
  end.

Definition effect_shape (c : call) (p : Parser) (g0 : family)
    (k0 : list string) : shape :=
  match c with
  | CallWithLabelValues g lvs =>
      if decide (g = g0 /\ lvs = k0) then Touch else Keep
  | CallSet g lvs value =>
      if decide (g = g0 /\ lvs = k0) then Const (Some value) else Keep
  | CallDeleteLabelValues g lvs =>
      if decide (g = g0 /\ lvs = k0 /\
                 length lvs = length (variableLabels (vec g p)) /\
                 forallb utf8.ValidString lvs = true)
      then Const None else Keep
  end.

(** Everything of a parser but the values of its series. *)
Definition same_frame (p q : Parser) : Prop :=
  name q = name p /\ be_verbose q = be_verbose p /\
  metric_prefix q = metric_prefix p /\
  forall g, opts (vec g q) = opts (vec g p) /\
            variableLabels (vec g q) = variableLabels (vec g p).

(** The fields of a report as [Parse] reads them. *)
Section Reading.

Variable ParseFloat : string -> option float.

(** [field] is present and its first value is a number. *)
Definition parses (values : Values) (field : string) (v : float) : Prop :=
  result (parseValue ParseFloat values field) = Some (v, None).

(** [field] is absent, or its first value is no number. *)
Definition fails (values : Values) (field : string) : Prop :=
  exists e, result (parseValue ParseFloat values field) = Some (0, Some e).

End Reading.

(** The reports of the specification: every field has one value or more
    (as [url.ParseQuery] builds them). *)
Definition well_formed (values : Values) : Prop :=
  forall field array, values !! field = Some array -> array <> [].

(** What [Parse] has read of a numeric field: its number, if it has one. *)
Definition reading (ParseFloat : string -> option float) (values : Values)
    (field : string) : option float :=
  match result (parseValue ParseFloat values field) with
  | Some (v, None) => Some v
  | _ => None
  end.


(** The labels of the numbered slots. *)
Definition slot_sensors : list string :=
  Eval vm_compute in
    flat_map (fun i => [Itoa i; "soil" +:+ Itoa i]) (seqZ 1 10).

(** The fields that [Parse] handles by one [update] statement each, outside
    the loop and the outdoor block (lines 444 and 467-487): the field, its
    vector and the label values after the remote address and the name. *)
Definition plain_fields : list (string * family * list string) :=
  [ ("tempinf", Temperature, ["indoor"]);
    ("battout", Battery, ["outdoor"]);
    ("battin", Battery, ["indoor"]);
    ("batt_lightning", Battery, ["lightning"]);
    ("humidityin", Humidity, ["indoor"]);
    ("baromrelin", Barometer, ["relative"]);
    ("baromabsin", Barometer, ["absolute"]);
    ("winddir", WindDir, ["current"]);
    ("winddir_avg10m", WindDir, ["avg10m"]);
    ("windgustmph", WindSpeedMph, ["gusts"]);
    ("solarradiation", SolarRadiation, []);
    ("hourlyrainin", RainIn, ["hourly"]);
    ("dailyrainin", RainIn, ["daily"]);
    ("weeklyrainin", RainIn, ["weekly"]);
    ("monthlyrainin", RainIn, ["monthly"]);
    ("yearlyrainin", RainIn, ["yearly"]);
    ("totalrainin", RainIn, ["total"]);
    ("eventrainin", RainIn, ["event"]);
    ("uv", Ultraviolet, []);
    ("lightning_day", LightningStrikes, ["day"]);
    ("lightning_distance", LightningDistance, []);
    ("lightning_time", LightningLastStrike, []) ].

(** The feels-like temperature of the outdoor block, from the outdoor
    temperature and what was read of [windspeedmph] and [humidity]. *)
Definition feelsLike_of (math_Pow : float -> float -> float) (tempF : float)
    (wind hum : option float) : float :=
  let feelsLike := tempF in
  let feelsLike :=
    match wind with
    | Some windSpeedMph =>
        if tempF <=? 40 then calculateWindChill math_Pow tempF windSpeedMph
        else feelsLike
    | None => feelsLike
    end in
  match hum with
  | Some humidity =>
      if 80 <=? tempF then calculateHeatIndex tempF humidity else feelsLike
  | None => feelsLike
  end.

(** The series that the outdoor block names (lines 447-464). *)
Definition outdoor_series : list (family * list string) :=
  [ (Temperature, ["outdoor"]);
    (WindSpeedMph, ["sustained"]);
    (Humidity, ["outdoor"]);
    (Temperature, ["dewpoint"]);
    (Temperature, ["feelsLike"]) ].

(** A report with every list of values cut down to its first element. *)
Definition first_values (values : Values) : Values := take 1 <$> values.

(** The fields of slot [i] (lines 423-441): the field whose presence opens
    the branch, the field read, its vector and the label values after the
    remote address and the name. *)
Definition slot_fields (i : Z) : list (string * string * family * list string) :=
  [ ("temp" +:+ Itoa i +:+ "f", "temp" +:+ Itoa i +:+ "f", Temperature, [Itoa i]);
    ("temp" +:+ Itoa i +:+ "f", "batt" +:+ Itoa i, Battery, [Itoa i]);
    ("soilhum" +:+ Itoa i, "soilhum" +:+ Itoa i, Humidity, ["soil" +:+ Itoa i]);
    ("soilhum" +:+ Itoa i, "battsm" +:+ Itoa i, Battery, ["soil" +:+ Itoa i]);
    ("humidity" +:+ Itoa i, "humidity" +:+ Itoa i, Humidity, [Itoa i]) ].

(** The reports of the examples, sent from [remote_example] to the parser
    [station_home] that [NewParser] has just built. *)
Definition remote_example : string := "192.0.2.7".

Definition report_cold : Values :=
  <["tempf" := ["30"]]> (<["windspeedmph" := ["10"]]> ∅).



Definition report_slot1 : Values :=
  <["temp1f" := ["70"]]> (<["batt1" := ["1"]]> (<["soilhum1" := ["35"]]>
    (<["battsm1" := ["1"]]> (<["humidity1" := ["40"]]> ∅)))).

Definition report_station : Values :=
  <["stationtype" := ["AMBWeatherV4.2.9"]]> ∅.

Definition report_station_warm : Values :=
  <["stationtype" := ["AMBWeatherV4.2.9"]]> (<["tempf" := ["85"]]> ∅).

(** A report that [url.ParseQuery] does not build: a field without a value. *)
Definition report_no_value : Values := <["tempinf" := []]> ∅.

(** The calls of [DeleteLabelValues] in the loop give two label values,
    the name and the sensor, to vectors declared with three: they remove
    nothing. *)
Definition removes_nothing (c : call) : Prop :=
  match c with
  | CallDeleteLabelValues g lvs => length lvs <> length (declared g)
  | _ => True
  end.

(** * Properties *)

(** ** Comparisons of [float64]

    [x < y] is [x <? y] and [x <= y] is [x <=? y]; Go's [x > y] and
    [x >= y] are the same tests with the operands exchanged.  All four are
    false as soon as one side is NaN. *)

Lemma SFcompare_swap (x y : spec_float) :
  SFcompare y x = option_map CompOpp (SFcompare x y).
Proof.
  destruct x as [sx|sx| |sx mx ex], y as [sy|sy| |sy my ey];
    try reflexivity; try (destruct sx; reflexivity);
    try (destruct sy; reflexivity); try (destruct sx, sy; reflexivity).
  cbn [SFcompare option_map]. f_equal.
  rewrite (Z.compare_antisym ex ey).
  pose proof (Pos.compare_cont_antisym mx my Eq) as Hm. cbn [CompOpp] in Hm.
  destruct sx, sy; cbn [CompOpp]; try reflexivity;
    destruct (ex ?= ey)%Z; cbn [CompOpp]; try reflexivity;
    rewrite <- Hm, ?CompOpp_involutive; reflexivity.
Qed.

Lemma float_lt_not_ge (x y : float) : (x <? y) = true -> (y <=? x) = false.
Proof.
  rewrite FloatAxioms.ltb_spec, FloatAxioms.leb_spec. unfold SFltb, SFleb.
  rewrite (SFcompare_swap (Prim2SF x) (Prim2SF y)).
  now destruct (SFcompare (Prim2SF x) (Prim2SF y)) as [[ | | ]|].
Qed.

(** ** The registry *)

Lemma vec_with_vec g h v p :
  vec h (with_vec g v p) = if decide (g = h) then v else vec h p.
Proof. destruct h; reflexivity. Qed.

Lemma GaugeVec_eq (v w : GaugeVec) :
  opts v = opts w -> variableLabels v = variableLabels w ->
  metrics v = metrics w -> v = w.
Proof. destruct v, w; cbn; intros; subst; reflexivity. Qed.

Lemma Parser_eq (p q : Parser) :
  name q = name p -> be_verbose q = be_verbose p ->
  metric_prefix q = metric_prefix p ->
  (forall g, vec g q = vec g p) -> q = p.
Proof.
  intros Hn Hb Hm Hv.
  pose proof (Hv Temperature). pose proof (Hv Battery).
  pose proof (Hv Humidity). pose proof (Hv Barometer).
  pose proof (Hv WindDir). pose proof (Hv WindSpeedMph).
  pose proof (Hv SolarRadiation). pose proof (Hv RainIn).
  pose proof (Hv Ultraviolet). pose proof (Hv LightningStrikes).
  pose proof (Hv LightningLastStrike). pose proof (Hv LightningDistance).
  pose proof (Hv StationType).
  destruct p, q; cbn in *; subst; reflexivity.
Qed.

Lemma same_frame_refl p : same_frame p p.
Proof. repeat split. Qed.

Lemma same_frame_trans p q r :
  same_frame p q -> same_frame q r -> same_frame p r.
Proof.
  intros (Hn1 & Hb1 & Hm1 & Hv1) (Hn2 & Hb2 & Hm2 & Hv2).
  repeat split; try congruence;
    destruct (Hv1 g), (Hv2 g); congruence.
Qed.

Lemma same_frame_sym p q : same_frame p q -> same_frame q p.
Proof.
  intros (Hn1 & Hb1 & Hm1 & Hv1). repeat split; try congruence;
    destruct (Hv1 g); congruence.
Qed.

(** Two parsers with the same frame and the same series are the same. *)
Lemma same_frame_series_eq p q :
  same_frame p q -> (forall g k, series g k q = series g k p) -> q = p.
Proof.
  intros (? & ? & ? & Hf) Hs. apply Parser_eq; try assumption.
  intros g. destruct (Hf g). apply GaugeVec_eq; try assumption.
  apply map_eq. intros k. apply Hs.
Qed.

Lemma same_frame_on_metrics g f p :
  same_frame p (with_vec g (on_metrics f (vec g p)) p).
Proof.
  repeat split; rewrite vec_with_vec; destruct (decide (g = g0));
    subst; reflexivity.
Qed.

Lemma step_frame c p p' : step c p = Some p' -> same_frame p p'.
Proof.
  destruct c; cbn; repeat case_decide; try case_match; intros [= <-];
    auto using same_frame_on_metrics, same_frame_refl.
Qed.

Lemma series_on_metrics g f p g0 k0 :
  series g0 k0 (with_vec g (on_metrics f (vec g p)) p) =
  if decide (g = g0) then f (metrics (vec g p)) !! k0 else series g0 k0 p.
Proof.
  unfold series. rewrite vec_with_vec. destruct (decide (g = g0)); reflexivity.
Qed.

Lemma lookup_getOrCreateMetric (lvs k : list string) (m : gmap (list string) float) :
  getOrCreateMetric lvs m !! k = if decide (lvs = k) then touch (m !! k) else m !! k.
Proof.
  unfold getOrCreateMetric, touch.
  destruct (decide (lvs = k)) as [->|Hne].
  - destruct (m !! k) eqn:E; [now rewrite E | now rewrite lookup_insert_eq].
  - destruct (m !! lvs); [reflexivity | now rewrite lookup_insert_ne].
Qed.

Lemma series_step c p p' g0 k0 :
  step c p = Some p' ->
  series g0 k0 p' = effect c p g0 k0 (series g0 k0 p).
Proof.
  destruct c as [g lvs|g lvs v|g lvs]; cbn [step effect].
  - case_decide; [|discriminate]. case_match; intros [= <-].
    rewrite series_on_metrics.
    rewrite lookup_getOrCreateMetric.
    destruct (decide (g = g0)) as [->|]; repeat case_decide;
      try reflexivity; intuition congruence.
  - intros [= <-]. rewrite series_on_metrics.
    destruct (decide (g = g0)) as [->|].
    + destruct (decide (lvs = k0)) as [->|].
      * rewrite lookup_insert_eq. now rewrite decide_True.
      * rewrite lookup_insert_ne by assumption. rewrite decide_False; [reflexivity | intuition congruence].
    + rewrite decide_False; [reflexivity | intuition congruence].
  - case_decide as Hlen.
    + destruct (forallb utf8.ValidString lvs) eqn:Hv; intros [= <-].
      * rewrite series_on_metrics.
        destruct (decide (g = g0)) as [->|].
        -- destruct (decide (lvs = k0)) as [->|].
           ++ rewrite lookup_delete_eq. now rewrite decide_True.
           ++ rewrite lookup_delete_ne by assumption.
              rewrite decide_False; [reflexivity | intuition congruence].
        -- rewrite decide_False; [reflexivity | intuition congruence].
      * rewrite decide_False; [reflexivity | intuition congruence].
    + intros [= <-].
      rewrite decide_False; [reflexivity | intuition congruence].
Qed.

Lemma effect_interp c p g0 k0 x :
  effect c p g0 k0 x = interp (effect_shape c p g0 k0) x.
Proof. destruct c; cbn; case_decide; reflexivity. Qed.

Lemma interp_then s1 s2 x :
  interp (shape_then s1 s2) x = interp s2 (interp s1 x).
Proof. destruct s1, s2; reflexivity. Qed.

Lemma interp_idem s x : interp s (interp s x) = interp s x.
Proof. destruct s; try reflexivity. Qed.

Lemma exec_frame cs : forall p, same_frame p (exec cs p).2.
Proof.
  induction cs as [|c cs IH]; intros p; cbn; [apply same_frame_refl|].
  destruct (step c p) as [p'|] eqn:E; [|apply same_frame_refl].
  eapply same_frame_trans; [eapply step_frame, E | apply IH].
Qed.

Lemma exec_app cs1 cs2 : forall p,
  exec (cs1 ++ cs2) p =
  match exec cs1 p with
  | (Returned, p') => exec cs2 p'
  | (Panicked, p') => (Panicked, p')
  end.
Proof.
  induction cs1 as [|c cs1 IH]; intros p; cbn; [reflexivity|].
  destruct (step c p); [apply IH | reflexivity].
Qed.

Lemma registered_frame p q : same_frame p q -> registered p -> registered q.
Proof. intros (_ & _ & _ & Hv) Hp g. destruct (Hv g) as [_ ->]. apply Hp. Qed.

Lemma registered_NewParser n m b : registered (NewParser n m b).
Proof. intros g. destruct g; reflexivity. Qed.

(** ** What a piece of [Parse] does to one series

    [acts m g k F Q]: the code [m] returns (with a result in [Q]), none of
    its calls panics on a registered parser, and the series [k] of [g]
    goes from [x] to [F x]. *)

Definition acts {A} (m : Prog A) (g : family) (k : list string)
    (F : option float -> option float) (Q : A -> Prop) : Prop :=
  (exists a, result m = Some a /\ Q a) /\
  forall p, registered p ->
    exists p', exec (calls m) p = (Returned, p') /\ registered p' /\
               series g k p' = F (series g k p).

Definition keeps {A} (m : Prog A) (g : family) (k : list string) : Prop :=
  acts m g k (fun x => x) (fun _ => True).

Lemma acts_weaken {A} (m : Prog A) g k F F' (Q Q' : A -> Prop) :
  acts m g k F Q -> (forall x, F x = F' x) -> (forall a, Q a -> Q' a) ->
  acts m g k F' Q'.
Proof.
  intros [(a & Ha & HQ) Hp] HF HQ'. split; [eauto|].
  intros p Hr. destruct (Hp p Hr) as (p' & E & Hr' & Hs).
  exists p'. rewrite <- HF. auto.
Qed.

Lemma acts_keeps {A} (m : Prog A) g k (Q : A -> Prop) :
  acts m g k (fun x => x) Q -> keeps m g k.
Proof. intros H. eapply acts_weaken; eauto. Qed.

Lemma acts_ret {A} (a : A) g k : acts (mret a) g k (fun x => x) (fun b => b = a).
Proof. split; [exists a; auto|]. intros p Hr. exists p. auto. Qed.

Lemma bind_returned {A B} (m : Prog A) (f : A -> Prog B) a :
  result m = Some a ->
  calls (m ≫= f) = (calls m ++ calls (f a))%list /\ result (m ≫= f) = result (f a).
Proof. intros Ha. unfold mbind, Prog_bind, bind. rewrite Ha. split; reflexivity. Qed.

Lemma bind_panicked {A B} (m : Prog A) (f : A -> Prog B) :
  result m = None ->
  calls (m ≫= f) = calls m /\ result (m ≫= f) = None.
Proof. intros Ha. unfold mbind, Prog_bind, bind. rewrite Ha. split; reflexivity. Qed.

Lemma acts_bind {A B} (m : Prog A) (f : A -> Prog B) g k F G
    (Q : A -> Prop) (R : B -> Prop) :
  acts m g k F Q -> (forall a, Q a -> acts (f a) g k G R) ->
  acts (m ≫= f) g k (fun x => G (F x)) R.
Proof.
  intros [(a & Ha & HQ) Hm] Hf.
  destruct (Hf a HQ) as [(b & Hb & HR) Hfa].
  destruct (bind_returned m f a Ha) as [Ec Er]. unfold acts. rewrite Ec, Er.
  split; [eauto|].
  intros p Hr. destruct (Hm p Hr) as (p1 & E1 & Hr1 & Hs1).
  destruct (Hfa p1 Hr1) as (p2 & E2 & Hr2 & Hs2).
  exists p2. rewrite exec_app, E1, E2, Hs2, Hs1. auto.
Qed.

(** The two uses of [acts_bind]: the series is reached after, or before. *)
Lemma acts_skip {A B} (m : Prog A) (f : A -> Prog B) g k G
    (Q : A -> Prop) (R : B -> Prop) :
  acts m g k (fun x => x) Q -> (forall a, Q a -> acts (f a) g k G R) ->
  acts (m ≫= f) g k G R.
Proof. intros Hm Hf. exact (acts_bind m f g k _ G Q R Hm Hf). Qed.

Lemma acts_then {A B} (m : Prog A) (f : A -> Prog B) g k F
    (Q : A -> Prop) (R : B -> Prop) :
  acts m g k F Q -> (forall a, Q a -> acts (f a) g k (fun x => x) R) ->
  acts (m ≫= f) g k F R.
Proof. intros Hm Hf. exact (acts_bind m f g k F _ Q R Hm Hf). Qed.

Lemma acts_WithLabelValues g lvs g0 k0 :
  length lvs = length (declared g) ->
  forallb utf8.ValidString lvs = true ->
  acts (WithLabelValues g lvs) g0 k0
    (fun x => if decide (g = g0 /\ lvs = k0) then touch x else x)
    (fun gauge => gauge = (g, lvs)).
Proof.
  intros Hlen Hv. split; [eexists; split; reflexivity|].
  intros p Hr. cbn [WithLabelValues calls exec].
  destruct (step (CallWithLabelValues g lvs) p) as [p'|] eqn:E.
  - exists p'. split; [reflexivity|]. split.
    + eapply registered_frame; [eapply step_frame, E | exact Hr].
    + apply (series_step _ _ _ g0 k0) in E. exact E.
  - cbn in E. rewrite (Hr g), Hv in E. now rewrite decide_True in E.
Qed.

Lemma acts_Gauge_Set g lvs v g0 k0 :
  acts (Gauge_Set (g, lvs) v) g0 k0
    (fun x => if decide (g = g0 /\ lvs = k0) then Some v else x)
    (fun _ => True).
Proof.
  split; [exists tt; auto|].
  intros p Hr. cbn [Gauge_Set calls exec fst snd].
  destruct (step (CallSet g lvs v) p) as [p'|] eqn:E; [|discriminate E].
  exists p'. split; [reflexivity|]. split.
  - eapply registered_frame; [eapply step_frame, E | exact Hr].
  - apply (series_step _ _ _ g0 k0) in E. exact E.
Qed.

Lemma keeps_DeleteLabelValues g lvs g0 k0 :
  length lvs <> length (declared g) ->
  keeps (DeleteLabelValues g lvs) g0 k0.
Proof.
  intros Hlen. split; [exists tt; auto|].
  intros p Hr. cbn [DeleteLabelValues calls exec step].
  rewrite (Hr g). rewrite decide_False by assumption. exists p. auto.
Qed.

Lemma keeps_for_each {A} (l : list A) (body : A -> Prog unit) g k :
  Forall (fun i => keeps (body i) g k) l -> keeps (for_each l body) g k.
Proof.
  induction 1 as [|i l Hi Hl IH]; cbn [for_each].
  - eapply acts_keeps, acts_ret.
  - eapply acts_skip; [exact Hi | intros; exact IH].
Qed.

Section Reading_facts.

Variable ParseFloat : string -> option float.
Variable values : Values.

Lemma parseValue_calls field : calls (parseValue ParseFloat values field) = [].
Proof.
  unfold parseValue. destruct (values !! field) as [[|first array]|];
    try reflexivity.
  cbn. destruct (ParseFloat _); reflexivity.
Qed.

Lemma parseString_calls field : calls (parseString values field) = [].
Proof.
  unfold parseString. destruct (values !! field) as [[|first array]|];
    reflexivity.
Qed.

Hypothesis Hwf : well_formed values.

Lemma parses_or_fails field :
  (exists v, parses ParseFloat values field v) \/ fails ParseFloat values field.
Proof.
  unfold parses, fails, parseValue.
  destruct (values !! field) as [[|first array]|] eqn:E.
  - now destruct (Hwf _ _ E).
  - cbn. destruct (ParseFloat _); cbn; eauto.
  - cbn. eauto.
Qed.

Lemma parseString_returns field : is_Some (result (parseString values field)).
Proof.
  unfold parseString.
  destruct (values !! field) as [[|first array]|] eqn:E; cbn; eauto.
  now destruct (Hwf _ _ E).
Qed.

Lemma acts_parseValue field g k :
  acts (parseValue ParseFloat values field) g k (fun x => x)
    (fun r => result (parseValue ParseFloat values field) = Some r).
Proof.
  split.
  - destruct (parses_or_fails field) as [[v H]|[e H]]; eauto.
  - intros p Hr. rewrite parseValue_calls. exists p. auto.
Qed.

Lemma keeps_parseString field g k : keeps (parseString values field) g k.
Proof.
  split.
  - destruct (parseString_returns field) as [r H]. eauto.
  - intros p Hr. rewrite parseString_calls. exists p. auto.
Qed.

Lemma acts_parseString field g k :
  acts (parseString values field) g k (fun x => x)
    (fun r => result (parseString values field) = Some r).
Proof.
  split.
  - destruct (parseString_returns field) as [r H]. eauto.
  - intros p Hr. rewrite parseString_calls. exists p. auto.
Qed.



Lemma keeps_update g lvs field g0 k0 :
  length lvs = length (declared g) ->
  forallb utf8.ValidString lvs = true ->
  ~ (g = g0 /\ lvs = k0) ->
  keeps (update ParseFloat values g lvs field) g0 k0.
Proof.
  intros Hlen Hok Hne. unfold update, keeps.
  eapply acts_skip.
  - eapply acts_weaken; [apply (acts_WithLabelValues g lvs g0 k0 Hlen Hok)| |].
    + intros x. cbn. now rewrite decide_False.
    + intros a Ha. exact Ha.
  - intros gauge ->. eapply acts_skip; [apply acts_parseValue|].
    intros r _. unfold updateGauge. destruct r.2.
    + eapply acts_keeps, acts_ret.
    + destruct r as [v e]. cbn [fst].
      eapply acts_weaken; [apply (acts_Gauge_Set g lvs v g0 k0)| |auto].
      intros x. cbn. now rewrite decide_False.
Qed.

End Reading_facts.

Lemma keeps_ret {A} (a : A) g k : keeps (mret a) g k.
Proof. eapply acts_keeps, acts_ret. Qed.

Lemma keeps_seq {A B} (m : Prog A) (f : A -> Prog B) g k :
  keeps m g k -> (forall a, keeps (f a) g k) -> keeps (m ≫= f) g k.
Proof. intros Hm Hf. eapply acts_skip; [exact Hm | intros a _; apply Hf]. Qed.

Lemma keeps_if {A} (b : bool) (m1 m2 : Prog A) g k :
  keeps m1 g k -> keeps m2 g k -> keeps (if b then m1 else m2) g k.
Proof. now destruct b. Qed.

Lemma acts_with {B} g lvs (f : Gauge -> Prog B) g0 k0 G (R : B -> Prop) :
  length lvs = length (declared g) ->
  forallb utf8.ValidString lvs = true ->
  ~ (g = g0 /\ lvs = k0) ->
  acts (f (g, lvs)) g0 k0 G R ->
  acts (WithLabelValues g lvs ≫= f) g0 k0 G R.
Proof.
  intros Hlen Hok Hne Hf. eapply acts_skip.
  - eapply acts_weaken; [apply (acts_WithLabelValues g lvs g0 k0 Hlen Hok)| |].
    + intros x. cbn. now rewrite decide_False.
    + intros a Ha. exact Ha.
  - intros gauge ->. exact Hf.
Qed.

Lemma keeps_with {B} g lvs (f : Gauge -> Prog B) g0 k0 :
  length lvs = length (declared g) ->
  forallb utf8.ValidString lvs = true ->
  ~ (g = g0 /\ lvs = k0) ->
  keeps (f (g, lvs)) g0 k0 ->
  keeps (WithLabelValues g lvs ≫= f) g0 k0.
Proof. apply acts_with. Qed.

Lemma keeps_set g lvs v g0 k0 :
  ~ (g = g0 /\ lvs = k0) -> keeps (Gauge_Set (g, lvs) v) g0 k0.
Proof.
  intros Hne. eapply acts_weaken; [apply (acts_Gauge_Set g lvs v g0 k0)| |auto].
  intros x. cbn. now rewrite decide_False.
Qed.

(** [WithLabelValues] and [Set] on the series itself. *)
Lemma acts_with_set {B} g lvs v (f : unit -> Prog B) (R : B -> Prop) :
  length lvs = length (declared g) ->
  forallb utf8.ValidString lvs = true ->
  (forall u, keeps (f u) g lvs) ->
  acts (WithLabelValues g lvs ≫= fun gauge => Gauge_Set gauge v ≫= f) g lvs
    (fun _ => Some v) (fun _ => True).
Proof.
  intros Hlen Hok Hf.
  refine (acts_bind _ _ g lvs touch (fun _ => Some v)
            (fun gauge => gauge = (g, lvs)) (fun _ => True) _ _).
  - eapply acts_weaken; [apply (acts_WithLabelValues g lvs g lvs Hlen Hok)| |].
    + intros x. cbn. now rewrite decide_True.
    + intros a Ha. exact Ha.
  - intros gauge ->. eapply acts_then.
    + eapply acts_weaken; [apply (acts_Gauge_Set g lvs v g lvs)| |].
      * intros x. cbn. now rewrite decide_True.
      * intros a Ha. exact Ha.
    + intros u _. apply Hf.
Qed.

Lemma seqZ_1_10 : seqZ 1 10 = [1; 2; 3; 4; 5; 6; 7; 8; 9; 10]%Z.
Proof. reflexivity. Qed.

(** Side conditions: the number of label values, and two series that differ. *)
Ltac arity := first [reflexivity | discriminate].

(** The label values of a call are valid UTF-8: those of the context by
    their hypotheses, the literals by evaluation. *)
Ltac labels_ok :=
  cbv zeta; cbn [forallb];
  repeat match goal with
  | H : utf8.ValidString _ = true |- _ => rewrite H
  end;
  first [reflexivity | vm_compute; reflexivity].
Ltac differ :=
  first
    [ let H := fresh in
      intros [? H]; first [discriminate | congruence]
    | intros [<- <-];
      match goal with H : _ |- _ => exact (H eq_refl eq_refl) end ].

Ltac keeps_update_tac :=
  apply keeps_update; [assumption | arity | labels_ok | differ].

Ltac keeps_step :=
  lazymatch goal with
  | |- keeps (mret _) _ _ => apply keeps_ret
  | |- keeps (update _ _ _ _ _) _ _ => keeps_update_tac
  | |- keeps (DeleteLabelValues _ _) _ _ =>
      apply keeps_DeleteLabelValues; arity
  | |- keeps (Gauge_Set _ _) _ _ => apply keeps_set; differ
  | |- keeps (parseString _ _) _ _ => apply keeps_parseString; assumption
  | |- keeps (parseValue _ _ _) _ _ =>
      eapply acts_keeps, acts_parseValue; assumption
  | |- keeps (if _ then _ else _) _ _ => apply keeps_if
  | |- keeps (WithLabelValues _ _ ≫= _) _ _ =>
      apply keeps_with; [arity | labels_ok | differ |]
  | |- keeps (_ ≫= _) _ _ => apply keeps_seq; [|intros ?]
  end.

Ltac solve_keeps := repeat keeps_step.

(** ** What is left of a series when the code may panic

    [sets m g k F]: on a registered parser the calls of [m], run up to the
    return of [m] or to its first panic, take the series [k] of [g] from
    [x] to [F x].  [leaves m g k]: they leave it as it was. *)

Definition sets {A} (m : Prog A) (g : family) (k : list string)
    (F : option float -> option float) : Prop :=
  forall p, registered p ->
    series g k (exec (calls m) p).2 = F (series g k p).

Definition leaves {A} (m : Prog A) (g : family) (k : list string) : Prop :=
  sets m g k (fun x => x).

Lemma acts_sets {A} (m : Prog A) g k F (Q : A -> Prop) :
  acts m g k F Q -> sets m g k F.
Proof.
  intros [_ Hp] p Hr. destruct (Hp p Hr) as (p' & E & _ & Hs).
  now rewrite E.
Qed.

Lemma keeps_leaves {A} (m : Prog A) g k : keeps m g k -> leaves m g k.
Proof. apply acts_sets. Qed.

Lemma registered_exec cs p : registered p -> registered (exec cs p).2.
Proof. apply registered_frame, exec_frame. Qed.

Lemma sets_bind {A B} (m : Prog A) (f : A -> Prog B) g k F G
    (Q : A -> Prop) :
  acts m g k F Q -> (forall a, Q a -> sets (f a) g k G) ->
  sets (m ≫= f) g k (fun x => G (F x)).
Proof.
  intros [(a & Ha & HQ) Hm] Hf p Hr.
  destruct (bind_returned m f a Ha) as [-> _].
  destruct (Hm p Hr) as (p1 & E1 & Hr1 & Hs1).
  rewrite exec_app, E1, (Hf a HQ p1 Hr1). now rewrite Hs1.
Qed.

(** The series is reached by [m]; what follows leaves it, or panics. *)
Lemma sets_then_leaves {A B} (m : Prog A) (f : A -> Prog B) g k F
    (Q : A -> Prop) :
  acts m g k F Q -> (forall a, leaves (f a) g k) -> sets (m ≫= f) g k F.
Proof.
  intros Hm Hf. exact (sets_bind m f g k F _ Q Hm (fun a _ => Hf a)).
Qed.

Lemma sets_skip {A B} (m : Prog A) (f : A -> Prog B) g k G
    (Q : A -> Prop) :
  acts m g k (fun x => x) Q -> (forall a, Q a -> sets (f a) g k G) ->
  sets (m ≫= f) g k G.
Proof. intros Hm Hf. exact (sets_bind m f g k (fun x => x) G Q Hm Hf). Qed.

(** [m] returns and leaves the series; it is reached afterwards. *)
Lemma sets_skip_keeps {A B} (m : Prog A) (f : A -> Prog B) g k G :
  keeps m g k -> (forall a, sets (f a) g k G) -> sets (m ≫= f) g k G.
Proof.
  intros Hm Hf.
  exact (sets_bind m f g k (fun x => x) G _ Hm (fun a _ => Hf a)).
Qed.

Lemma leaves_ret {A} (a : A) g k : leaves (mret a) g k.
Proof. intros p Hr. reflexivity. Qed.

Lemma leaves_if {A} (b : bool) (m1 m2 : Prog A) g k :
  leaves m1 g k -> leaves m2 g k -> leaves (if b then m1 else m2) g k.
Proof. now destruct b. Qed.

Lemma leaves_seq {A B} (m : Prog A) (f : A -> Prog B) g k :
  leaves m g k -> (forall a, leaves (f a) g k) -> leaves (m ≫= f) g k.
Proof.
  intros Hm Hf p Hr. destruct (result m) as [a|] eqn:Ha.
  - destruct (bind_returned m f a Ha) as [-> _]. rewrite exec_app.
    pose proof (Hm p Hr) as H1. pose proof (registered_exec (calls m) p Hr) as Hr1.
    destruct (exec (calls m) p) as [[|] p1]; cbn [snd] in *.
    + now rewrite (Hf a p1 Hr1).
    + exact H1.
  - destruct (bind_panicked m f Ha) as [-> _]. apply (Hm p Hr).
Qed.

(** [WithLabelValues] on another series: whether it panics or not. *)
Lemma leaves_with {B} g lvs (f : Gauge -> Prog B) g0 k0 :
  ~ (g = g0 /\ lvs = k0) ->
  leaves (f (g, lvs)) g0 k0 ->
  leaves (WithLabelValues g lvs ≫= f) g0 k0.
Proof.
  intros Hne Hf p Hr.
  destruct (bind_returned (WithLabelValues g lvs) f (g, lvs) eq_refl) as [-> _].
  rewrite exec_app. cbn [WithLabelValues calls exec].
  destruct (step (CallWithLabelValues g lvs) p) as [p'|] eqn:E; [|reflexivity].
  rewrite (Hf p') by (eapply registered_frame; [eapply step_frame, E | exact Hr]).
  rewrite (series_step _ _ _ g0 k0 E). cbn [effect]. now rewrite decide_False.
Qed.

(** The labels of the ten slots are ASCII. *)
Lemma slot_labels_valid i :
  In i (seqZ 1 10) ->
  utf8.ValidString (Itoa i) = true /\
  utf8.ValidString ("soil" +:+ Itoa i) = true.
Proof.
  rewrite seqZ_1_10. cbn [In]. intros Hi.
  repeat (destruct Hi as [<-|Hi]; [split; vm_compute; reflexivity|]).
  destruct Hi.
Qed.

Section Blocks.

Variable ParseFloat : string -> option float.
Variable math_Pow : float -> float -> float.
Variable math_Log : float -> float.
Variable values : Values.
Hypothesis Hwf : well_formed values.
Variables p_name remote_adress : string.
Hypothesis Hname : utf8.ValidString p_name = true.
Hypothesis Hremote : utf8.ValidString remote_adress = true.


(** A slot leaves the series of the other labels alone. *)
Lemma keeps_slot i g0 k0 :
  In i (seqZ 1 10) ->
  k0 <> [remote_adress; p_name; Itoa i] ->
  k0 <> [remote_adress; p_name; "soil" +:+ Itoa i] ->
  keeps (slot ParseFloat p_name remote_adress values i) g0 k0.
Proof.
  intros Hi H1 H2. destruct (slot_labels_valid i Hi) as [Hvi Hvs].
  unfold slot. solve_keeps.
Qed.

Lemma keeps_loop g0 k0 :
  (forall s, In s slot_sensors -> k0 <> [remote_adress; p_name; s]) ->
  keeps (for_each (seqZ 1 10) (slot ParseFloat p_name remote_adress values))
    g0 k0.
Proof.
  intros H. apply keeps_for_each. rewrite seqZ_1_10.
  repeat (lazymatch goal with |- Forall _ (_ :: _) => constructor end;
    [apply keeps_slot;
     [vm_compute; tauto
     |apply H; vm_compute; repeat (first [left; reflexivity | right])
     |apply H; vm_compute; repeat (first [left; reflexivity | right])]|]).
  constructor.
Qed.

(** The outdoor block leaves the series it does not name alone. *)
Lemma keeps_outdoor g0 k0 :
  (Temperature = g0 -> [remote_adress; p_name; "outdoor"] <> k0) ->
  (WindSpeedMph = g0 -> [remote_adress; p_name; "sustained"] <> k0) ->
  (Humidity = g0 -> [remote_adress; p_name; "outdoor"] <> k0) ->
  (Temperature = g0 -> [remote_adress; p_name; "dewpoint"] <> k0) ->
  (Temperature = g0 -> [remote_adress; p_name; "feelsLike"] <> k0) ->
  keeps (outdoor ParseFloat math_Pow math_Log p_name remote_adress values)
    g0 k0.
Proof.
  intros H1 H2 H3 H4 H5. unfold outdoor.
  apply keeps_seq; [solve_keeps|]. intros [tempF [e|]]; cbn [fst snd].
  { apply keeps_ret. }
  apply keeps_with; [arity | labels_ok | differ |].
  apply keeps_seq; [solve_keeps|]. intros _.
  apply keeps_seq; [solve_keeps|]. intros [w [e|]]; cbn [fst snd].
  - apply keeps_seq; [solve_keeps|]. intros fl1.
    apply keeps_seq; [solve_keeps|]. intros [h [e'|]]; cbn [fst snd];
      solve_keeps.
  - apply keeps_seq; [solve_keeps|]. intros fl1.
    apply keeps_seq; [solve_keeps|]. intros [h [e'|]]; cbn [fst snd];
      solve_keeps.
Qed.

(** Without a number for [tempf] the outdoor block calls nothing. *)
Lemma keeps_outdoor_fails g0 k0 :
  fails ParseFloat values "tempf" ->
  keeps (outdoor ParseFloat math_Pow math_Log p_name remote_adress values)
    g0 k0.
Proof.
  intros [e He]. unfold outdoor.
  eapply acts_skip; [apply acts_parseValue; assumption|].
  intros r Hr. rewrite He in Hr. injection Hr as <-. cbn [fst snd].
  apply keeps_ret.
Qed.

Lemma acts_outdoor_temperature T :
  parses ParseFloat values "tempf" T ->
  acts (outdoor ParseFloat math_Pow math_Log p_name remote_adress values)
    Temperature [remote_adress; p_name; "outdoor"]
    (fun _ => Some T) (fun _ => True).
Proof.
  intros HT. unfold outdoor.
  eapply acts_skip; [apply acts_parseValue; assumption|].
  intros r Hr. unfold parses in HT. rewrite HT in Hr. injection Hr as <-.
  cbn [fst snd].
  apply acts_with_set with (R := fun _ => True); [arity | labels_ok |]. intros _.
  apply keeps_seq; [solve_keeps|]. intros [w [e|]]; cbn [fst snd].
  - apply keeps_seq; [solve_keeps|]. intros fl1.
    apply keeps_seq; [solve_keeps|]. intros [h [e'|]]; cbn [fst snd];
      solve_keeps.
  - apply keeps_seq; [solve_keeps|]. intros fl1.
    apply keeps_seq; [solve_keeps|]. intros [h [e'|]]; cbn [fst snd];
      solve_keeps.
Qed.

Lemma acts_outdoor_feelsLike T :
  parses ParseFloat values "tempf" T ->
  acts (outdoor ParseFloat math_Pow math_Log p_name remote_adress values)
    Temperature [remote_adress; p_name; "feelsLike"]
    (fun _ => Some (feelsLike_of math_Pow T
                      (reading ParseFloat values "windspeedmph")
                      (reading ParseFloat values "humidity")))
    (fun _ => True).
Proof.
  intros HT. unfold outdoor.
  eapply acts_skip; [apply acts_parseValue; assumption|].
  intros r Hr. unfold parses in HT. rewrite HT in Hr. injection Hr as <-.
  cbn [fst snd].
  apply acts_with; [arity | labels_ok | differ |].
  eapply acts_skip; [apply keeps_set; differ|]. intros _ _.
  eapply acts_skip; [apply acts_parseValue; assumption|]. intros w Hw.
  eapply acts_skip with
    (Q := fun fl => fl = match w.2 with
                         | None => if T <=? 40
                                   then calculateWindChill math_Pow T w.1
                                   else T
                         | Some _ => T
                         end).
  { destruct w as [w [e|]]; cbn [fst snd]; [apply acts_ret|].
    apply acts_with; [arity | labels_ok | differ |].
    eapply acts_skip; [apply keeps_set; differ|]. intros _ _.
    apply acts_ret. }
  intros fl1 Hfl1.
  eapply acts_skip; [apply acts_parseValue; assumption|]. intros h Hh.
  eapply acts_skip with
    (Q := fun fl => fl = match h.2 with
                         | None => if 80 <=? T
                                   then calculateHeatIndex T h.1
                                   else fl1
                         | Some _ => fl1
                         end).
  { destruct h as [h [e|]]; cbn [fst snd]; [apply acts_ret|].
    apply acts_with; [arity | labels_ok | differ |].
    eapply acts_skip; [apply keeps_set; differ|]. intros _ _.
    apply acts_with; [arity | labels_ok | differ |].
    eapply acts_skip; [apply keeps_set; differ|]. intros _ _.
    apply acts_ret. }
  intros fl2 Hfl2.
  eapply acts_weaken;
    [apply acts_with_set with (R := fun _ => True);
       [arity | labels_ok | intros _; apply keeps_ret]| |auto].
  intros x. cbn beta. f_equal. subst fl2 fl1.
  unfold feelsLike_of, reading. rewrite Hw, Hh.
  destruct w as [w [e|]], h as [h [e'|]]; reflexivity.
Qed.

(** The station block leaves the series of the other vectors alone, also
    when the station type makes [WithLabelValues] panic. *)
Lemma leaves_station err g0 k0 :
  g0 <> StationType ->
  leaves (station p_name remote_adress values err) g0 k0.
Proof.
  intros Hg. unfold station.
  apply leaves_seq; [apply keeps_leaves; solve_keeps|].
  intros [stationType station_err].
  cbn [fst snd]. apply leaves_if; [|apply leaves_ret].
  apply leaves_with; [differ|]. unfold updateGauge. cbn [fst snd].
  apply keeps_leaves, keeps_set. differ.
Qed.

(** It returns when the label it makes of the station type is valid. *)
Lemma keeps_station err g0 k0 :
  (err = None -> forall first rest,
     values !! "stationtype" = Some (first :: rest) ->
     utf8.ValidString (stripped first) = true) ->
  g0 <> StationType ->
  keeps (station p_name remote_adress values err) g0 k0.
Proof.
  intros Hst Hg. unfold station.
  eapply acts_skip; [apply acts_parseString; assumption|].
  intros s Hs. unfold parseString in Hs.
  destruct (values !! "stationtype") as [[|first rest]|] eqn:E.
  - discriminate Hs.
  - injection Hs as <-. cbn [fst snd].
    destruct err as [e|]; cbn [error_eq]; [apply keeps_ret|].
    pose proof (Hst eq_refl first rest eq_refl) as Hfirst.
    apply keeps_with; [arity | labels_ok | differ |].
    unfold updateGauge. cbn [fst snd]. apply keeps_set. differ.
  - injection Hs as <-. cbn [fst snd]. destruct err; apply keeps_ret.
Qed.

End Blocks.

Lemma acts_skip_keeps {A B} (m : Prog A) (f : A -> Prog B) g k G
    (R : B -> Prop) :
  keeps m g k -> (forall a, acts (f a) g k G R) -> acts (m ≫= f) g k G R.
Proof. intros Hm Hf. eapply acts_skip; [exact Hm | intros a _; apply Hf]. Qed.

Lemma acts_then_keeps {A B} (m : Prog A) (f : A -> Prog B) g k F
    (Q : A -> Prop) :
  acts m g k F Q -> (forall a, keeps (f a) g k) ->
  acts (m ≫= f) g k F (fun _ => True).
Proof. intros Hm Hf. eapply acts_then; [exact Hm | intros a _; apply Hf]. Qed.

Ltac slot_free :=
  let s := fresh "s" in
  let Hs := fresh "Hs" in
  let Heq := fresh "Heq" in
  intros s Hs Heq;
  first
    [ discriminate Heq
    | injection Heq as Heq; subst s; vm_compute in Hs; intuition discriminate ].

Ltac not_named :=
  let Hg := fresh in
  let Hk := fresh in
  intros Hg Hk; first [discriminate Hg | discriminate Hk | congruence].

Ltac keeps_block :=
  lazymatch goal with
  | |- keeps (for_each (seqZ 1 10) (slot _ _ _ _)) _ _ =>
      apply keeps_loop; [assumption | assumption | assumption | slot_free]
  | |- keeps (outdoor _ _ _ _ _ _) _ _ =>
      apply keeps_outdoor;
        [assumption | assumption | assumption
        | not_named | not_named | not_named | not_named | not_named]
  | |- keeps (station _ _ _ _) _ _ =>
      apply keeps_station;
        [assumption | assumption | assumption | assumption | discriminate]
  end.

Ltac solve_keeps_all := repeat first [keeps_block | keeps_step].

(** What follows the statement on the series of the goal, down to the
    station block. *)
Ltac solve_tail :=
  repeat lazymatch goal with
  | |- leaves (station _ _ _ _) _ _ =>
      apply leaves_station; [assumption | discriminate]
  | |- leaves (_ ≫= _) _ _ =>
      apply leaves_seq;
        [apply keeps_leaves; solve [solve_keeps_all] | intros ?]
  end.


Section Queries.

Variable ParseFloat : string -> option float.
Variable math_Pow : float -> float -> float.
Variable math_Log : float -> float.
Variable values : Values.
Hypothesis Hwf : well_formed values.
Variables p_name remote_adress : string.
Hypothesis Hname : utf8.ValidString p_name = true.
Hypothesis Hremote : utf8.ValidString remote_adress = true.

Let body := Parse_body ParseFloat math_Pow math_Log p_name remote_adress values.


Lemma sets_Parse_body_outdoor_temperature T :
  parses ParseFloat values "tempf" T ->
  sets body Temperature [remote_adress; p_name; "outdoor"] (fun _ => Some T).
Proof.
  intros HT. subst body. unfold Parse_body.
  eapply sets_skip_keeps; [solve [solve_keeps_all] | intros ?].
  eapply sets_skip_keeps; [solve [solve_keeps_all] | intros ?].
  eapply sets_then_leaves; [now apply acts_outdoor_temperature|].
  intros err. solve [solve_tail].
Qed.

Lemma sets_Parse_body_feelsLike T :
  parses ParseFloat values "tempf" T ->
  sets body Temperature [remote_adress; p_name; "feelsLike"]
    (fun _ => Some (feelsLike_of math_Pow T
                      (reading ParseFloat values "windspeedmph")
                      (reading ParseFloat values "humidity"))).
Proof.
  intros HT. subst body. unfold Parse_body.
  eapply sets_skip_keeps; [solve [solve_keeps_all] | intros ?].
  eapply sets_skip_keeps; [solve [solve_keeps_all] | intros ?].
  eapply sets_then_leaves; [now apply acts_outdoor_feelsLike|].
  intros err. solve [solve_tail].
Qed.

Lemma leaves_Parse_body_outdoor_fails g sfx :
  fails ParseFloat values "tempf" ->
  In (g, sfx) outdoor_series ->
  leaves body g (remote_adress :: p_name :: sfx).
Proof.
  intros HT H. unfold outdoor_series in H. cbn [In] in H. subst body.
  repeat (destruct H as [H|H];
    [injection H as <- <-; unfold Parse_body;
     apply leaves_seq; [apply keeps_leaves; solve [solve_keeps_all] | intros ?];
     apply leaves_seq; [apply keeps_leaves; solve [solve_keeps_all] | intros ?];
     apply leaves_seq;
       [apply keeps_leaves; now apply keeps_outdoor_fails | intros ?];
     solve [solve_tail]|]).
  destruct H.
Qed.

End Queries.

Lemma soil_ne (s : string) : "soil" +:+ s <> s.
Proof.
  intros H. apply (f_equal String.length) in H.
  cbv [String.append] in H. cbn [String.length] in H. lia.
Qed.



Lemma slot_labels_distinct i j :
  In i (seqZ 1 10) -> In j (seqZ 1 10) -> j <> i ->
  Itoa i <> Itoa j /\ Itoa i <> "soil" +:+ Itoa j /\
  "soil" +:+ Itoa i <> Itoa j /\ "soil" +:+ Itoa i <> "soil" +:+ Itoa j.
Proof.
  rewrite seqZ_1_10. cbn [In]. intros Hi Hj Hne.
  repeat (destruct Hi as [<-|Hi]; [
    repeat (destruct Hj as [<-|Hj]; [
      first [ now destruct Hne
            | repeat split; vm_compute; discriminate ] |]);
    destruct Hj |]).
  destruct Hi.
Qed.

Section Slots.

Variable ParseFloat : string -> option float.
Variable math_Pow : float -> float -> float.
Variable math_Log : float -> float.
Variable values : Values.
Hypothesis Hwf : well_formed values.
Variables p_name remote_adress : string.
Hypothesis Hname : utf8.ValidString p_name = true.
Hypothesis Hremote : utf8.ValidString remote_adress = true.



Let body := Parse_body ParseFloat math_Pow math_Log p_name remote_adress values.


End Slots.

(** ** From the body to [Parse] *)

Section Parse_facts.

Variable ParseFloat : string -> option float.
Variable math_Pow : float -> float -> float.
Variable math_Log : float -> float.

Abbreviation Parse' := (Parse ParseFloat math_Pow math_Log).
Abbreviation Parse_body' := (Parse_body ParseFloat math_Pow math_Log).

Lemma Parse_exec remote_adress values p :
  Parse' remote_adress values p =
  (exec (calls (Parse_body' (name p) remote_adress values)) p).2.
Proof.
  unfold Parse, run.
  destruct (exec _ p) as [[|] p']; reflexivity.
Qed.

(** Whatever the report, and whether the body panics or not, [Parse]
    leaves a parser with the name, the options and the labels it had. *)
Lemma Parse_frame remote_adress values p :
  same_frame p (Parse' remote_adress values p).
Proof. rewrite Parse_exec. apply exec_frame. Qed.

Lemma Parse_registered remote_adress values p :
  registered p -> registered (Parse' remote_adress values p).
Proof. apply registered_frame, Parse_frame. Qed.

Lemma Parse_acts remote_adress values p g k F (Q : unit -> Prop) :
  registered p ->
  acts (Parse_body' (name p) remote_adress values) g k F Q ->
  (run (Parse_body' (name p) remote_adress values) p).1 = Returned /\
  series g k (Parse' remote_adress values p) = F (series g k p).
Proof.
  intros Hr [(a & Ha & _) Hp]. destruct (Hp p Hr) as (p' & E & _ & Hs).
  unfold Parse, run. rewrite E, Ha. auto.
Qed.

Lemma Parse_sets remote_adress values p g k F :
  registered p ->
  sets (Parse_body' (name p) remote_adress values) g k F ->
  series g k (Parse' remote_adress values p) = F (series g k p).
Proof. intros Hr H. rewrite Parse_exec. now apply H. Qed.

Lemma parses_reading values field v :
  parses ParseFloat values field v -> reading ParseFloat values field = Some v.
Proof. unfold parses, reading. now intros ->. Qed.

Lemma fails_reading values field :
  fails ParseFloat values field -> reading ParseFloat values field = None.
Proof. unfold fails, reading. now intros [e ->]. Qed.



End Parse_facts.

Lemma well_formed_empty : well_formed ∅.
Proof. intros field array H. now rewrite lookup_empty in H. Qed.

Lemma well_formed_insert (values : Values) field array :
  array <> [] -> well_formed values -> well_formed (<[field := array]> values).
Proof.
  intros Ha Hv field' array' H.
  destruct (decide (field = field')) as [->|Hne].
  - rewrite lookup_insert_eq in H. congruence.
  - rewrite lookup_insert_ne in H by assumption. eapply Hv, H.
Qed.

(** ** Running the same calls twice *)

Lemma step_frame_None c p q :
  same_frame p q -> step c p = None -> step c q = None.
Proof.
  intros (_ & _ & _ & Hv). destruct c as [g lvs|g lvs v|g lvs]; cbn.
  - destruct (Hv g) as [_ Hl]. rewrite Hl.
    destruct (decide _); [|auto]. now destruct (forallb _ lvs).
  - discriminate.
  - case_decide; [case_match|]; discriminate.
Qed.

Lemma effect_shape_frame c p q g0 k0 :
  same_frame p q -> effect_shape c q g0 k0 = effect_shape c p g0 k0.
Proof.
  intros (_ & _ & _ & Hv). destruct c as [g lvs|g lvs v|g lvs]; cbn;
    try reflexivity.
  destruct (Hv g) as [_ ->]. reflexivity.
Qed.

(** On parsers with the same frame a sequence of calls acts on a series in
    one and the same way. *)
Lemma exec_shape cs : forall p g0 k0,
  exists s, forall q, same_frame p q ->
    series g0 k0 (exec cs q).2 = interp s (series g0 k0 q).
Proof.
  induction cs as [|c cs IH]; intros p g0 k0.
  - exists Keep. reflexivity.
  - destruct (step c p) as [p'|] eqn:E.
    + destruct (IH p' g0 k0) as [s' Hs'].
      exists (shape_then (effect_shape c p g0 k0) s').
      intros q Hq. cbn [exec].
      destruct (step c q) as [q'|] eqn:Eq.
      * rewrite Hs'.
        -- rewrite (series_step _ _ _ g0 k0 Eq), effect_interp, interp_then.
           now rewrite (effect_shape_frame c p q g0 k0 Hq).
        -- eapply same_frame_trans; [|eapply step_frame, Eq].
           eapply same_frame_trans; [|exact Hq].
           eapply same_frame_sym, step_frame, E.
      * apply (step_frame_None c q p (same_frame_sym _ _ Hq)) in Eq.
        congruence.
    + exists Keep. intros q Hq. cbn [exec].
      now rewrite (step_frame_None c p q Hq E).
Qed.

Lemma exec_idem cs p : (exec cs (exec cs p).2).2 = (exec cs p).2.
Proof.
  apply same_frame_series_eq; [apply exec_frame|].
  intros g k. destruct (exec_shape cs p g k) as [s Hs].
  rewrite (Hs (exec cs p).2 (exec_frame cs p)).
  rewrite (Hs p (same_frame_refl p)). apply interp_idem.
Qed.

(** ** Reports cut down to their first values *)

Lemma bind_ext {A B} (m : Prog A) (f f' : A -> Prog B) :
  (forall a, f a = f' a) -> m ≫= f = m ≫= f'.
Proof.
  intros H. unfold mbind, Prog_bind, bind.
  destruct (result m); [now rewrite H | reflexivity].
Qed.

Lemma for_each_ext {A} (l : list A) (body body' : A -> Prog unit) :
  (forall i, body i = body' i) -> for_each l body = for_each l body'.
Proof.
  intros H. induction l as [|i l IH]; cbn [for_each]; [reflexivity|].
  rewrite H. apply bind_ext. intros _. exact IH.
Qed.

Section First_values.

Variable ParseFloat : string -> option float.
Variable math_Pow : float -> float -> float.
Variable math_Log : float -> float.
Variable values : Values.

Lemma Has_first_values key : Has (first_values values) key = Has values key.
Proof.
  unfold Has, first_values. rewrite lookup_fmap.
  destruct (values !! key); reflexivity.
Qed.

Lemma parseValue_first_values field :
  parseValue ParseFloat (first_values values) field =
  parseValue ParseFloat values field.
Proof.
  unfold parseValue, first_values. rewrite lookup_fmap.
  destruct (values !! field) as [[|first array]|]; reflexivity.
Qed.

Lemma parseString_first_values field :
  parseString (first_values values) field = parseString values field.
Proof.
  unfold parseString, first_values. rewrite lookup_fmap.
  destruct (values !! field) as [[|first array]|]; reflexivity.
Qed.

Lemma update_first_values g lvs field :
  update ParseFloat (first_values values) g lvs field =
  update ParseFloat values g lvs field.
Proof. unfold update. now rewrite parseValue_first_values. Qed.

Lemma slot_first_values p_name remote_adress i :
  slot ParseFloat p_name remote_adress (first_values values) i =
  slot ParseFloat p_name remote_adress values i.
Proof.
  unfold slot. now rewrite !Has_first_values, !update_first_values.
Qed.

Lemma outdoor_first_values p_name remote_adress :
  outdoor ParseFloat math_Pow math_Log p_name remote_adress (first_values values) =
  outdoor ParseFloat math_Pow math_Log p_name remote_adress values.
Proof. unfold outdoor. now rewrite !parseValue_first_values. Qed.

Lemma station_first_values p_name remote_adress err :
  station p_name remote_adress (first_values values) err =
  station p_name remote_adress values err.
Proof. unfold station. now rewrite parseString_first_values. Qed.

Lemma Parse_body_first_values p_name remote_adress :
  Parse_body ParseFloat math_Pow math_Log p_name remote_adress (first_values values) =
  Parse_body ParseFloat math_Pow math_Log p_name remote_adress values.
Proof.
  unfold Parse_body.
  rewrite (for_each_ext _ _ _ (slot_first_values p_name remote_adress)).
  rewrite !update_first_values, outdoor_first_values.
  repeat lazymatch goal with
  | |- (_ ≫= _) = (_ ≫= _) => apply bind_ext; intros ?
  end.
  apply station_first_values.
Qed.

End First_values.

(** One of the label values of the context is not valid UTF-8. *)
Ltac labels_bad :=
  cbv zeta; cbn [forallb];
  match goal with
  | H : utf8.ValidString _ = false |- _ => rewrite H
  end;
  cbn [andb]; repeat rewrite andb_false_r; reflexivity.

(** ** Runs that panic

    [aborts m]: on a registered parser one of the calls of [m] panics. *)

Definition aborts {A} (m : Prog A) : Prop :=
  forall p, registered p -> (exec (calls m) p).1 = Panicked.

Lemma aborts_after {A B} (m : Prog A) (f : A -> Prog B) g k F
    (Q : A -> Prop) :
  acts m g k F Q -> (forall a, Q a -> aborts (f a)) -> aborts (m ≫= f).
Proof.
  intros [(a & Ha & HQ) Hm] Hf p Hr.
  destruct (bind_returned m f a Ha) as [-> _].
  destruct (Hm p Hr) as (p1 & E1 & Hr1 & _).
  rewrite exec_app, E1. now apply (Hf a HQ).
Qed.

Lemma aborts_after_keeps {A B} (m : Prog A) (f : A -> Prog B) g k :
  keeps m g k -> (forall a, aborts (f a)) -> aborts (m ≫= f).
Proof. intros Hm Hf. exact (aborts_after m f g k _ _ Hm (fun a _ => Hf a)). Qed.

Lemma aborts_with {B} g lvs (f : Gauge -> Prog B) :
  forallb utf8.ValidString lvs = false ->
  aborts (WithLabelValues g lvs ≫= f).
Proof.
  intros H p Hr.
  destruct (bind_returned (WithLabelValues g lvs) f (g, lvs) eq_refl) as [-> _].
  cbn [WithLabelValues calls app exec step]. rewrite H. now case_decide.
Qed.

Lemma run_aborts {A} (m : Prog A) p :
  registered p -> aborts m -> (run m p).1 = Panicked.
Proof.
  intros Hr H. specialize (H p Hr). unfold run.
  destruct (exec (calls m) p) as [[|] p']; [discriminate H | reflexivity].
Qed.

(** ** The outdoor block and the station type, series by series *)

Lemma float_le_40_lt_80 (T : float) : (T <=? 40) = true -> (T <? 80) = true.
Proof.
  rewrite FloatAxioms.leb_spec, FloatAxioms.ltb_spec. unfold SFleb, SFltb.
  set (c40 := Prim2SF 40). vm_compute in c40.
  set (c80 := Prim2SF 80). vm_compute in c80. subst c40 c80.
  destruct (Prim2SF T) as [s|s| |s m e]; cbn [SFcompare].
  - destruct s; reflexivity.
  - destruct s; [reflexivity | discriminate].
  - discriminate.
  - destruct s; [reflexivity|].
    destruct (Z.compare_spec e (-47)) as [->|Hlt|Hgt].
    + destruct (Z.compare_spec (-47) (-46)); [lia | reflexivity | lia].
    + intros _. destruct (Z.compare_spec e (-46)); [lia | reflexivity | lia].
    + discriminate.
Qed.

Lemma acts_with_set_last g lvs v :
  length lvs = length (declared g) ->
  forallb utf8.ValidString lvs = true ->
  acts (WithLabelValues g lvs ≫= fun gauge => Gauge_Set gauge v) g lvs
    (fun _ => Some v) (fun _ => True).
Proof.
  intros Hlen Hok.
  refine (acts_bind _ _ g lvs touch (fun _ => Some v)
            (fun gauge => gauge = (g, lvs)) (fun _ => True) _ _).
  - eapply acts_weaken; [apply (acts_WithLabelValues g lvs g lvs Hlen Hok)| |].
    + intros x. cbn. now rewrite decide_True.
    + intros a Ha. exact Ha.
  - intros gauge ->.
    eapply acts_weaken; [apply (acts_Gauge_Set g lvs v g lvs)| |auto].
    intros x. cbn. now rewrite decide_True.
Qed.

Section Outdoor_and_station.

Variable ParseFloat : string -> option float.
Variable math_Pow : float -> float -> float.
Variable math_Log : float -> float.
Variable values : Values.
Hypothesis Hwf : well_formed values.
Variables p_name remote_adress : string.
Hypothesis Hname : utf8.ValidString p_name = true.
Hypothesis Hremote : utf8.ValidString remote_adress = true.

Ltac as_keeps :=
  lazymatch goal with
  | |- acts ?m ?g ?k _ _ => change (keeps m g k)
  end.

(** The tail of the outdoor block, from the read of [humidity] on. *)
Ltac outdoor_tail :=
  apply keeps_seq; [solve_keeps|];
  let h := fresh "h" in
  let e := fresh "e" in
  intros [h [e|]]; cbn [fst snd]; solve_keeps.

Lemma acts_outdoor_err k0 :
  acts (outdoor ParseFloat math_Pow math_Log p_name remote_adress values)
    StationType k0 (fun x => x)
    (fun err => exists r,
       result (parseValue ParseFloat values "tempf") = Some r /\ err = r.2).
Proof.
  unfold outdoor.
  eapply acts_skip; [apply acts_parseValue; assumption|].
  intros [T [e|]] Hr; cbn [fst snd].
  { eapply acts_weaken; [apply acts_ret | auto |].
    intros a ->. exists (T, Some e). auto. }
  apply acts_with; [arity | labels_ok | differ |].
  eapply acts_skip_keeps; [apply keeps_set; differ | intros _].
  eapply acts_skip_keeps; [solve_keeps | intros w].
  eapply acts_skip_keeps;
    [destruct w as [w [e|]]; cbn [fst snd]; solve_keeps | intros fl1].
  eapply acts_skip_keeps; [solve_keeps | intros h].
  eapply acts_skip_keeps;
    [destruct h as [h [e|]]; cbn [fst snd]; solve_keeps | intros fl2].
  apply acts_with; [arity | labels_ok | differ |].
  eapply acts_skip_keeps; [apply keeps_set; differ | intros _].
  eapply acts_weaken; [apply acts_ret | auto |].
  intros a ->. exists (T, None). auto.
Qed.

Lemma acts_outdoor_wind T :
  parses ParseFloat values "tempf" T ->
  acts (outdoor ParseFloat math_Pow math_Log p_name remote_adress values)
    WindSpeedMph [remote_adress; p_name; "sustained"]
    (fun x => match reading ParseFloat values "windspeedmph" with
              | Some W => Some W
              | None => x
              end)
    (fun _ => True).
Proof.
  intros HT. unfold outdoor.
  eapply acts_skip; [apply acts_parseValue; assumption|].
  intros r Hr. unfold parses in HT. rewrite HT in Hr. injection Hr as <-.
  cbn [fst snd].
  apply acts_with; [arity | labels_ok | differ |].
  eapply acts_skip_keeps; [apply keeps_set; differ | intros _].
  eapply acts_skip; [apply acts_parseValue; assumption|]. intros w Hw.
  unfold reading. rewrite Hw. destruct w as [w [e|]]; cbn [fst snd].
  - apply keeps_seq; [apply keeps_ret|]. intros fl1. outdoor_tail.
  - eapply acts_then_keeps.
    + apply acts_with_set with (R := fun _ => True); [arity | labels_ok |].
      intros _. apply keeps_ret.
    + intros fl1. outdoor_tail.
Qed.

Lemma acts_outdoor_humidity T :
  parses ParseFloat values "tempf" T ->
  acts (outdoor ParseFloat math_Pow math_Log p_name remote_adress values)
    Humidity [remote_adress; p_name; "outdoor"]
    (fun x => match reading ParseFloat values "humidity" with
              | Some RH => Some RH
              | None => x
              end)
    (fun _ => True).
Proof.
  intros HT. unfold outdoor.
  eapply acts_skip; [apply acts_parseValue; assumption|].
  intros r Hr. unfold parses in HT. rewrite HT in Hr. injection Hr as <-.
  cbn [fst snd].
  apply acts_with; [arity | labels_ok | differ |].
  eapply acts_skip_keeps; [apply keeps_set; differ | intros _].
  eapply acts_skip_keeps; [solve_keeps | intros w].
  eapply acts_skip_keeps;
    [destruct w as [w [e|]]; cbn [fst snd]; solve_keeps | intros fl1].
  eapply acts_skip; [apply acts_parseValue; assumption|]. intros h Hh.
  unfold reading. rewrite Hh. destruct h as [h [e|]]; cbn [fst snd].
  - as_keeps. solve_keeps.
  - eapply acts_then_keeps.
    + apply acts_with_set with (R := fun _ => True); [arity | labels_ok |].
      intros _. solve_keeps.
    + intros fl2. solve_keeps.
Qed.

Lemma acts_outdoor_dewpoint T :
  parses ParseFloat values "tempf" T ->
  acts (outdoor ParseFloat math_Pow math_Log p_name remote_adress values)
    Temperature [remote_adress; p_name; "dewpoint"]
    (fun x => match reading ParseFloat values "humidity" with
              | Some RH => Some (calculateDewPoint math_Log T RH)
              | None => x
              end)
    (fun _ => True).
Proof.
  intros HT. unfold outdoor.
  eapply acts_skip; [apply acts_parseValue; assumption|].
  intros r Hr. unfold parses in HT. rewrite HT in Hr. injection Hr as <-.
  cbn [fst snd].
  apply acts_with; [arity | labels_ok | differ |].
  eapply acts_skip_keeps; [apply keeps_set; differ | intros _].
  eapply acts_skip_keeps; [solve_keeps | intros w].
  eapply acts_skip_keeps;
    [destruct w as [w [e|]]; cbn [fst snd]; solve_keeps | intros fl1].
  eapply acts_skip; [apply acts_parseValue; assumption|]. intros h Hh.
  unfold reading. rewrite Hh. destruct h as [h [e|]]; cbn [fst snd].
  - as_keeps. solve_keeps.
  - eapply acts_then_keeps.
    + apply acts_with; [arity | labels_ok | differ |].
      eapply acts_skip_keeps; [apply keeps_set; differ | intros _].
      apply acts_with_set with (R := fun _ => True); [arity | labels_ok |].
      intros _. apply keeps_ret.
    + intros fl2. solve_keeps.
Qed.

Lemma keeps_slot_StationType i k0 :
  In i (seqZ 1 10) ->
  keeps (slot ParseFloat p_name remote_adress values i) StationType k0.
Proof.
  intros Hi. destruct (slot_labels_valid i Hi) as [Hvi Hvs].
  unfold slot. solve_keeps.
Qed.

Lemma keeps_loop_StationType k0 :
  keeps (for_each (seqZ 1 10) (slot ParseFloat p_name remote_adress values))
    StationType k0.
Proof.
  apply keeps_for_each, Forall_forall. intros i Hi.
  apply keeps_slot_StationType. now apply list_elem_of_In.
Qed.

Lemma acts_station_set first rest :
  values !! "stationtype" = Some (first :: rest) ->
  utf8.ValidString (stripped first) = true ->
  acts (station p_name remote_adress values None)
    StationType [remote_adress; p_name; stripped first]
    (fun _ => Some 1) (fun _ => True).
Proof.
  intros H Hfirst. unfold station.
  eapply acts_skip; [apply acts_parseString; assumption|].
  intros s Hs. unfold parseString in Hs. rewrite H in Hs.
  injection Hs as <-. cbn [fst snd error_eq]. unfold updateGauge.
  cbn [fst snd]. apply acts_with_set_last; [arity | labels_ok].
Qed.

Lemma keeps_station_err e k0 :
  keeps (station p_name remote_adress values (Some e)) StationType k0.
Proof.
  unfold station. apply keeps_seq; [solve_keeps|].
  intros [stationType station_err]. cbn [fst snd error_eq]. apply keeps_ret.
Qed.

Lemma keeps_station_absent err k0 :
  values !! "stationtype" = None ->
  keeps (station p_name remote_adress values err) StationType k0.
Proof.
  intros H. unfold station.
  eapply acts_skip; [apply acts_parseString; assumption|].
  intros s Hs. unfold parseString in Hs. rewrite H in Hs.
  injection Hs as <-. cbn [fst snd]. destruct err; apply keeps_ret.
Qed.

(** On the other series of the station type the block is idle, whether
    its [WithLabelValues] panics or not. *)
Lemma leaves_station_other err first rest k0 :
  values !! "stationtype" = Some (first :: rest) ->
  k0 <> [remote_adress; p_name; stripped first] ->
  leaves (station p_name remote_adress values err) StationType k0.
Proof.
  intros H Hk. unfold station.
  eapply sets_skip; [apply acts_parseString; assumption|].
  intros s Hs. unfold parseString in Hs. rewrite H in Hs.
  injection Hs as <-. cbn [fst snd]. apply leaves_if; [|apply leaves_ret].
  apply leaves_with; [intros [_ Hk']; congruence|].
  unfold updateGauge. cbn [fst snd].
  apply keeps_leaves, keeps_set. intros [_ Hk']. congruence.
Qed.

(** The block returns when the label it makes of the station type is
    valid. *)
Lemma keeps_station_valid err k0 :
  (err = None -> forall first rest,
     values !! "stationtype" = Some (first :: rest) ->
     utf8.ValidString (stripped first) = true) ->
  (forall sensor, k0 <> [remote_adress; p_name; sensor]) ->
  keeps (station p_name remote_adress values err) StationType k0.
Proof.
  intros Hst Hk. unfold station.
  eapply acts_skip; [apply acts_parseString; assumption|].
  intros s Hs. unfold parseString in Hs.
  destruct (values !! "stationtype") as [[|first rest]|] eqn:E.
  - discriminate Hs.
  - injection Hs as <-. cbn [fst snd].
    destruct err as [e|]; cbn [error_eq]; [apply keeps_ret|].
    pose proof (Hst eq_refl first rest eq_refl) as Hfirst.
    apply keeps_with;
      [arity | labels_ok | intros [_ Hk']; now destruct (Hk (stripped first))|].
    unfold updateGauge. cbn [fst snd].
    apply keeps_set. intros [_ Hk']. now destruct (Hk (stripped first)).
  - injection Hs as <-. cbn [fst snd]. destruct err; apply keeps_ret.
Qed.

Let body := Parse_body ParseFloat math_Pow math_Log p_name remote_adress values.

Ltac to_outdoor :=
  subst body; unfold Parse_body;
  eapply sets_skip_keeps; [solve [solve_keeps_all] | intros ?];
  eapply sets_skip_keeps; [solve [solve_keeps_all] | intros ?].

Lemma sets_Parse_body_wind T :
  parses ParseFloat values "tempf" T ->
  sets body WindSpeedMph [remote_adress; p_name; "sustained"]
    (fun x => match reading ParseFloat values "windspeedmph" with
              | Some W => Some W
              | None => x
              end).
Proof.
  intros HT. to_outdoor.
  eapply sets_then_leaves; [now apply (acts_outdoor_wind T)|].
  intros err. solve [solve_tail].
Qed.

Lemma sets_Parse_body_humidity T :
  parses ParseFloat values "tempf" T ->
  sets body Humidity [remote_adress; p_name; "outdoor"]
    (fun x => match reading ParseFloat values "humidity" with
              | Some RH => Some RH
              | None => x
              end).
Proof.
  intros HT. to_outdoor.
  eapply sets_then_leaves; [now apply (acts_outdoor_humidity T)|].
  intros err. solve [solve_tail].
Qed.

Lemma sets_Parse_body_dewpoint T :
  parses ParseFloat values "tempf" T ->
  sets body Temperature [remote_adress; p_name; "dewpoint"]
    (fun x => match reading ParseFloat values "humidity" with
              | Some RH => Some (calculateDewPoint math_Log T RH)
              | None => x
              end).
Proof.
  intros HT. to_outdoor.
  eapply sets_then_leaves; [now apply (acts_outdoor_dewpoint T)|].
  intros err. solve [solve_tail].
Qed.

(** Up to the station block, for a series of the station type. *)
Ltac to_station :=
  subst body; unfold Parse_body;
  eapply acts_skip_keeps; [apply keeps_loop_StationType | intros ?];
  eapply acts_skip_keeps; [solve [solve_keeps] | intros ?];
  eapply acts_skip; [apply acts_outdoor_err|];
  let err := fresh "err" in
  let r := fresh "r" in
  let Hres := fresh "Hres" in
  intros err (r & Hres & ->);
  repeat lazymatch goal with
  | |- acts (_ ≫= _) _ _ _ _ =>
      eapply acts_skip_keeps; [solve [solve_keeps] | intros ?]
  end.

Ltac to_station_idle :=
  subst body; unfold Parse_body;
  eapply sets_skip_keeps; [apply keeps_loop_StationType | intros ?];
  eapply sets_skip_keeps; [solve [solve_keeps] | intros ?];
  eapply sets_skip; [apply acts_outdoor_err|];
  let err := fresh "err" in
  let r := fresh "r" in
  let Hres := fresh "Hres" in
  intros err (r & Hres & ->);
  repeat lazymatch goal with
  | |- sets (_ ≫= _) _ _ _ =>
      eapply sets_skip_keeps; [solve [solve_keeps] | intros ?]
  end.

Lemma acts_Parse_body_station_set T first rest :
  parses ParseFloat values "tempf" T ->
  values !! "stationtype" = Some (first :: rest) ->
  utf8.ValidString (stripped first) = true ->
  acts body StationType [remote_adress; p_name; stripped first]
    (fun _ => Some 1) (fun _ => True).
Proof.
  intros HT Hs Hfirst. to_station.
  unfold parses in HT. rewrite HT in Hres. injection Hres as <-.
  cbn [snd]. now apply (acts_station_set first rest).
Qed.

(** The body runs to its end when the station type, where the station
    block makes a label of it, is valid UTF-8. *)
Lemma acts_Parse_body_returns :
  ((exists T, parses ParseFloat values "tempf" T) ->
   forall first rest,
     values !! "stationtype" = Some (first :: rest) ->
     utf8.ValidString (stripped first) = true) ->
  keeps body StationType [].
Proof.
  intros Hst. to_station. apply keeps_station_valid; [|discriminate].
  intros Herr. apply Hst. exists r.1. unfold parses.
  rewrite Hres. destruct r as [T err]. cbn [snd] in Herr. now subst err.
Qed.

(** And it panics in the station block when this label is not valid. *)
Lemma aborts_Parse_body T first rest :
  parses ParseFloat values "tempf" T ->
  values !! "stationtype" = Some (first :: rest) ->
  utf8.ValidString (stripped first) = false ->
  aborts body.
Proof.
  intros HT Hs Hbad. subst body. unfold Parse_body.
  eapply (aborts_after_keeps _ _ StationType []);
    [apply keeps_loop_StationType | intros ?].
  eapply (aborts_after_keeps _ _ StationType []);
    [solve [solve_keeps] | intros ?].
  eapply aborts_after; [apply (acts_outdoor_err [])|].
  intros err (r & Hres & ->).
  unfold parses in HT. rewrite HT in Hres. injection Hres as <-. cbn [snd].
  repeat lazymatch goal with
  | |- aborts (_ ≫= _) =>
      eapply (aborts_after_keeps _ _ StationType []);
        [solve [solve_keeps] | intros ?]
  end.
  unfold station.
  eapply aborts_after; [apply (acts_parseString _ Hwf _ StationType [])|].
  intros s Hs'. unfold parseString in Hs'. rewrite Hs in Hs'.
  injection Hs' as <-. cbn [fst snd error_eq].
  apply aborts_with. labels_bad.
Qed.

Lemma leaves_Parse_body_station_other first rest k0 :
  values !! "stationtype" = Some (first :: rest) ->
  k0 <> [remote_adress; p_name; stripped first] ->
  leaves body StationType k0.
Proof.
  intros H Hk. unfold leaves. to_station_idle.
  now apply (leaves_station_other _ first rest).
Qed.

Lemma keeps_Parse_body_station k0 :
  fails ParseFloat values "tempf" \/ values !! "stationtype" = None ->
  keeps body StationType k0.
Proof.
  intros H. to_station. destruct H as [[e He]|Hs].
  - rewrite He in Hres. injection Hres as <-. cbn [snd].
    apply keeps_station_err.
  - now apply keeps_station_absent.
Qed.

End Outdoor_and_station.

(** ** Series that are never removed, runs that end early *)

Lemma removes_nothing_bind {A B} (m : Prog A) (f : A -> Prog B) :
  Forall removes_nothing (calls m) ->
  (forall a, Forall removes_nothing (calls (f a))) ->
  Forall removes_nothing (calls (m ≫= f)).
Proof.
  intros Hm Hf. destruct (result m) as [a|] eqn:E.
  - destruct (bind_returned m f a E) as [-> _].
    apply Forall_app. auto.
  - destruct (bind_panicked m f E) as [-> _]. exact Hm.
Qed.

Lemma removes_nothing_for_each {A} (l : list A) (body : A -> Prog unit) :
  (forall i, Forall removes_nothing (calls (body i))) ->
  Forall removes_nothing (calls (for_each l body)).
Proof.
  intros H. induction l as [|i l IH]; cbn [for_each]; [constructor|].
  apply removes_nothing_bind; auto.
Qed.

Ltac removes_nothing_step :=
  lazymatch goal with
  | |- Forall removes_nothing (calls (mret _)) => constructor
  | |- Forall removes_nothing (calls (parseValue _ _ _)) =>
      rewrite parseValue_calls; constructor
  | |- Forall removes_nothing (calls (parseString _ _)) =>
      rewrite parseString_calls; constructor
  | |- Forall removes_nothing (calls (WithLabelValues _ _)) =>
      repeat constructor
  | |- Forall removes_nothing (calls (Gauge_Set _ _)) => repeat constructor
  | |- Forall removes_nothing (calls (DeleteLabelValues _ _)) =>
      constructor; [cbn; discriminate | constructor]
  | |- Forall removes_nothing (calls (if _ then _ else _)) => case_match
  | |- Forall removes_nothing (calls (match _ with _ => _ end)) => case_match
  | |- Forall removes_nothing (calls (_ ≫= _)) =>
      apply removes_nothing_bind; [|intros ?]
  end.

Lemma Parse_body_removes_nothing (ParseFloat : string -> option float)
    (math_Pow : float -> float -> float) (math_Log : float -> float)
    (p_name remote_adress : string) (values : Values) :
  Forall removes_nothing
    (calls (Parse_body ParseFloat math_Pow math_Log p_name remote_adress values)).
Proof.
  unfold Parse_body.
  apply removes_nothing_bind.
  { apply removes_nothing_for_each. intros i. unfold slot, update, updateGauge.
    repeat removes_nothing_step. }
  intros _. unfold update, outdoor, station, updateGauge.
  repeat removes_nothing_step.
Qed.

Lemma exec_removes_nothing cs : forall p g k,
  registered p -> Forall removes_nothing cs ->
  is_Some (series g k p) -> is_Some (series g k (exec cs p).2).
Proof.
  induction cs as [|c cs IH]; intros p g k Hr Hcs Hs; [exact Hs|].
  apply Forall_cons in Hcs as [Hc Hcs]. cbn [exec].
  destruct (step c p) as [p'|] eqn:E; [|exact Hs].
  apply IH; [eapply registered_frame; [eapply step_frame, E | exact Hr]
            |exact Hcs|].
  rewrite (series_step _ _ _ g k E).
  destruct c as [g' lvs|g' lvs v|g' lvs]; cbn [effect removes_nothing] in *;
    case_decide; try exact Hs; try (unfold touch; eauto).
  rewrite (Hr g') in *. intuition congruence.
Qed.

(** On a registered parser no call of [Parse] removes a series, whatever
    the report is. *)
Lemma Parse_removes_nothing (ParseFloat : string -> option float)
    (math_Pow : float -> float -> float) (math_Log : float -> float)
    (remote_adress : string) (values : Values) (p : Parser) g k :
  registered p -> is_Some (series g k p) ->
  is_Some (series g k (Parse ParseFloat math_Pow math_Log remote_adress values p)).
Proof.
  intros Hr Hs. rewrite Parse_exec.
  apply exec_removes_nothing; [exact Hr | apply Parse_body_removes_nothing | exact Hs].
Qed.

(** A run that ends before it has written: calls of [DeleteLabelValues],
    then a [WithLabelValues] with a label value that is not valid UTF-8. *)
Inductive stops_early : list call -> Prop :=
  | stops_nil : stops_early []
  | stops_delete g lvs cs :
      stops_early cs -> stops_early (CallDeleteLabelValues g lvs :: cs)
  | stops_with g lvs cs :
      forallb utf8.ValidString lvs = false ->
      stops_early (CallWithLabelValues g lvs :: cs).

Lemma stops_early_app cs1 cs2 :
  stops_early cs1 -> stops_early cs2 -> stops_early (cs1 ++ cs2).
Proof.
  induction 1 as [|g lvs cs H IH|g lvs cs H]; intros H2; cbn.
  - exact H2.
  - constructor. now apply IH.
  - now constructor.
Qed.

Lemma stops_early_bind {A B} (m : Prog A) (f : A -> Prog B) :
  stops_early (calls m) ->
  (forall a, stops_early (calls (f a))) ->
  stops_early (calls (m ≫= f)).
Proof.
  intros Hm Hf. destruct (result m) as [a|] eqn:E.
  - destruct (bind_returned m f a E) as [-> _].
    apply stops_early_app; auto.
  - destruct (bind_panicked m f E) as [-> _]. exact Hm.
Qed.

Lemma stops_early_with {B} g lvs (f : Gauge -> Prog B) :
  forallb utf8.ValidString lvs = false ->
  stops_early (calls (WithLabelValues g lvs ≫= f)).
Proof.
  intros H.
  destruct (bind_returned (WithLabelValues g lvs) f (g, lvs) eq_refl) as [-> _].
  now constructor.
Qed.

Lemma stops_early_for_each {A} (l : list A) (body : A -> Prog unit) :
  (forall i, stops_early (calls (body i))) ->
  stops_early (calls (for_each l body)).
Proof.
  intros H. induction l as [|i l IH]; cbn [for_each]; [constructor|].
  apply stops_early_bind; auto.
Qed.

Ltac stops_step :=
  lazymatch goal with
  | |- stops_early (calls (mret _)) => constructor
  | |- stops_early (calls (parseValue _ _ _)) =>
      rewrite parseValue_calls; constructor
  | |- stops_early (calls (parseString _ _)) =>
      rewrite parseString_calls; constructor
  | |- stops_early (calls (DeleteLabelValues _ _)) => repeat constructor
  | |- stops_early (calls (if _ then _ else _)) => case_match
  | |- stops_early (calls (match _ with _ => _ end)) => case_match
  | |- stops_early (calls (WithLabelValues _ _ ≫= _)) =>
      apply stops_early_with; labels_bad
  | |- stops_early (calls (_ ≫= _)) =>
      apply stops_early_bind; [|intros ?]
  end.


Lemma exec_stops_early cs : forall p,
  registered p -> stops_early cs -> Forall removes_nothing cs ->
  exec cs p = (Returned, p) \/ exec cs p = (Panicked, p).
Proof.
  induction cs as [|c cs IH]; intros p Hr Hs Hn; [now left|].
  apply Forall_cons in Hn as [Hc Hn]. cbn [exec].
  inversion Hs as [|g lvs cs' Hs'|g lvs cs' Hbad]; subst.
  - cbn [step removes_nothing] in *. rewrite (Hr g).
    rewrite decide_False by assumption. now apply IH.
  - cbn [step]. rewrite Hbad. right. now case_decide.
Qed.


(** With such a name or remote address the body panics, at the first
    [WithLabelValues] or before. *)
Lemma run_invalid_label (ParseFloat : string -> option float)
    (math_Pow : float -> float -> float) (math_Log : float -> float)
    (p_name remote_adress : string) (values : Values) (p : Parser) :
  registered p ->
  utf8.ValidString p_name = false \/
  utf8.ValidString remote_adress = false ->
  (run (Parse_body ParseFloat math_Pow math_Log p_name remote_adress values)
     p).1 = Panicked.
Proof.
  intros Hr H. unfold Parse_body.
  set (loop := for_each (seqZ 1 10)
                 (slot ParseFloat p_name remote_adress values)).
  assert (Hloop : stops_early (calls loop) /\
                  Forall removes_nothing (calls loop)).
  { split.
    - apply stops_early_for_each. intros i.
      unfold slot, update, updateGauge. destruct H; repeat stops_step.
    - apply removes_nothing_for_each. intros i.
      unfold slot, update, updateGauge. repeat removes_nothing_step. }
  destruct Hloop as [Hs Hn]. unfold run.
  destruct (result loop) as [u|] eqn:E.
  - match goal with
    | |- context [loop ≫= ?f] =>
        destruct (bind_returned loop f u E) as [-> _]
    end.
    rewrite exec_app.
    destruct (exec_stops_early _ p Hr Hs Hn) as [-> | ->]; [|reflexivity].
    unfold update.
    match goal with
    | |- context [calls ((WithLabelValues ?g ?lvs ≫= ?h) ≫= ?k)] =>
        assert (Hw : aborts ((WithLabelValues g lvs ≫= h) ≫= k))
    end.
    { intros q Hq.
      match goal with
      | |- context [calls (?m ≫= ?k)] =>
          assert (Hm : aborts m) by (apply aborts_with; destruct H; labels_bad)
      end.
      match goal with
      | |- context [calls (?m ≫= ?k)] =>
          destruct (result m) as [a|] eqn:Ea;
            [destruct (bind_returned m k a Ea) as [-> _]
            |destruct (bind_panicked m k Ea) as [-> _]]
      end.
      - rewrite exec_app. specialize (Hm q Hq).
        destruct (exec _ q) as [[|] q']; [discriminate Hm | reflexivity].
      - apply (Hm q Hq). }
    specialize (Hw p Hr).
    destruct (exec _ p) as [[|] p']; [discriminate Hw | reflexivity].
  - match goal with
    | |- context [loop ≫= ?f] =>
        destruct (bind_panicked loop f E) as [-> ->]
    end.
    destruct (exec (calls loop) p) as [[|] p']; reflexivity.
Qed.

(** * The claims *)

(** ** The derived quantities *)

Lemma float_lt_13_not_gt_85 (RH : float) :
  (RH <? 13) = true -> (85 <? RH) = false.
Proof.
  rewrite !FloatAxioms.ltb_spec. unfold SFltb.
  set (c13 := Prim2SF 13). vm_compute in c13.
  set (c85 := Prim2SF 85). vm_compute in c85. subst c13 c85.
  destruct (Prim2SF RH) as [s|s| |s m e]; cbn [SFcompare].
  - destruct s; reflexivity.
  - destruct s; [reflexivity | discriminate].
  - reflexivity.
  - destruct s; [reflexivity|].
    destruct (Z.compare_spec e (-49)) as [->|Hlt|Hgt].
    + reflexivity.
    + intros _. destruct (Z.compare_spec (-46) e); [lia | lia | reflexivity].
    + discriminate.
Qed.

(** C5.  [calculateWindChill T W] is [T] itself as soon as [T > 40] or
    [W < 5], so for [T = 45] and [W = 10]; otherwise it is the wind-chill
    formula [35.74 + 0.6215 T - 35.75 W^0.16 + 0.4275 T W^0.16]. *)
Theorem calculateWindChill_cases (math_Pow : float -> float -> float)
    (T W : float) :
  ((40 <? T) = true \/ (W <? 5) = true ->
   calculateWindChill math_Pow T W = T) /\
  calculateWindChill math_Pow 45 10 = 45 /\
  ((40 <? T) = false -> (W <? 5) = false ->
   calculateWindChill math_Pow T W = windChill_formula math_Pow T W).
Proof.
  unfold calculateWindChill, windChill_formula. repeat split.
  - intros [-> | ->]; [reflexivity|]. now rewrite orb_true_r.
  - intros -> ->. reflexivity.
Qed.

Lemma calculateWindChill_cases_witness :
  calculateWindChill Pow_undefined 45 3 = 45.
Proof.
  refine (proj1 (calculateWindChill_cases Pow_undefined 45 3) (or_introl _)).
  vm_compute. reflexivity.
Defined.

(** C6.  [calculateHeatIndex T RH] is [T] itself below 80 degrees, so for
    [T = 75] and [RH = 90]; from 80 degrees on it is the simple index
    [0.5 (T + 61 + (T - 68) 1.2 + RH 0.094)] when that is below 80, and
    otherwise the Rothfusz polynomial, less the low-humidity correction
    when [RH < 13] and [80 <= T <= 112], plus the high-humidity correction
    when [RH > 85] and [80 <= T <= 87], and uncorrected in the other
    cases. *)
Theorem calculateHeatIndex_cases (T RH : float) :
  ((T <? 80) = true -> calculateHeatIndex T RH = T) /\
  calculateHeatIndex 75 90 = 75 /\
  ((T <? 80) = false -> (simpleHI_formula T RH <? 80) = true ->
   calculateHeatIndex T RH = simpleHI_formula T RH) /\
  ((T <? 80) = false -> (simpleHI_formula T RH <? 80) = false ->
   (low_humidity T RH = true ->
    calculateHeatIndex T RH = rothfusz T RH - low_humidity_correction T RH) /\
   (high_humidity T RH = true ->
    calculateHeatIndex T RH = rothfusz T RH + high_humidity_correction T RH) /\
   (low_humidity T RH = false -> high_humidity T RH = false ->
    calculateHeatIndex T RH = rothfusz T RH)).
Proof.
  unfold calculateHeatIndex, simpleHI_formula, rothfusz, low_humidity,
    high_humidity, low_humidity_correction, high_humidity_correction.
  split; [now intros ->|]. split; [reflexivity|].
  split; [now intros -> ->|].
  intros -> ->. cbv zeta. repeat split.
  - now intros ->.
  - intros H. destruct (RH <? 13) eqn:E.
    + apply float_lt_13_not_gt_85 in E. rewrite E in H. discriminate H.
    + cbn [andb]. now rewrite H.
  - now intros -> ->.
Qed.

Lemma calculateHeatIndex_cases_witness : calculateHeatIndex 79 40 = 79.
Proof.
  refine (proj1 (calculateHeatIndex_cases 79 40) _).
  vm_compute. reflexivity.
Defined.

(** C7.  [calculateDewPoint T RH] is the Magnus approximation: with
    [Tc = (T - 32) 5 / 9] and
    [alpha = ln (RH / 100) + 17.625 Tc / (243.04 + Tc)], the dew point
    [243.04 alpha / (17.625 - alpha)] taken back to Fahrenheit.  At
    [T = 70] and [RH = 50], where [math.Log] is asked for [ln 0.5], the
    result is within 0.2 of 50.6. *)
Theorem calculateDewPoint_magnus (math_Log : float -> float) :
  (forall T RH,
     calculateDewPoint math_Log T RH = magnus_dewPoint math_Log T RH) /\
  (math_Log 0.5 = Log_half ->
   (PrimFloat.abs (calculateDewPoint math_Log 70 50 - 50.6) <=? 0.2) = true).
Proof.
  split; [reflexivity|].
  intros H. unfold calculateDewPoint. cbv zeta.
  change (math_Log (50 / 100)) with (math_Log 0.5). rewrite H.
  vm_compute. reflexivity.
Qed.

Lemma calculateDewPoint_magnus_witness :
  (PrimFloat.abs (calculateDewPoint Log_at_half 70 50 - 50.6) <=? 0.2) = true.
Proof.
  refine (proj2 (calculateDewPoint_magnus Log_at_half) _).
  vm_compute. reflexivity.
Defined.

(** ** The translator *)

Ltac well_formed_report :=
  repeat (apply well_formed_insert; [discriminate|]); apply well_formed_empty.

(** A station name that is one byte, 0xFF: no valid UTF-8. *)
Definition name_not_utf8 : string := String (ascii_of_nat 255) EmptyString.

(** C4, as stated, fails for a station name that is not valid UTF-8: with
    the name [name_not_utf8] and the report [report_cold], where [tempf]
    parses to 30, [WithLabelValues] panics on the name at the first series
    that [Parse] asks for, and the outdoor temperature is not set. *)
Lemma outdoor_not_set_under_invalid_name :
  utf8.ValidString name_not_utf8 = false /\
  parses ParseFloat_uint report_cold "tempf" 30 /\
  series Temperature [remote_example; name_not_utf8; "outdoor"]
    (Parse ParseFloat_uint Pow_undefined Log_at_half remote_example
       report_cold (NewParser name_not_utf8 "" false)) = None.
Proof. vm_compute. repeat split; reflexivity. Qed.

(** C4, amended.  On a registered parser whose name is valid UTF-8, for a
    remote address that is valid UTF-8 and a report whose fields all have
    a value: when [tempf] parses to [T], [Parse] sets the outdoor
    temperature to [T], and the feels-like temperature to the wind chill
    of [T] and [W] if [windspeedmph] parses to [W], [T <= 40], and
    [humidity] does not parse or [T < 80]; to the heat index of [T] and
    [RH] if [humidity] parses to [RH] and [T >= 80]; to [T] if neither of
    the two parses.  When [tempf] does not parse, the call leaves the five
    series of the outdoor block as they were. *)
Theorem Parse_outdoor_comfort (ParseFloat : string -> option float)
    (math_Pow : float -> float -> float) (math_Log : float -> float)
    (remote_adress : string) (values : Values) (p : Parser) :
  registered p -> well_formed values ->
  utf8.ValidString (name p) = true ->
  utf8.ValidString remote_adress = true ->
  let p' := Parse ParseFloat math_Pow math_Log remote_adress values p in
  let feelsLike := series Temperature [remote_adress; name p; "feelsLike"] p' in
  (forall T, parses ParseFloat values "tempf" T ->
     series Temperature [remote_adress; name p; "outdoor"] p' = Some T /\
     (forall W, parses ParseFloat values "windspeedmph" W ->
        (T <=? 40) = true ->
        fails ParseFloat values "humidity" \/ (T <? 80) = true ->
        feelsLike = Some (calculateWindChill math_Pow T W)) /\
     (forall RH, parses ParseFloat values "humidity" RH ->
        (80 <=? T) = true ->
        feelsLike = Some (calculateHeatIndex T RH)) /\
     (fails ParseFloat values "windspeedmph" ->
      fails ParseFloat values "humidity" ->
      feelsLike = Some T)) /\
  (fails ParseFloat values "tempf" ->
   forall g sfx, In (g, sfx) outdoor_series ->
     series g (remote_adress :: name p :: sfx) p' =
     series g (remote_adress :: name p :: sfx) p).
Proof.
  intros Hr Hwf Hname Hremote p' feelsLike. split.
  - intros T HT.
    pose proof (Parse_sets ParseFloat math_Pow math_Log remote_adress values p
                  _ _ _ Hr
                  (sets_Parse_body_outdoor_temperature ParseFloat math_Pow
                     math_Log values Hwf (name p) remote_adress Hname Hremote
                     T HT)) as Hout.
    pose proof (Parse_sets ParseFloat math_Pow math_Log remote_adress values p
                  _ _ _ Hr
                  (sets_Parse_body_feelsLike ParseFloat math_Pow
                     math_Log values Hwf (name p) remote_adress Hname Hremote
                     T HT)) as Hfl.
    fold p' in Hout, Hfl. fold feelsLike in Hfl.
    split; [exact Hout|]. rewrite Hfl. unfold feelsLike_of.
    split; [|split].
    + intros W HW Hle Hh. rewrite (parses_reading _ _ _ _ HW), Hle.
      destruct Hh as [Hf|Hlt].
      * now rewrite (fails_reading _ _ _ Hf).
      * rewrite (float_lt_not_ge T 80 Hlt).
        now destruct (reading ParseFloat values "humidity").
    + intros RH HRH Hge. now rewrite (parses_reading _ _ _ _ HRH), Hge.
    + intros Hw Hh.
      now rewrite (fails_reading _ _ _ Hw), (fails_reading _ _ _ Hh).
  - intros HT g sfx Hin.
    apply (Parse_sets ParseFloat math_Pow math_Log remote_adress values p
             g _ (fun x => x) Hr).
    now apply leaves_Parse_body_outdoor_fails.
Qed.

Lemma Parse_outdoor_comfort_witness :
  series Temperature [remote_example; "home"; "outdoor"]
    (Parse ParseFloat_uint Pow_undefined Log_at_half remote_example
       report_cold station_home) = Some 30.
Proof.
  refine (proj1 (proj1 (Parse_outdoor_comfort ParseFloat_uint Pow_undefined
                          Log_at_half remote_example report_cold station_home
                          _ _ _ _) 30 _)).
  - intros g. destruct g; reflexivity.
  - well_formed_report.
  - reflexivity.
  - reflexivity.
  - vm_compute. reflexivity.
Defined.







(** The deferred [recover] at work: on [report_no_value] the body panics at
    [array[0]] for [tempinf], after it has got the gauge of the indoor
    temperature; [Parse] returns, and the statements after the panic have
    not run. *)
Example Parse_recovers_from_panic :
  (run (Parse_body ParseFloat_uint Pow_undefined Log_at_half "home"
          remote_example report_no_value) station_home).1 = Panicked /\
  series Temperature [remote_example; "home"; "indoor"]
    (Parse ParseFloat_uint Pow_undefined Log_at_half remote_example
       report_no_value station_home) = Some 0 /\
  series Battery [remote_example; "home"; "outdoor"]
    (Parse ParseFloat_uint Pow_undefined Log_at_half remote_example
       report_no_value station_home) = None.
Proof. vm_compute. repeat split; reflexivity. Qed.

(** C8.  [Parse] is idempotent: from every state of the registry, two
    calls with the same remote address and the same report leave the
    state that one call leaves. *)
Theorem Parse_idempotent (ParseFloat : string -> option float)
    (math_Pow : float -> float -> float) (math_Log : float -> float)
    (remote_adress : string) (values : Values) (p : Parser) :
  Parse ParseFloat math_Pow math_Log remote_adress values
    (Parse ParseFloat math_Pow math_Log remote_adress values p) =
  Parse ParseFloat math_Pow math_Log remote_adress values p.
Proof.
  pose proof (Parse_frame ParseFloat math_Pow math_Log remote_adress values p)
    as (Hn & _).
  rewrite (Parse_exec _ _ _ _ _ (Parse _ _ _ _ _ p)), Hn.
  rewrite (Parse_exec _ _ _ _ _ p). apply exec_idem.
Qed.

(** C9.  [Parse] reads the first value of a field only: the report with
    every list of values cut down to its first element leaves the same
    state of the registry. *)
Theorem Parse_first_value_only (ParseFloat : string -> option float)
    (math_Pow : float -> float -> float) (math_Log : float -> float)
    (remote_adress : string) (values : Values) (p : Parser) :
  Parse ParseFloat math_Pow math_Log remote_adress (first_values values) p =
  Parse ParseFloat math_Pow math_Log remote_adress values p.
Proof. unfold Parse. now rewrite Parse_body_first_values. Qed.

(** ** Where the translator departs from its specification *)

(** The station block makes no call when [tempf] has not parsed. *)
Lemma station_without_tempf (p_name remote_adress : string) (values : Values)
    (e : error) :
  calls (station p_name remote_adress values (Some e)) = [].
Proof.
  unfold station, parseString.
  destruct (values !! "stationtype") as [[|first array]|]; reflexivity.
Qed.

(** C1 is what the specification intends and not what the code does.  The
    parser [station_home] first gets [report_slot1], which sets the five
    series of slot 1; it then gets the empty report, without [temp1f],
    [soilhum1] and [humidity1], and the five series are still there. *)
Theorem absent_slot_fields_remove_nothing :
  let reporting :=
    Parse ParseFloat_uint Pow_undefined Log_at_half remote_example
      report_slot1 station_home in
  let silent :=
    Parse ParseFloat_uint Pow_undefined Log_at_half remote_example
      ∅ reporting in
  Has (∅ : Values) "temp1f" = false /\
  Has (∅ : Values) "soilhum1" = false /\
  Has (∅ : Values) "humidity1" = false /\
  series Temperature [remote_example; "home"; "1"] silent = Some 70 /\
  series Battery [remote_example; "home"; "1"] silent = Some 1 /\
  series Humidity [remote_example; "home"; "soil1"] silent = Some 35 /\
  series Battery [remote_example; "home"; "soil1"] silent = Some 1 /\
  series Humidity [remote_example; "home"; "1"] silent = Some 40.
Proof. vm_compute. repeat split; reflexivity. Qed.

(** C2 is what the specification intends and not what the code does.  With
    [stationtype] alone in the report the station-type vector stays
    empty; with a [tempf] that parses beside it the series of the station
    type is set to 1. *)
Theorem stationtype_needs_tempf :
  Has report_station "stationtype" = true /\
  metrics (stationtype
    (Parse ParseFloat_uint Pow_undefined Log_at_half remote_example
       report_station station_home)) = ∅ /\
  series StationType [remote_example; "home"; "AMBWeatherV4.2.9"]
    (Parse ParseFloat_uint Pow_undefined Log_at_half remote_example
       report_station_warm station_home) = Some 1.
Proof. vm_compute. repeat split; reflexivity. Qed.

(** * More of the translator *)

(** ** Whose series a call of [Parse] reaches *)

(** Every gauge that [Parse] gets carries the remote address of the call
    and the name of the parser as its first two label values. *)
Definition scoped (remote_adress p_name : string) (c : call) : Prop :=
  match c with
  | CallWithLabelValues g lvs => exists sfx, lvs = remote_adress :: p_name :: sfx
  | CallSet g lvs value => exists sfx, lvs = remote_adress :: p_name :: sfx
  | CallDeleteLabelValues g lvs => length lvs <> length (declared g)
  end.

Lemma Forall_calls_bind {A B} (P : call -> Prop) (m : Prog A) (f : A -> Prog B) :
  Forall P (calls m) ->
  (forall a, result m = Some a -> Forall P (calls (f a))) ->
  Forall P (calls (m ≫= f)).
Proof.
  intros Hm Hf. destruct (result m) as [a|] eqn:E.
  - destruct (bind_returned m f a E) as [-> _].
    apply Forall_app. auto.
  - destruct (bind_panicked m f E) as [-> _]. exact Hm.
Qed.

Lemma Forall_calls_for_each {A} (P : call -> Prop) (l : list A)
    (body : A -> Prog unit) :
  (forall i, Forall P (calls (body i))) ->
  Forall P (calls (for_each l body)).
Proof.
  intros H. induction l as [|i l IH]; cbn [for_each]; [constructor|].
  apply Forall_calls_bind; auto.
Qed.

Ltac scoped_step :=
  lazymatch goal with
  | |- Forall _ (calls (mret _)) => constructor
  | |- Forall _ (calls (parseValue _ _ _)) =>
      rewrite parseValue_calls; constructor
  | |- Forall _ (calls (parseString _ _)) =>
      rewrite parseString_calls; constructor
  | |- Forall _ (calls (WithLabelValues _ _)) =>
      constructor; [eexists; reflexivity | constructor]
  | |- Forall _ (calls (Gauge_Set _ _)) =>
      constructor; [eexists; reflexivity | constructor]
  | |- Forall _ (calls (DeleteLabelValues _ _)) =>
      constructor; [cbn; discriminate | constructor]
  | |- Forall _ (calls (if _ then _ else _)) => case_match
  | |- Forall _ (calls (match _ with _ => _ end)) => case_match
  | |- Forall _ (calls (WithLabelValues _ _ ≫= _)) =>
      let a := fresh "gauge" in
      let H := fresh "H" in
      apply Forall_calls_bind; [|intros a H; injection H as <-]
  | |- Forall _ (calls (_ ≫= _)) =>
      apply Forall_calls_bind; [|intros ? _]
  end.

Lemma Parse_body_scoped (ParseFloat : string -> option float)
    (math_Pow : float -> float -> float) (math_Log : float -> float)
    (p_name remote_adress : string) (values : Values) :
  Forall (scoped remote_adress p_name)
    (calls (Parse_body ParseFloat math_Pow math_Log p_name remote_adress values)).
Proof.
  unfold Parse_body.
  apply Forall_calls_bind.
  { apply Forall_calls_for_each. intros i. unfold slot, update, updateGauge.
    repeat scoped_step. }
  intros _ _. unfold update, outdoor, station, updateGauge.
  repeat scoped_step.
Qed.

Lemma exec_scoped remote_adress p_name cs : forall p g k,
  registered p -> Forall (scoped remote_adress p_name) cs ->
  (forall sfx, k <> remote_adress :: p_name :: sfx) ->
  series g k (exec cs p).2 = series g k p.
Proof.
  induction cs as [|c cs IH]; intros p g k Hr Hcs Hk; [reflexivity|].
  apply Forall_cons in Hcs as [Hc Hcs]. cbn [exec].
  destruct (step c p) as [p'|] eqn:E; [|reflexivity].
  rewrite IH;
    [|eapply registered_frame; [eapply step_frame, E | exact Hr]
     |exact Hcs|exact Hk].
  rewrite (series_step _ _ _ g k E).
  destruct c as [g' lvs|g' lvs v|g' lvs]; cbn [effect scoped] in *;
    case_decide; try reflexivity.
  - destruct Hc as [sfx ->]. destruct (Hk sfx). intuition congruence.
  - destruct Hc as [sfx ->]. destruct (Hk sfx). intuition congruence.
  - rewrite (Hr g') in *. intuition congruence.
Qed.

(** The reports that a parser gets one after the other, each with the
    remote address it came from. *)
Definition Parse_all (ParseFloat : string -> option float)
    (math_Pow : float -> float -> float) (math_Log : float -> float)
    (reports : list (string * Values)) (p : Parser) : Parser :=
  foldl (fun q report => Parse ParseFloat math_Pow math_Log report.1 report.2 q)
    p reports.

Definition report_outdoor : Values :=
  <["tempf" := ["50"]]> (<["windspeedmph" := ["7"]]>
    (<["humidity" := ["40"]]> ∅)).

Definition remote_other : string := "192.0.2.8".

Lemma registered_station_home : registered station_home.
Proof. intros g. destruct g; reflexivity. Qed.

Section More_of_Parse.

Variable ParseFloat : string -> option float.
Variable math_Pow : float -> float -> float.
Variable math_Log : float -> float.

Lemma Parse_scoped remote_adress values p g k :
  registered p ->
  (forall sfx, k <> remote_adress :: name p :: sfx) ->
  series g k (Parse ParseFloat math_Pow math_Log remote_adress values p) =
  series g k p.
Proof.
  intros Hr Hk. rewrite Parse_exec.
  eapply exec_scoped; [exact Hr | apply Parse_body_scoped | exact Hk].
Qed.

End More_of_Parse.


(** ** What [Parse] reads of a report *)

(** What the closures of [Parse] see of a field: nothing when it is absent,
    an empty list of values (where [array[0]] panics), or the first value
    without its CR and LF bytes. *)
Definition view (values : Values) (field : string) : option (option string) :=
  (fun array => stripped <$> head array) <$> values !! field.

(** The fields that [Parse] asks for. *)
Definition fields_read : list string :=
  Eval vm_compute in
    (flat_map (fun i => ["temp" +:+ Itoa i +:+ "f"; "batt" +:+ Itoa i;
                         "soilhum" +:+ Itoa i; "battsm" +:+ Itoa i;
                         "humidity" +:+ Itoa i]) (seqZ 1 10)
     ++ ["tempinf"; "tempf"; "windspeedmph"; "humidity"]
     ++ map (fun f => f.1.1) (tail plain_fields)
     ++ ["stationtype"])%list.

Definition keep_byte (c : ascii) : bool :=
  negb (Ascii.eqb c LF) && negb (Ascii.eqb c CR).

Lemma ReplaceAll_empty_filter s old :
  list_ascii_of_string (ReplaceAll_empty s old) =
  List.filter (fun c => negb (Ascii.eqb c old)) (list_ascii_of_string s).
Proof.
  induction s as [|c s IH]; [reflexivity|]. cbn.
  destruct (Ascii.eqb c old); cbn; [exact IH | now rewrite IH].
Qed.

Lemma filter_filter {A} (f g : A -> bool) l :
  List.filter f (List.filter g l) = List.filter (fun x => g x && f x) l.
Proof.
  induction l as [|x l IH]; [reflexivity|]. cbn.
  destruct (g x); cbn; [destruct (f x)|]; now rewrite IH.
Qed.

Lemma stripped_filter s :
  list_ascii_of_string (stripped s) =
  List.filter keep_byte (list_ascii_of_string s).
Proof.
  unfold stripped. now rewrite !ReplaceAll_empty_filter, filter_filter.
Qed.

Lemma list_ascii_of_string_inj s t :
  list_ascii_of_string s = list_ascii_of_string t -> s = t.
Proof.
  intros H. rewrite <- (string_of_list_ascii_of_string s),
    <- (string_of_list_ascii_of_string t). now rewrite H.
Qed.

Lemma stripped_idem s : stripped (stripped s) = stripped s.
Proof.
  apply list_ascii_of_string_inj. rewrite !stripped_filter, filter_filter.
  apply List.filter_ext. intros c. now destruct (keep_byte c).
Qed.

Lemma In_fields_read field :
  existsb (String.eqb field) fields_read = true -> In field fields_read.
Proof.
  intros H. apply existsb_exists in H as (f & Hf & Heq).
  apply String.eqb_eq in Heq. now subst f.
Qed.

Section View.

Variable ParseFloat : string -> option float.
Variable math_Pow : float -> float -> float.
Variable math_Log : float -> float.
Variables values values' : Values.

Lemma Has_view field :
  view values field = view values' field ->
  Has values field = Has values' field.
Proof.
  unfold view, Has. intros H.
  destruct (values !! field), (values' !! field); try discriminate H;
    reflexivity.
Qed.

Lemma parseValue_view field :
  view values field = view values' field ->
  parseValue ParseFloat values field = parseValue ParseFloat values' field.
Proof.
  unfold view, parseValue. intros H.
  destruct (values !! field) as [[|a l]|], (values' !! field) as [[|a' l']|];
    try discriminate H; try reflexivity.
  cbn in H. injection H as H. cbn. now rewrite H.
Qed.

Lemma parseString_view field :
  view values field = view values' field ->
  parseString values field = parseString values' field.
Proof.
  unfold view, parseString. intros H.
  destruct (values !! field) as [[|a l]|], (values' !! field) as [[|a' l']|];
    try discriminate H; try reflexivity.
  cbn in H. injection H as H. cbn. now rewrite H.
Qed.

Hypothesis Hview :
  forall field, In field fields_read -> view values field = view values' field.

Lemma update_view g lvs field :
  In field fields_read ->
  update ParseFloat values g lvs field = update ParseFloat values' g lvs field.
Proof. intros H. unfold update. now rewrite (parseValue_view field (Hview _ H)). Qed.

Ltac read := apply In_fields_read; vm_compute; reflexivity.

Ltac view_rewrite :=
  repeat match goal with
  | |- context [Has values ?f] =>
      rewrite (Has_view f (Hview f ltac:(read)))
  | |- context [update ParseFloat values ?g ?l ?f] =>
      rewrite (update_view g l f ltac:(read))
  | |- context [parseValue ParseFloat values ?f] =>
      rewrite (parseValue_view f (Hview f ltac:(read)))
  | |- context [parseString values ?f] =>
      rewrite (parseString_view f (Hview f ltac:(read)))
  end.

Lemma slot_view p_name remote_adress i :
  In i (seqZ 1 10) ->
  slot ParseFloat p_name remote_adress values i =
  slot ParseFloat p_name remote_adress values' i.
Proof.
  intros Hi. rewrite seqZ_1_10 in Hi. cbn [In] in Hi.
  repeat (destruct Hi as [<-|Hi];
    [unfold slot; view_rewrite; reflexivity|]).
  destruct Hi.
Qed.

Lemma for_each_ext_in {A} (l : list A) (body body' : A -> Prog unit) :
  (forall i, In i l -> body i = body' i) -> for_each l body = for_each l body'.
Proof.
  intros H. induction l as [|i l IH]; cbn [for_each]; [reflexivity|].
  rewrite (H i) by now left. apply bind_ext. intros _. apply IH.
  intros j Hj. apply H. now right.
Qed.

Lemma outdoor_view p_name remote_adress :
  outdoor ParseFloat math_Pow math_Log p_name remote_adress values =
  outdoor ParseFloat math_Pow math_Log p_name remote_adress values'.
Proof.
  unfold outdoor. view_rewrite. reflexivity.
Qed.

Lemma station_view p_name remote_adress err :
  station p_name remote_adress values err =
  station p_name remote_adress values' err.
Proof.
  unfold station. view_rewrite. reflexivity.
Qed.

Lemma Parse_body_view p_name remote_adress :
  Parse_body ParseFloat math_Pow math_Log p_name remote_adress values =
  Parse_body ParseFloat math_Pow math_Log p_name remote_adress values'.
Proof.
  unfold Parse_body.
  rewrite (for_each_ext_in _ _ _ (slot_view p_name remote_adress)).
  view_rewrite. rewrite outdoor_view.
  repeat lazymatch goal with
  | |- (_ ≫= _) = (_ ≫= _) => apply bind_ext; intros ?
  end.
  apply station_view.
Qed.

End View.

(** * The HTTP handler (main.go, lines 359-385)

    A request is its [RemoteAddr] and the path of its URL.  The two
    regular expressions of [ServeHTTP] are fixed, so each replacement is a
    function on strings, written as Go's [regexp] documents it: the
    leftmost match first, [*] and [+] greedy, [.] every byte but LF, [\d]
    the ten ASCII digits, [^] and [$] the two ends of the text, and
    [ReplaceAllString] rewriting the matches from left to right without
    overlap.  [url.ParseQuery] belongs to Go's library and is a parameter.
    Of the log only the line of [p.Log] is modelled. *)

Definition isDigit (c : ascii) : bool :=
  ((48 <=? nat_of_ascii c) && (nat_of_ascii c <=? 57))%nat.

(** [\d+$]: one digit or more, up to the end. *)
Fixpoint digits_to_end (s : string) : bool :=
  match s with
  | EmptyString => false
  | String c EmptyString => isDigit c
  | String c r => isDigit c && digits_to_end r
  end.

(** The pattern of line 361 is [^G:\d+$] with the group [G] any number of
    [.].  [port_match s] is the group when [s] matches: the text before a
    colon that digits alone follow, and that has no LF in it.  (A greedy
    group takes the last such colon; there is one at most.) *)
Fixpoint port_match (s : string) : option string :=
  match s with
  | EmptyString => None
  | String c r =>
      match port_match r with
      | Some host => if Ascii.eqb c LF then None else Some (String c host)
      | None =>
          if Ascii.eqb c ":" && digits_to_end r then Some EmptyString else None
      end
  end.

(** [ReplaceAllString(addr, "$1")] for this pattern (lines 361-362): the
    whole of a matching [addr] is replaced by the group. *)
Definition ReplaceAll_port (addr : string) : string :=
  match port_match addr with
  | Some host => host
  | None => addr
  end.

(** [s] without the prefix [old], when it has it. *)
Fixpoint CutPrefix (s old : string) {struct old} : option string :=
  match old, s with
  | EmptyString, _ => Some s
  | String a old, String c r => if Ascii.eqb a c then CutPrefix r old else None
  | String _ _, EmptyString => None
  end.

(** [[^&]*]: what is left of [s] after it. *)
Fixpoint after_value (s : string) : string :=
  match s with
  | EmptyString => EmptyString
  | String c r => if Ascii.eqb c "&" then s else after_value r
  end.

(** [ReplaceAllString] for [&PASSKEY=[^&]*] and ["&PASSKEY=******"],
    from left to right: a match is replaced and the search goes on after
    it, another byte is copied.  Each round takes a byte of [s] or more,
    so the length of [s] is fuel enough. *)
Fixpoint ReplaceAll_PASSKEY_from (fuel : nat) (s : string) : string :=
  match fuel, s with
  | S fuel, String c r =>
      match CutPrefix s "&PASSKEY=" with
      | Some rest =>
          "&PASSKEY=******" +:+ ReplaceAll_PASSKEY_from fuel (after_value rest)
      | None => String c (ReplaceAll_PASSKEY_from fuel r)
      end
  | _, _ => EmptyString
  end.

Definition ReplaceAll_PASSKEY (path : string) : string :=
  ReplaceAll_PASSKEY_from (String.length path) path.

(** [strings.Replace(s, old, "", 1)] for an [old] that is not empty. *)
Fixpoint Replace_first (s old : string) : string :=
  match s with
  | EmptyString => EmptyString
  | String c r =>
      match CutPrefix s old with
      | Some rest => rest
      | None => String c (Replace_first r old)
      end
  end.

Record Request : Type := {
  RemoteAddr : string;
  URL_Path : string
}.

(** What a request leaves: the status of the response, the line that
    [p.Log] has written, if any, and the registry. *)
Record Served : Type := {
  StatusCode : Z;
  logged : option string;
  served : Parser
}.

Definition StatusNoContent : Z := 204.

(** [p.Log] with its format filled in. *)
Definition Log (p : Parser) (line : string) : option string :=
  if be_verbose p then Some line else None.

Section Handler.

Variable ParseFloat : string -> option float.
Variable math_Pow : float -> float -> float.
Variable math_Log : float -> float.

(** [url.ParseQuery]: the values it has read, and its error if the query
    has a pair it could not read. *)
Variable ParseQuery : string -> Values * option string.

Definition ServeHTTP (req : Request) (p : Parser) : Served :=
  let remote_adress := ReplaceAll_port (RemoteAddr req) in
  let path := ReplaceAll_PASSKEY (URL_Path req) in
  let line :=
    Log p ("sample submitted by remote_adress " +:+ remote_adress +:+ ": "
           +:+ path) in
  let queryStr := Replace_first path "/data/report/" in
  let values := (ParseQuery queryStr).1 in
  {| StatusCode := StatusNoContent;
     logged := line;
     served := Parse ParseFloat math_Pow math_Log remote_adress values p |}.

End Handler.

(** A [url.ParseQuery] for the examples: the pairs between the [&], each
    cut at its first [=], without unescaping; a query without [%], [+] and
    [;] is read as Go reads it. *)
Fixpoint Cut (s : string) (sep : ascii) : string * string :=
  match s with
  | EmptyString => (EmptyString, EmptyString)
  | String c r =>
      if Ascii.eqb c sep then (EmptyString, r)
      else let (before, after) := Cut r sep in (String c before, after)
  end.

Definition add_pair (m : Values) (pair : string) : Values :=
  match pair with
  | EmptyString => m
  | _ =>
      let (key, value) := Cut pair "=" in
      <[key := (default [] (m !! key) ++ [value])%list]> m
  end.

Fixpoint pairs (fuel : nat) (query : string) : list string :=
  match fuel, query with
  | S fuel, String _ _ =>
      let (pair, query) := Cut query "&" in pair :: pairs fuel query
  | _, _ => []
  end.

Definition ParseQuery_plain (query : string) : Values * option string :=
  (foldl add_pair ∅ (pairs (String.length query) query), None).

Definition request_example : Request :=
  {| RemoteAddr := "192.0.2.7:51234";
     URL_Path := "/data/report/&PASSKEY=0123456789ABCDEF&tempf=50&humidity=40" |}.

(** ** The two replacements *)

Abbreviation bytes := list_ascii_of_string (only parsing).

Lemma append_cons c (s t : string) : String c s +:+ t = String c (s +:+ t).
Proof. reflexivity. Qed.

Lemma append_nil (s : string) : EmptyString +:+ s = s.
Proof. reflexivity. Qed.

Lemma append_empty (s : string) : s +:+ EmptyString = s.
Proof.
  induction s as [|c s IH]; [reflexivity|]. rewrite append_cons. now rewrite IH.
Qed.

Lemma bytes_append (s t : string) :
  bytes (s +:+ t) = (bytes s ++ bytes t)%list.
Proof.
  induction s as [|c s IH]; [reflexivity|].
  rewrite append_cons. cbn [list_ascii_of_string]. now rewrite IH.
Qed.

Lemma length_append (s t : string) :
  String.length (s +:+ t) = (String.length s + String.length t)%nat.
Proof.
  induction s as [|c s IH]; [reflexivity|].
  rewrite append_cons. cbn [String.length]. now rewrite IH.
Qed.

Lemma isDigit_not_colon c : isDigit c = true -> Ascii.eqb c ":" = false.
Proof.
  intros H. destruct (Ascii.eqb_spec c ":") as [->|]; [discriminate H|reflexivity].
Qed.

Lemma digits_to_end_cons c r :
  digits_to_end (String c r) = true ->
  isDigit c = true /\ (r = EmptyString \/ digits_to_end r = true).
Proof.
  cbn. destruct r as [|c' r]; [auto|].
  intros H. apply andb_true_iff in H as [H1 H2]. auto.
Qed.

Lemma port_match_digits s : digits_to_end s = true -> port_match s = None.
Proof.
  induction s as [|c r IH]; [reflexivity|]. intros H.
  apply digits_to_end_cons in H as [Hc Hr]. cbn [port_match].
  assert (port_match r = None) as -> by (destruct Hr as [->|Hr]; auto).
  now rewrite (isDigit_not_colon c Hc).
Qed.

Lemma port_match_append host port :
  ~ In LF (bytes host) -> digits_to_end port = true ->
  port_match (host +:+ ":" +:+ port) = Some host.
Proof.
  intros Hh Hp. induction host as [|c host IH].
  - change (EmptyString +:+ ":" +:+ port) with (String ":" port).
    cbn [port_match]. now rewrite (port_match_digits port Hp), Hp.
  - rewrite append_cons. cbn [port_match]. rewrite IH.
    + destruct (Ascii.eqb_spec c LF) as [->|]; [|reflexivity].
      destruct Hh. now left.
    + intros H. apply Hh. now right.
Qed.

Lemma port_match_Some s host :
  port_match s = Some host ->
  exists port, s = host +:+ ":" +:+ port /\ ~ In LF (bytes host) /\
               digits_to_end port = true.
Proof.
  revert host. induction s as [|c r IH]; intros host H; [discriminate H|].
  cbn [port_match] in H. destruct (port_match r) as [h|] eqn:E.
  - destruct (Ascii.eqb_spec c LF) as [->|Hc]; [discriminate H|].
    injection H as <-. destruct (IH h eq_refl) as (port & -> & Hh & Hp).
    exists port. split; [reflexivity|]. split; [|exact Hp].
    cbn. intros [->|Hin]; [now destruct Hc | now destruct Hh].
  - destruct (Ascii.eqb_spec c ":") as [->|]; [|discriminate H].
    destruct (digits_to_end r) eqn:Hr; [|discriminate H].
    injection H as <-. exists r. auto.
Qed.

Lemma CutPrefix_Some s old rest :
  CutPrefix s old = Some rest -> s = old +:+ rest.
Proof.
  revert s. induction old as [|a old IH]; intros s H.
  - cbn in H. now injection H as <-.
  - destruct s as [|c r]; [discriminate H|]. cbn [CutPrefix] in H.
    destruct (Ascii.eqb_spec a c) as [->|]; [|discriminate H].
    rewrite append_cons. now rewrite (IH r H).
Qed.

Lemma CutPrefix_append old rest : CutPrefix (old +:+ rest) old = Some rest.
Proof.
  induction old as [|a old IH]; [now destruct rest|].
  rewrite append_cons. cbn [CutPrefix]. now rewrite Ascii.eqb_refl.
Qed.

Lemma CutPrefix_None s old :
  (forall rest, s <> old +:+ rest) -> CutPrefix s old = None.
Proof.
  intros H. destruct (CutPrefix s old) as [rest|] eqn:E; [|reflexivity].
  now destruct (H rest (CutPrefix_Some _ _ _ E)).
Qed.

Lemma after_value_length s : (String.length (after_value s) <= String.length s)%nat.
Proof.
  induction s as [|c r IH]; [reflexivity|]. cbn.
  destruct (Ascii.eqb c "&"); cbn; lia.
Qed.

Lemma after_value_append value s :
  ~ In "&"%char (bytes value) ->
  s = EmptyString \/ (exists t, s = "&" +:+ t) ->
  after_value (value +:+ s) = s.
Proof.
  intros Hv Hs. induction value as [|c value IH].
  - rewrite append_nil. destruct Hs as [->|[t ->]]; reflexivity.
  - rewrite append_cons. cbn [after_value].
    destruct (Ascii.eqb_spec c "&") as [->|].
    + destruct Hv. now left.
    + apply IH. intros H. apply Hv. now right.
Qed.

(** More fuel than the length of the text changes nothing. *)
Lemma ReplaceAll_PASSKEY_fuel n : forall m s,
  (String.length s <= n)%nat -> (String.length s <= m)%nat ->
  ReplaceAll_PASSKEY_from n s = ReplaceAll_PASSKEY_from m s.
Proof.
  induction n as [|n IH]; intros m s Hn Hm.
  - destruct s; [|cbn in Hn; lia]. now destruct m.
  - destruct s as [|c r]; [now destruct m|].
    destruct m as [|m]; [cbn in Hm; lia|].
    cbn [ReplaceAll_PASSKEY_from].
    destruct (CutPrefix (String c r) "&PASSKEY=") as [rest|] eqn:E.
    + apply CutPrefix_Some in E. apply (f_equal String.length) in E.
      rewrite length_append in E. cbn in E, Hn, Hm.
      pose proof (after_value_length rest).
      f_equal. apply IH; lia.
    + cbn in Hn, Hm. f_equal. apply IH; lia.
Qed.

Lemma ReplaceAll_PASSKEY_enough n s :
  (String.length s <= n)%nat ->
  ReplaceAll_PASSKEY_from n s = ReplaceAll_PASSKEY s.
Proof. intros H. now apply ReplaceAll_PASSKEY_fuel. Qed.

Lemma ReplaceAll_PASSKEY_copies pre s :
  ~ In "&"%char (bytes pre) ->
  ReplaceAll_PASSKEY (pre +:+ s) = pre +:+ ReplaceAll_PASSKEY s.
Proof.
  intros Hp. induction pre as [|c pre IH]; [reflexivity|].
  rewrite !append_cons. unfold ReplaceAll_PASSKEY at 1.
  cbn [String.length ReplaceAll_PASSKEY_from CutPrefix].
  destruct (Ascii.eqb_spec "&" c) as [<-|].
  - destruct Hp. now left.
  - f_equal. apply IH. intros H. apply Hp. now right.
Qed.

Lemma ReplaceAll_PASSKEY_hides value s :
  ~ In "&"%char (bytes value) ->
  s = EmptyString \/ (exists t, s = "&" +:+ t) ->
  ReplaceAll_PASSKEY ("&PASSKEY=" +:+ value +:+ s) =
  "&PASSKEY=******" +:+ ReplaceAll_PASSKEY s.
Proof.
  intros Hv Hs. unfold ReplaceAll_PASSKEY at 1.
  change ("&PASSKEY=" +:+ value +:+ s)
    with (String "&" ("PASSKEY=" +:+ value +:+ s)).
  cbn [String.length ReplaceAll_PASSKEY_from].
  change (String "&" ("PASSKEY=" +:+ value +:+ s))
    with ("&PASSKEY=" +:+ (value +:+ s)).
  rewrite CutPrefix_append, (after_value_append value s Hv Hs).
  f_equal. apply ReplaceAll_PASSKEY_enough.
  rewrite !length_append. lia.
Qed.

Lemma ReplaceAll_PASSKEY_other s :
  (forall t, s <> "PASSKEY=" +:+ t) ->
  ReplaceAll_PASSKEY ("&" +:+ s) = "&" +:+ ReplaceAll_PASSKEY s.
Proof.
  intros Hs. unfold ReplaceAll_PASSKEY at 1.
  change ("&" +:+ s) with (String "&" s).
  cbn [String.length ReplaceAll_PASSKEY_from].
  change (CutPrefix (String "&" s) "&PASSKEY=") with (CutPrefix s "PASSKEY=").
  now rewrite (CutPrefix_None s "PASSKEY=" Hs).
Qed.

Lemma Replace_first_prefix old s c :
  Replace_first (String c old +:+ s) (String c old) = s.
Proof.
  change (String c old +:+ s) with (String c (old +:+ s)).
  cbn [Replace_first].
  change (String c (old +:+ s)) with (String c old +:+ s).
  now rewrite CutPrefix_append.
Qed.

(** The example [url.ParseQuery] builds no field without a value. *)
Lemma add_pair_well_formed m pair :
  well_formed m -> well_formed (add_pair m pair).
Proof.
  intros Hm. unfold add_pair. destruct pair as [|c r]; [exact Hm|].
  destruct (Cut (String c r) "=") as [key value].
  apply well_formed_insert; [|exact Hm].
  destruct (default [] (m !! key)); discriminate.
Qed.

Lemma ParseQuery_plain_well_formed query :
  well_formed (ParseQuery_plain query).1.
Proof.
  unfold ParseQuery_plain. cbn [fst].
  generalize (pairs (String.length query) query). intros l.
  assert (H : well_formed (∅ : Values)) by apply well_formed_empty.
  revert H. generalize (∅ : Values).
  induction l as [|pair l IH]; intros m Hm; [exact Hm|].
  cbn [foldl]. apply IH. now apply add_pair_well_formed.
Qed.

(** * Further properties of the translator *)

(** X1.  A call of [Parse] reaches only series whose first two label
    values are the remote address of the call and the name of the parser:
    on a registered parser every other series, of whatever vector, has
    after the call the value it had before (or is still absent), for every
    report, also one on which the body panics. *)
Theorem Parse_leaves_other_stations_alone (ParseFloat : string -> option float)
    (math_Pow : float -> float -> float) (math_Log : float -> float)
    (remote_adress : string) (values : Values) (p : Parser)
    (g : family) (k : list string) :
  registered p ->
  (forall sfx, k <> remote_adress :: name p :: sfx) ->
  series g k (Parse ParseFloat math_Pow math_Log remote_adress values p) =
  series g k p.
Proof. apply Parse_scoped. Qed.

Lemma Parse_leaves_other_stations_alone_witness :
  series Temperature [remote_other; "home"; "outdoor"]
    (Parse ParseFloat_uint Pow_undefined Log_at_half remote_example
       report_outdoor station_home) =
  series Temperature [remote_other; "home"; "outdoor"] station_home.
Proof.
  refine (Parse_leaves_other_stations_alone ParseFloat_uint Pow_undefined
            Log_at_half remote_example report_outdoor station_home
            Temperature [remote_other; "home"; "outdoor"] _ _).
  - intros g. destruct g; reflexivity.
  - intros sfx H. discriminate H.
Defined.

(** X2.  Reports from two different remote addresses do not interfere: on
    a registered parser the two calls of [Parse] give the same registry in
    either order, whatever the two reports are. *)
Theorem Parse_commutes_across_remotes (ParseFloat : string -> option float)
    (math_Pow : float -> float -> float) (math_Log : float -> float)
    (remote1 remote2 : string) (values1 values2 : Values) (p : Parser) :
  registered p -> remote1 <> remote2 ->
  Parse ParseFloat math_Pow math_Log remote1 values1
    (Parse ParseFloat math_Pow math_Log remote2 values2 p) =
  Parse ParseFloat math_Pow math_Log remote2 values2
    (Parse ParseFloat math_Pow math_Log remote1 values1 p).
Proof.
  intros Hr Hne.
  set (P1 := Parse ParseFloat math_Pow math_Log remote1 values1).
  set (P2 := Parse ParseFloat math_Pow math_Log remote2 values2).
  assert (F1 : forall q, same_frame q (P1 q)) by (intros q; apply Parse_frame).
  assert (F2 : forall q, same_frame q (P2 q)) by (intros q; apply Parse_frame).
  assert (R1 : registered (P1 p)) by now apply Parse_registered.
  assert (R2 : registered (P2 p)) by now apply Parse_registered.
  assert (N1 : name (P1 p) = name p) by apply (F1 p).
  assert (N2 : name (P2 p) = name p) by apply (F2 p).
  (* on parsers with the frame of [p], each call acts on a series in one way *)
  assert (S1 : forall g k, exists s, forall q, same_frame p q ->
            series g k (P1 q) = interp s (series g k q)).
  { intros g k.
    destruct (exec_shape
                (calls (Parse_body ParseFloat math_Pow math_Log (name p)
                          remote1 values1)) p g k) as [s Hs].
    exists s. intros q Hq. subst P1. cbv beta. rewrite Parse_exec.
    destruct Hq as (Hn & Hq). rewrite Hn. apply Hs. split; assumption. }
  assert (S2 : forall g k, exists s, forall q, same_frame p q ->
            series g k (P2 q) = interp s (series g k q)).
  { intros g k.
    destruct (exec_shape
                (calls (Parse_body ParseFloat math_Pow math_Log (name p)
                          remote2 values2)) p g k) as [s Hs].
    exists s. intros q Hq. subst P2. cbv beta. rewrite Parse_exec.
    destruct Hq as (Hn & Hq). rewrite Hn. apply Hs. split; assumption. }
  apply same_frame_series_eq.
  - exact (same_frame_trans _ _ _
             (same_frame_sym _ _ (same_frame_trans _ _ _ (F1 p) (F2 (P1 p))))
             (same_frame_trans _ _ _ (F2 p) (F1 (P2 p)))).
  - intros g k.
    assert (Hk : (exists sfx, k = remote1 :: name p :: sfx) \/
                 forall sfx, k <> remote1 :: name p :: sfx).
    { destruct k as [|a [|b sfx]]; [now right | now right |].
      destruct (decide (a = remote1)) as [->|Ha];
        [|right; intros sfx' H; injection H as H _; contradiction].
      destruct (decide (b = name p)) as [->|Hb];
        [|right; intros sfx' H; injection H as H _; contradiction].
      left. now exists sfx. }
    destruct Hk as [[sfx ->]|H1].
    + (* a series of the first address: the second call passes it by *)
      assert (H2 : forall q, registered q -> name q = name p ->
                series g (remote1 :: name p :: sfx) (P2 q) =
                series g (remote1 :: name p :: sfx) q).
      { intros q Hq Hn. apply Parse_scoped; [exact Hq|].
        intros sfx' H. injection H as H _. contradiction. }
      rewrite (H2 (P1 p) R1 N1).
      destruct (S1 g (remote1 :: name p :: sfx)) as [s Hs].
      rewrite (Hs (P2 p) (F2 p)), (Hs p (same_frame_refl p)).
      now rewrite (H2 p Hr eq_refl).
    + assert (H2 : forall q, registered q -> name q = name p ->
                series g k (P1 q) = series g k q).
      { intros q Hq Hn. apply Parse_scoped; [exact Hq|].
        intros sfx' H. apply (H1 sfx'). now rewrite <- Hn. }
      rewrite (H2 (P2 p) R2 N2).
      destruct (S2 g k) as [s Hs].
      rewrite (Hs (P1 p) (F1 p)), (Hs p (same_frame_refl p)).
      now rewrite (H2 p Hr eq_refl).
Qed.

Lemma Parse_commutes_across_remotes_witness :
  Parse ParseFloat_uint Pow_undefined Log_at_half remote_example report_outdoor
    (Parse ParseFloat_uint Pow_undefined Log_at_half remote_other report_cold
       station_home) =
  Parse ParseFloat_uint Pow_undefined Log_at_half remote_other report_cold
    (Parse ParseFloat_uint Pow_undefined Log_at_half remote_example
       report_outdoor station_home).
Proof.
  refine (Parse_commutes_across_remotes ParseFloat_uint Pow_undefined
            Log_at_half remote_example remote_other report_outdoor report_cold
            station_home _ _).
  - intros g. destruct g; reflexivity.
  - unfold remote_example, remote_other. discriminate.
Defined.

(** X3.  A registered parser never loses a series: whatever reports it is
    given, from whatever addresses and in whatever order, a series that the
    registry has is still there after all of them.  (The calls of
    [DeleteLabelValues] in the loop give two label values to vectors of
    three labels.) *)
Theorem Parse_all_never_removes (ParseFloat : string -> option float)
    (math_Pow : float -> float -> float) (math_Log : float -> float)
    (reports : list (string * Values)) (p : Parser)
    (g : family) (k : list string) :
  registered p -> is_Some (series g k p) ->
  is_Some (series g k (Parse_all ParseFloat math_Pow math_Log reports p)).
Proof.
  revert p. induction reports as [|[r v] reports IH]; intros p Hr Hs;
    cbn [Parse_all foldl fst snd]; [exact Hs|].
  apply IH; [now apply Parse_registered|].
  rewrite Parse_exec.
  apply exec_removes_nothing;
    [exact Hr | apply Parse_body_removes_nothing | exact Hs].
Qed.

Lemma Parse_all_never_removes_witness :
  is_Some (series Temperature [remote_example; "home"; "1"]
    (Parse_all ParseFloat_uint Pow_undefined Log_at_half
       [(remote_example, ∅); (remote_example, report_cold)]
       (Parse ParseFloat_uint Pow_undefined Log_at_half remote_example
          report_slot1 station_home))).
Proof.
  refine (Parse_all_never_removes ParseFloat_uint Pow_undefined Log_at_half
            [(remote_example, ∅); (remote_example, report_cold)]
            (Parse ParseFloat_uint Pow_undefined Log_at_half remote_example
               report_slot1 station_home)
            Temperature [remote_example; "home"; "1"] _ _).
  - apply Parse_registered. intros g. destruct g; reflexivity.
  - exists 70. vm_compute. reflexivity.
Defined.

(** X5.  The station type.  On a registered parser whose name is valid
    UTF-8, for a remote address that is valid UTF-8 and a report whose
    fields all have a value: when [tempf] parses and [stationtype] is
    there, [Parse] sets to 1 the series of the station-type vector whose
    third label value is the first value of [stationtype] without its CR
    and LF bytes, provided that this label is valid UTF-8; whether it is
    or not, every other series of the vector is left as it was (so the
    series of a station type reported earlier stays at 1).  When [tempf]
    is absent or no number, or [stationtype] is absent, the whole vector is
    left as it was. *)
Theorem Parse_station_type (ParseFloat : string -> option float)
    (math_Pow : float -> float -> float) (math_Log : float -> float)
    (remote_adress : string) (values : Values) (p : Parser) :
  registered p -> well_formed values ->
  utf8.ValidString (name p) = true ->
  utf8.ValidString remote_adress = true ->
  let p' := Parse ParseFloat math_Pow math_Log remote_adress values p in
  (forall first rest, values !! "stationtype" = Some (first :: rest) ->
     ((exists T, parses ParseFloat values "tempf" T) ->
      utf8.ValidString (stripped first) = true ->
      series StationType [remote_adress; name p; stripped first] p' = Some 1) /\
     (forall k, k <> [remote_adress; name p; stripped first] ->
        series StationType k p' = series StationType k p)) /\
  (fails ParseFloat values "tempf" \/ values !! "stationtype" = None ->
   forall k, series StationType k p' = series StationType k p).
Proof.
  intros Hr Hwf Hname Hremote p'. split.
  - intros first rest Hs. split.
    + intros [T HT] Hfirst.
      apply (Parse_acts ParseFloat math_Pow math_Log remote_adress values p
               StationType _ (fun _ => Some 1) (fun _ => True) Hr).
      now apply (acts_Parse_body_station_set ParseFloat math_Pow math_Log
                   values Hwf (name p) remote_adress Hname Hremote T first
                   rest).
    + intros k Hk.
      apply (Parse_sets ParseFloat math_Pow math_Log remote_adress values p
               StationType k (fun x => x) Hr).
      now apply (leaves_Parse_body_station_other ParseFloat math_Pow math_Log
                   values Hwf (name p) remote_adress Hname Hremote first rest).
  - intros H k.
    apply (Parse_acts ParseFloat math_Pow math_Log remote_adress values p
             StationType k (fun x => x) (fun _ => True) Hr).
    now apply keeps_Parse_body_station.
Qed.

Lemma Parse_station_type_witness :
  series StationType [remote_example; "home"; "AMBWeatherV4.2.9"]
    (Parse ParseFloat_uint Pow_undefined Log_at_half remote_example
       report_station_warm station_home) = Some 1.
Proof.
  refine (proj1 (proj1 (Parse_station_type ParseFloat_uint Pow_undefined
                          Log_at_half remote_example report_station_warm
                          station_home _ _ _ _)
                   "AMBWeatherV4.2.9" [] _) _ _).
  - intros g. destruct g; reflexivity.
  - well_formed_report.
  - reflexivity.
  - reflexivity.
  - vm_compute. reflexivity.
  - exists 85. vm_compute. reflexivity.
  - reflexivity.
Defined.

(** X6.  The readings of the outdoor block.  On a registered parser whose
    name is valid UTF-8, for a remote address that is valid UTF-8 and a
    report whose fields all have a value, when [tempf] parses to [T]:
    [windspeedmph], if it parses, is written to the sustained wind
    speed; [humidity], if it parses to [RH], is written to the outdoor
    humidity, and the dew-point series is set to
    [calculateDewPoint T RH].  A field of the two that is absent or no
    number leaves its series as they were: unlike the fields outside the
    block, it does not create them. *)
Theorem Parse_outdoor_readings (ParseFloat : string -> option float)
    (math_Pow : float -> float -> float) (math_Log : float -> float)
    (remote_adress : string) (values : Values) (p : Parser) (T : float) :
  registered p -> well_formed values ->
  utf8.ValidString (name p) = true ->
  utf8.ValidString remote_adress = true ->
  parses ParseFloat values "tempf" T ->
  let p' := Parse ParseFloat math_Pow math_Log remote_adress values p in
  let sustained := series WindSpeedMph [remote_adress; name p; "sustained"] in
  let outdoor_humidity := series Humidity [remote_adress; name p; "outdoor"] in
  let dewpoint := series Temperature [remote_adress; name p; "dewpoint"] in
  (forall W, parses ParseFloat values "windspeedmph" W ->
     sustained p' = Some W) /\
  (fails ParseFloat values "windspeedmph" -> sustained p' = sustained p) /\
  (forall RH, parses ParseFloat values "humidity" RH ->
     outdoor_humidity p' = Some RH /\
     dewpoint p' = Some (calculateDewPoint math_Log T RH)) /\
  (fails ParseFloat values "humidity" ->
     outdoor_humidity p' = outdoor_humidity p /\ dewpoint p' = dewpoint p).
Proof.
  intros Hr Hwf Hname Hremote HT p' sustained outdoor_humidity dewpoint.
  pose proof (Parse_sets ParseFloat math_Pow math_Log remote_adress values p
                _ _ _ Hr
                (sets_Parse_body_wind ParseFloat math_Pow math_Log values Hwf
                   (name p) remote_adress Hname Hremote T HT)) as Hw.
  pose proof (Parse_sets ParseFloat math_Pow math_Log remote_adress values p
                _ _ _ Hr
                (sets_Parse_body_humidity ParseFloat math_Pow math_Log values
                   Hwf (name p) remote_adress Hname Hremote T HT)) as Hh.
  pose proof (Parse_sets ParseFloat math_Pow math_Log remote_adress values p
                _ _ _ Hr
                (sets_Parse_body_dewpoint ParseFloat math_Pow math_Log values
                   Hwf (name p) remote_adress Hname Hremote T HT)) as Hd.
  fold p' in Hw, Hh, Hd.
  unfold sustained, outdoor_humidity, dewpoint. rewrite Hw, Hh, Hd.
  split; [|split; [|split]].
  - intros W HW. now rewrite (parses_reading _ _ _ _ HW).
  - intros HW. now rewrite (fails_reading _ _ _ HW).
  - intros RH HRH. now rewrite (parses_reading _ _ _ _ HRH).
  - intros HRH. now rewrite (fails_reading _ _ _ HRH).
Qed.

Lemma Parse_outdoor_readings_witness :
  series WindSpeedMph [remote_example; "home"; "sustained"]
    (Parse ParseFloat_uint Pow_undefined Log_at_half remote_example
       report_outdoor station_home) = Some 7.
Proof.
  refine (proj1 (Parse_outdoor_readings ParseFloat_uint Pow_undefined
                   Log_at_half remote_example report_outdoor station_home 50
                   _ _ _ _ _) 7 _).
  - intros g. destruct g; reflexivity.
  - well_formed_report.
  - reflexivity.
  - reflexivity.
  - vm_compute. reflexivity.
  - vm_compute. reflexivity.
Defined.

(** X7.  When the feels-like temperature is the temperature itself.  On a
    registered parser whose name is valid UTF-8, for a remote address that
    is valid UTF-8 and a report whose fields all have a value, when
    [tempf] parses to [T], the feels-like series is set to [T], whatever
    [windspeedmph] and [humidity] are, as soon as [T] is neither at most 40
    nor at least 80 (so between the two, and also when [T] is NaN); and it
    is set to [T] as well when [T <= 40] and [windspeedmph] parses to a
    speed below 5. *)
Theorem Parse_feels_like_is_temperature (ParseFloat : string -> option float)
    (math_Pow : float -> float -> float) (math_Log : float -> float)
    (remote_adress : string) (values : Values) (p : Parser) (T : float) :
  registered p -> well_formed values ->
  utf8.ValidString (name p) = true ->
  utf8.ValidString remote_adress = true ->
  parses ParseFloat values "tempf" T ->
  let p' := Parse ParseFloat math_Pow math_Log remote_adress values p in
  let feelsLike := series Temperature [remote_adress; name p; "feelsLike"] p' in
  ((T <=? 40) = false -> (80 <=? T) = false -> feelsLike = Some T) /\
  (forall W, parses ParseFloat values "windspeedmph" W ->
     (T <=? 40) = true -> (W <? 5) = true -> feelsLike = Some T).
Proof.
  intros Hr Hwf Hname Hremote HT p' feelsLike.
  pose proof (Parse_sets ParseFloat math_Pow math_Log remote_adress values p
                _ _ _ Hr
                (sets_Parse_body_feelsLike ParseFloat math_Pow math_Log values
                   Hwf (name p) remote_adress Hname Hremote T HT)) as Hfl.
  fold p' in Hfl. fold feelsLike in Hfl. rewrite Hfl. unfold feelsLike_of.
  split.
  - intros -> ->.
    now destruct (reading ParseFloat values "windspeedmph"),
      (reading ParseFloat values "humidity").
  - intros W HW Hle Hlt. rewrite (parses_reading _ _ _ _ HW), Hle.
    rewrite (float_lt_not_ge T 80 (float_le_40_lt_80 T Hle)).
    unfold calculateWindChill. rewrite Hlt, orb_true_r.
    now destruct (reading ParseFloat values "humidity").
Qed.

Lemma Parse_feels_like_is_temperature_witness :
  series Temperature [remote_example; "home"; "feelsLike"]
    (Parse ParseFloat_uint Pow_undefined Log_at_half remote_example
       report_outdoor station_home) = Some 50.
Proof.
  refine (proj1 (Parse_feels_like_is_temperature ParseFloat_uint Pow_undefined
                   Log_at_half remote_example report_outdoor station_home 50
                   _ _ _ _ _) _ _).
  - intros g. destruct g; reflexivity.
  - well_formed_report.
  - reflexivity.
  - reflexivity.
  - vm_compute. reflexivity.
  - vm_compute. reflexivity.
  - vm_compute. reflexivity.
Defined.

Lemma not_In_fields_read field :
  existsb (String.eqb field) fields_read = false -> ~ In field fields_read.
Proof.
  intros H Hin. assert (existsb (String.eqb field) fields_read = true).
  { apply existsb_exists. exists field. split; [exact Hin|].
    apply String.eqb_refl. }
  congruence.
Qed.

Definition report_with_passkey : Values :=
  <["PASSKEY" := ["0123456789ABCDEF"]]> report_outdoor.

(** X8.  [Parse] ignores every field it does not ask for (the pass key, the
    date, the fields of sensors it does not know): with such a field added
    to the report, or its values replaced, or with the field taken out,
    the call leaves the same registry. *)
Theorem Parse_ignores_other_fields (ParseFloat : string -> option float)
    (math_Pow : float -> float -> float) (math_Log : float -> float)
    (remote_adress : string) (values : Values) (p : Parser)
    (field : string) (array : list string) :
  ~ In field fields_read ->
  Parse ParseFloat math_Pow math_Log remote_adress (<[field := array]> values) p =
  Parse ParseFloat math_Pow math_Log remote_adress values p /\
  Parse ParseFloat math_Pow math_Log remote_adress (delete field values) p =
  Parse ParseFloat math_Pow math_Log remote_adress values p.
Proof.
  intros Hf. unfold Parse. split; f_equal; f_equal;
    apply Parse_body_view; intros field' Hin; unfold view;
    assert (field <> field') by (intros ->; contradiction).
  - now rewrite lookup_insert_ne.
  - now rewrite lookup_delete_ne.
Qed.

Lemma Parse_ignores_other_fields_witness :
  Parse ParseFloat_uint Pow_undefined Log_at_half remote_example
    report_with_passkey station_home =
  Parse ParseFloat_uint Pow_undefined Log_at_half remote_example
    report_outdoor station_home.
Proof.
  refine (proj1 (Parse_ignores_other_fields ParseFloat_uint Pow_undefined
                   Log_at_half remote_example report_outdoor station_home
                   "PASSKEY" ["0123456789ABCDEF"] _)).
  apply not_In_fields_read. vm_compute. reflexivity.
Defined.

(** X9.  CR and LF bytes in the values of a report do not count: the
    report with these bytes taken out of every value leaves the same
    registry. *)
Theorem Parse_ignores_line_breaks (ParseFloat : string -> option float)
    (math_Pow : float -> float -> float) (math_Log : float -> float)
    (remote_adress : string) (values : Values) (p : Parser) :
  Parse ParseFloat math_Pow math_Log remote_adress
    (fmap (M := gmap string) (fmap (M := list) stripped) values) p =
  Parse ParseFloat math_Pow math_Log remote_adress values p.
Proof.
  unfold Parse. f_equal. f_equal. apply Parse_body_view.
  intros field _. unfold view. rewrite lookup_fmap.
  destruct (values !! field) as [[|first rest]|]; cbn; try reflexivity.
  now rewrite stripped_idem.
Qed.

(** X10.  The two closures of [Parse] on a field that is there: both take
    its first value and drop the CR and LF bytes from it, all of them
    and nothing else; [parseString] returns this text without an error,
    [parseValue] returns the number that [strconv.ParseFloat] reads in this
    text, or 0 and an error when it reads none. *)
Theorem closures_strip_line_breaks (ParseFloat : string -> option float)
    (values : Values) (field first : string) (rest : list string) :
  values !! field = Some (first :: rest) ->
  exists text,
    list_ascii_of_string text =
      List.filter keep_byte (list_ascii_of_string first) /\
    ~ In LF (list_ascii_of_string text) /\
    ~ In CR (list_ascii_of_string text) /\
    result (parseString values field) = Some (text, None) /\
    result (parseValue ParseFloat values field) =
      Some (match ParseFloat text with
            | Some value => (value, None)
            | None => (0, Some (failed_to_parse_value text))
            end).
Proof.
  intros H. exists (stripped first).
  split; [apply stripped_filter|].
  split; [|split; [|split]].
  - rewrite stripped_filter. intros Hin. apply List.filter_In in Hin as [_ Hk].
    discriminate Hk.
  - rewrite stripped_filter. intros Hin. apply List.filter_In in Hin as [_ Hk].
    discriminate Hk.
  - unfold parseString. now rewrite H.
  - unfold parseValue. rewrite H. cbn.
    now destruct (ParseFloat (stripped first)).
Qed.

Lemma closures_strip_line_breaks_witness :
  exists text,
    list_ascii_of_string text =
      List.filter keep_byte (list_ascii_of_string "30") /\
    ~ In LF (list_ascii_of_string text) /\
    ~ In CR (list_ascii_of_string text) /\
    result (parseString report_cold "tempf") = Some (text, None) /\
    result (parseValue ParseFloat_uint report_cold "tempf") =
      Some (match ParseFloat_uint text with
            | Some value => (value, None)
            | None => (0, Some (failed_to_parse_value text))
            end).
Proof.
  refine (closures_strip_line_breaks ParseFloat_uint report_cold "tempf" "30"
            [] _).
  vm_compute. reflexivity.
Defined.

(** * Properties of the HTTP handler *)

(** X11.  The remote address of a report.  [ServeHTTP] takes as remote
    address the [RemoteAddr] of the request without its port: when
    [RemoteAddr] is a host without LF, a colon and a port of one digit or
    more, the host (for an IPv6 address the brackets stay); in every other
    case [RemoteAddr] as it is. *)
Theorem remote_adress_is_host (addr : string) :
  (forall host port,
     addr = host +:+ ":" +:+ port ->
     ~ In LF (bytes host) -> digits_to_end port = true ->
     ReplaceAll_port addr = host) /\
  ((forall host port,
      ~ In LF (bytes host) -> digits_to_end port = true ->
      addr <> host +:+ ":" +:+ port) ->
   ReplaceAll_port addr = addr).
Proof.
  unfold ReplaceAll_port. split.
  - intros host port -> Hh Hp. now rewrite (port_match_append host port Hh Hp).
  - intros H. destruct (port_match addr) as [host|] eqn:E; [|reflexivity].
    destruct (port_match_Some addr host E) as (port & Ha & Hh & Hp).
    now destruct (H host port Hh Hp).
Qed.

Lemma remote_adress_is_host_witness :
  ReplaceAll_port "[2001:db8::7]:51234" = "[2001:db8::7]".
Proof.
  refine (proj1 (remote_adress_is_host "[2001:db8::7]:51234")
            "[2001:db8::7]" "51234" _ _ _).
  - reflexivity.
  - vm_compute. intuition discriminate.
  - reflexivity.
Defined.

(** X12.  The pass key in the path.  The replacement of line 366 works
    on the path piece by piece: text without [&] is copied; a piece
    [&PASSKEY=value], up to the next [&] or the end, becomes
    [&PASSKEY=******]; an [&] that [PASSKEY=] does not follow is copied.
    So a pass key that comes first in the query, without an [&] before
    it, is not hidden. *)
Theorem PASSKEY_is_hidden_piece_by_piece :
  (forall pre s,
     ~ In "&"%char (bytes pre) ->
     ReplaceAll_PASSKEY (pre +:+ s) = pre +:+ ReplaceAll_PASSKEY s) /\
  (forall value s,
     ~ In "&"%char (bytes value) ->
     s = EmptyString \/ (exists t, s = "&" +:+ t) ->
     ReplaceAll_PASSKEY ("&PASSKEY=" +:+ value +:+ s) =
     "&PASSKEY=******" +:+ ReplaceAll_PASSKEY s) /\
  (forall s,
     (forall t, s <> "PASSKEY=" +:+ t) ->
     ReplaceAll_PASSKEY ("&" +:+ s) = "&" +:+ ReplaceAll_PASSKEY s) /\
  ReplaceAll_PASSKEY EmptyString = EmptyString /\
  (forall value,
     ~ In "&"%char (bytes value) ->
     ReplaceAll_PASSKEY ("/data/report/PASSKEY=" +:+ value) =
     "/data/report/PASSKEY=" +:+ value).
Proof.
  split; [exact ReplaceAll_PASSKEY_copies|].
  split; [exact ReplaceAll_PASSKEY_hides|].
  split; [exact ReplaceAll_PASSKEY_other|].
  split; [reflexivity|].
  intros value Hv.
  pose proof (ReplaceAll_PASSKEY_copies ("/data/report/PASSKEY=" +:+ value)
                EmptyString) as H.
  change (ReplaceAll_PASSKEY EmptyString) with EmptyString in H.
  rewrite !append_empty in H. apply H.
  rewrite bytes_append. intros Hin. apply in_app_or in Hin as [Hin|Hin].
  - vm_compute in Hin. intuition discriminate.
  - contradiction.
Qed.

Lemma PASSKEY_is_hidden_piece_by_piece_witness :
  ReplaceAll_PASSKEY ("&PASSKEY=" +:+ "0123456789ABCDEF" +:+ "&tempf=50") =
  "&PASSKEY=******" +:+ ReplaceAll_PASSKEY "&tempf=50".
Proof.
  refine (proj1 (proj2 PASSKEY_is_hidden_piece_by_piece)
            "0123456789ABCDEF" "&tempf=50" _ _).
  - vm_compute. intuition discriminate.
  - right. exists "tempf=50". reflexivity.
Defined.

(** X13.  A report, from the request to the registry.  For a request
    from [host:port] whose path is [/data/report/] and a query,
    [ServeHTTP] answers 204, logs (when the parser is verbose) the host and
    the path with its pass key hidden, and hands to [Parse] the host as
    remote address and the values that [url.ParseQuery] reads in the query
    with its pass key hidden.  The answer is 204 whatever the query is. *)
Theorem ServeHTTP_report (ParseFloat : string -> option float)
    (math_Pow : float -> float -> float) (math_Log : float -> float)
    (ParseQuery : string -> Values * option string)
    (host port query : string) (p : Parser) :
  ~ In LF (bytes host) -> digits_to_end port = true ->
  ServeHTTP ParseFloat math_Pow math_Log ParseQuery
    {| RemoteAddr := host +:+ ":" +:+ port;
       URL_Path := "/data/report/" +:+ query |} p =
  {| StatusCode := 204;
     logged :=
       if be_verbose p
       then Some ("sample submitted by remote_adress " +:+ host +:+ ": "
                  +:+ "/data/report/" +:+ ReplaceAll_PASSKEY query)
       else None;
     served :=
       Parse ParseFloat math_Pow math_Log host
         (ParseQuery (ReplaceAll_PASSKEY query)).1 p |}.
Proof.
  intros Hh Hp. unfold ServeHTTP, Log. cbn [RemoteAddr URL_Path].
  unfold ReplaceAll_port. rewrite (port_match_append host port Hh Hp).
  rewrite (ReplaceAll_PASSKEY_copies "/data/report/" query)
    by (vm_compute; intuition discriminate).
  change ("/data/report/" +:+ ReplaceAll_PASSKEY query)
    with (String "/" "data/report/" +:+ ReplaceAll_PASSKEY query).
  rewrite Replace_first_prefix. reflexivity.
Qed.

Lemma ServeHTTP_report_witness :
  ServeHTTP ParseFloat_uint Pow_undefined Log_at_half ParseQuery_plain
    {| RemoteAddr := "192.0.2.7" +:+ ":" +:+ "51234";
       URL_Path := "/data/report/" +:+ "&PASSKEY=0123456789ABCDEF&tempf=50" |}
    station_home =
  {| StatusCode := 204;
     logged :=
       if be_verbose station_home
       then Some ("sample submitted by remote_adress " +:+ "192.0.2.7" +:+ ": "
                  +:+ "/data/report/"
                  +:+ ReplaceAll_PASSKEY "&PASSKEY=0123456789ABCDEF&tempf=50")
       else None;
     served :=
       Parse ParseFloat_uint Pow_undefined Log_at_half "192.0.2.7"
         (ParseQuery_plain
            (ReplaceAll_PASSKEY "&PASSKEY=0123456789ABCDEF&tempf=50")).1
         station_home |}.
Proof.
  refine (ServeHTTP_report ParseFloat_uint Pow_undefined Log_at_half
            ParseQuery_plain "192.0.2.7" "51234"
            "&PASSKEY=0123456789ABCDEF&tempf=50" station_home _ _).
  - vm_compute. intuition discriminate.
  - reflexivity.
Defined.

(** X14.  Through [ServeHTTP] the deferred [recover] of [Parse] is at work
    for one cause only, a label value that is not valid UTF-8.
    [url.ParseQuery] gives every field it builds one value or more, so
    no [array[0]] panics; on a registered parser the body of [Parse], run
    with the remote address and the values that [ServeHTTP] hands over,
    returns when the name of the parser, the remote address and the
    station type (where the station block makes a label of it: when
    [tempf] parses) are valid UTF-8, and panics when one of them is not.
    The parser is registered afterwards, and the answer is 204. *)
Theorem ServeHTTP_panics_on_invalid_labels_only
    (ParseFloat : string -> option float)
    (math_Pow : float -> float -> float) (math_Log : float -> float)
    (ParseQuery : string -> Values * option string)
    (req : Request) (p : Parser) :
  registered p ->
  (forall query, well_formed (ParseQuery query).1) ->
  let remote_adress := ReplaceAll_port (RemoteAddr req) in
  let queryStr :=
    Replace_first (ReplaceAll_PASSKEY (URL_Path req)) "/data/report/" in
  let values := (ParseQuery queryStr).1 in
  let after := ServeHTTP ParseFloat math_Pow math_Log ParseQuery req p in
  let outcome :=
    (run (Parse_body ParseFloat math_Pow math_Log (name p) remote_adress values)
       p).1 in
  served after = Parse ParseFloat math_Pow math_Log remote_adress values p /\
  (utf8.ValidString (name p) = true ->
   utf8.ValidString remote_adress = true ->
   ((exists T, parses ParseFloat values "tempf" T) ->
    forall first rest, values !! "stationtype" = Some (first :: rest) ->
      utf8.ValidString (stripped first) = true) ->
   outcome = Returned) /\
  (utf8.ValidString (name p) = false \/
   utf8.ValidString remote_adress = false \/
   (exists T first rest,
      parses ParseFloat values "tempf" T /\
      values !! "stationtype" = Some (first :: rest) /\
      utf8.ValidString (stripped first) = false) ->
   outcome = Panicked) /\
  registered (served after) /\
  StatusCode after = StatusNoContent.
Proof.
  intros Hr Hq remote_adress queryStr values after outcome.
  split; [reflexivity|]. split; [|split; [|split; [|reflexivity]]].
  - intros Hname Hremote Hst.
    apply (Parse_acts ParseFloat math_Pow math_Log remote_adress values p
             StationType [] (fun x => x) (fun _ => True) Hr).
    exact (acts_Parse_body_returns ParseFloat math_Pow math_Log values
             (Hq queryStr) (name p) remote_adress Hname Hremote Hst).
  - intros H.
    destruct (utf8.ValidString (name p)) eqn:Hname;
      [|now apply run_invalid_label; [|left]].
    destruct (utf8.ValidString remote_adress) eqn:Hremote;
      [|now apply run_invalid_label; [|right]].
    destruct H as [H|[H|(T & first & rest & HT & Hs & Hbad)]];
      [discriminate H | discriminate H |].
    apply run_aborts; [exact Hr|].
    now apply (aborts_Parse_body ParseFloat math_Pow math_Log values
                 (Hq queryStr) (name p) remote_adress Hname Hremote T first
                 rest).
  - now apply Parse_registered.
Qed.

Lemma ServeHTTP_panics_on_invalid_labels_only_witness :
  (run (Parse_body ParseFloat_uint Pow_undefined Log_at_half "home"
          (ReplaceAll_port (RemoteAddr request_example))
          (ParseQuery_plain
             (Replace_first (ReplaceAll_PASSKEY (URL_Path request_example))
                "/data/report/")).1)
     station_home).1 = Returned.
Proof.
  refine (proj1 (proj2 (ServeHTTP_panics_on_invalid_labels_only
            ParseFloat_uint Pow_undefined Log_at_half ParseQuery_plain
            request_example station_home _ _)) _ _ _).
  - intros g. destruct g; reflexivity.
  - apply ParseQuery_plain_well_formed.
  - reflexivity.
  - vm_compute. reflexivity.
  - intros _ first rest H. vm_compute in H. discriminate H.
Defined.

(** * The earlier version of the package (main.go, lines 49-293)

    The source holds the package once more, as it was before the
    [remote_adress] label: the vectors are declared with the labels "name"
    and one more at most, [Parse] takes the values alone, and every series
    is named by the name of the parser and its sensor.  The closures, the
    derived quantities and [updateGauge] are those of the current version,
    word for word. *)

Module Earlier.

Definition NewParser (name prefix : string) (be_verbose : bool) : Parser :=
  let metric_prefix := if String.eqb prefix "" then "" else prefix in
  {| name := name;
     be_verbose := be_verbose;
     metric_prefix := metric_prefix;
     temperature := newGauge metric_prefix "temperature" "temperature Temperature in fahrenheit" ["name"; "sensor"];
     battery := newGauge metric_prefix "battery" "battery" ["name"; "sensor"];
     humidity := newGauge metric_prefix "humidity" "humidity" ["name"; "sensor"];
     barometer := newGauge metric_prefix "barometer" "barometer" ["name"; "type"];
     windDir := newGauge metric_prefix "wind_dir" "barometer" ["name"; "period"];
     windSpeedMph := newGauge metric_prefix "wind_speed_mph" "wind_speed_mph" ["name"; "type"];
     solarRadiation := newGauge metric_prefix "solar_radiation" "Solar radiation in W/m2" ["name"];
     rainIn := newGauge metric_prefix "rain_in" "Rain in inches" ["name"; "period"];
     ultraviolet := newGauge metric_prefix "ultraviolet" "index 1-10" ["name"];
     lightning_strikes := newGauge metric_prefix "lightning_strikes" "lightning_strikes" ["name"; "period"];
     lightning_last_strike := newGauge metric_prefix "lightning_last_strike" "in seconds since Epoch" ["name"];
     lightning_distance := newGauge metric_prefix "lightning_distance" "last lightning strike distance in km" ["name"];
     stationtype := newGauge metric_prefix "stationtype_info" "stationtype_info" ["name"; "type"] |}.

Definition declared (g : family) : list string :=
  variableLabels (vec g (NewParser "" "" false)).

Section Translator.

Variable ParseFloat : string -> option float.
Variable math_Pow : float -> float -> float.
Variable math_Log : float -> float.

(** The body of the loop, for slot [i] (lines 171-191). *)
Definition slot (p_name : string) (values : Values) (i : Z) : Prog unit :=
  let iStr := Itoa i in
  (if Has values ("temp" +:+ Itoa i +:+ "f") then
     update ParseFloat values Temperature [p_name; iStr] ("temp" +:+ Itoa i +:+ "f");;
     update ParseFloat values Battery [p_name; iStr] ("batt" +:+ iStr)
   else
     DeleteLabelValues Battery [p_name; iStr];;
     DeleteLabelValues Temperature [p_name; iStr]);;
  (if Has values ("soilhum" +:+ iStr) then
     update ParseFloat values Humidity [p_name; "soil" +:+ iStr] ("soilhum" +:+ iStr);;
     update ParseFloat values Battery [p_name; "soil" +:+ iStr] ("battsm" +:+ iStr)
   else
     DeleteLabelValues Humidity [p_name; "soil" +:+ iStr];;
     DeleteLabelValues Battery [p_name; "soil" +:+ iStr]);;
  (if Has values ("humidity" +:+ iStr) then
     update ParseFloat values Humidity [p_name; iStr] ("humidity" +:+ iStr)
   else
     DeleteLabelValues Humidity [p_name; iStr]).

(** Lines 195-215. *)
Definition outdoor (p_name : string) (values : Values) : Prog (option error) :=
  r ← parseValue ParseFloat values "tempf";
  let tempF := r.1 in
  let err := r.2 in
  match err with
  | None =>
      gauge ← WithLabelValues Temperature [p_name; "outdoor"];
      Gauge_Set gauge tempF;;
      let feelsLike := tempF in
      w ← parseValue ParseFloat values "windspeedmph";
      feelsLike ←
        match w.2 with
        | None =>
            gauge ← WithLabelValues WindSpeedMph [p_name; "sustained"];
            Gauge_Set gauge w.1;;
            mret (if tempF <=? 40 then calculateWindChill math_Pow tempF w.1
                  else feelsLike)
        | Some _ => mret feelsLike
        end;
      h ← parseValue ParseFloat values "humidity";
      feelsLike ←
        match h.2 with
        | None =>
            gauge ← WithLabelValues Humidity [p_name; "outdoor"];
            Gauge_Set gauge h.1;;
            gauge ← WithLabelValues Temperature [p_name; "dewpoint"];
            Gauge_Set gauge (calculateDewPoint math_Log tempF h.1);;
            mret (if 80 <=? tempF then calculateHeatIndex tempF h.1
                  else feelsLike)
        | Some _ => mret feelsLike
        end;
      gauge ← WithLabelValues Temperature [p_name; "feelsLike"];
      Gauge_Set gauge feelsLike;;
      mret err
  | Some _ => mret err
  end.

(** Lines 239-242. *)
Definition station (p_name : string) (values : Values) (err : option error)
  : Prog unit :=
  s ← parseString values "stationtype";
  let stationType := s.1 in
  let station_err := s.2 in
  if error_eq err station_err then
    gauge ← WithLabelValues StationType [p_name; stationType];
    updateGauge gauge (1, None)
  else mret tt.

Definition Parse_body (p_name : string) (values : Values) : Prog unit :=
  for_each (seqZ 1 10) (slot p_name values);;
  update ParseFloat values Temperature [p_name; "indoor"] "tempinf";;
  err ← outdoor p_name values;
  update ParseFloat values Battery [p_name; "outdoor"] "battout";;
  update ParseFloat values Battery [p_name; "indoor"] "battin";;
  update ParseFloat values Battery [p_name; "lightning"] "batt_lightning";;
  update ParseFloat values Humidity [p_name; "indoor"] "humidityin";;
  update ParseFloat values Barometer [p_name; "relative"] "baromrelin";;
  update ParseFloat values Barometer [p_name; "absolute"] "baromabsin";;
  update ParseFloat values WindDir [p_name; "current"] "winddir";;
  update ParseFloat values WindDir [p_name; "avg10m"] "winddir_avg10m";;
  update ParseFloat values WindSpeedMph [p_name; "gusts"] "windgustmph";;
  update ParseFloat values SolarRadiation [p_name] "solarradiation";;
  update ParseFloat values RainIn [p_name; "hourly"] "hourlyrainin";;
  update ParseFloat values RainIn [p_name; "daily"] "dailyrainin";;
  update ParseFloat values RainIn [p_name; "weekly"] "weeklyrainin";;
  update ParseFloat values RainIn [p_name; "monthly"] "monthlyrainin";;
  update ParseFloat values RainIn [p_name; "yearly"] "yearlyrainin";;
  update ParseFloat values RainIn [p_name; "total"] "totalrainin";;
  update ParseFloat values RainIn [p_name; "event"] "eventrainin";;
  update ParseFloat values Ultraviolet [p_name] "uv";;
  update ParseFloat values LightningStrikes [p_name; "day"] "lightning_day";;
  update ParseFloat values LightningDistance [p_name] "lightning_distance";;
  update ParseFloat values LightningLastStrike [p_name] "lightning_time";;
  station p_name values err.

Definition Parse (values : Values) (p : Parser) : Parser :=
  (run (Parse_body (name p) values) p).2.

End Translator.

Definition station_home : Parser := NewParser "home" "" false.

End Earlier.

(** ** Series with valid labels

    [WithLabelValues] is the one call that makes a series, and it panics
    on a label value that is not valid UTF-8: a registry holds no series
    with such a label value. *)

Definition valid_series (p : Parser) : Prop :=
  forall g k, is_Some (series g k p) -> forallb utf8.ValidString k = true.

(** ** Calls on vectors with any labels

    [labelled_as decl p]: the vectors of [p] carry the labels [decl].
    [registered_as decl p]: they do, and their series have valid labels;
    this is the state of a parser that [NewParser] built, at any time.
    [acts_as decl m g k F Q] is [acts m g k F Q] for the parsers whose
    vectors carry the labels [decl]. *)

Section Any_labels.

Variable decl : family -> list string.

Definition labelled_as (p : Parser) : Prop :=
  forall g, variableLabels (vec g p) = decl g.

Definition registered_as (p : Parser) : Prop :=
  labelled_as p /\ valid_series p.

Definition acts_as {A} (m : Prog A) (g : family) (k : list string)
    (F : option float -> option float) (Q : A -> Prop) : Prop :=
  (exists a, result m = Some a /\ Q a) /\
  forall p, labelled_as p ->
    exists p', exec (calls m) p = (Returned, p') /\ labelled_as p' /\
               series g k p' = F (series g k p).

Definition keeps_as {A} (m : Prog A) (g : family) (k : list string) : Prop :=
  acts_as m g k (fun x => x) (fun _ => True).

Lemma labelled_as_frame p q :
  same_frame p q -> labelled_as p -> labelled_as q.
Proof. intros (_ & _ & _ & Hv) Hr g. destruct (Hv g) as [_ ->]. apply Hr. Qed.

Lemma acts_as_weaken {A} (m : Prog A) g k F F' (Q Q' : A -> Prop) :
  acts_as m g k F Q -> (forall x, F x = F' x) -> (forall a, Q a -> Q' a) ->
  acts_as m g k F' Q'.
Proof.
  intros [(a & Ha & HQ) Hp] HF HQ'. split; [eauto|].
  intros p Hr. destruct (Hp p Hr) as (p' & E & Hr' & Hs).
  exists p'. rewrite <- HF. auto.
Qed.

Lemma acts_as_ret {A} (a : A) g k :
  acts_as (mret a) g k (fun x => x) (fun b => b = a).
Proof. split; [exists a; auto|]. intros p Hr. exists p. auto. Qed.

Lemma keeps_as_ret {A} (a : A) g k : keeps_as (mret a) g k.
Proof. eapply acts_as_weaken; [apply acts_as_ret|auto|auto]. Qed.

Lemma acts_as_bind {A B} (m : Prog A) (f : A -> Prog B) g k F G
    (Q : A -> Prop) (R : B -> Prop) :
  acts_as m g k F Q -> (forall a, Q a -> acts_as (f a) g k G R) ->
  acts_as (m ≫= f) g k (fun x => G (F x)) R.
Proof.
  intros [(a & Ha & HQ) Hm] Hf.
  destruct (Hf a HQ) as [(b & Hb & HR) Hfa].
  destruct (bind_returned m f a Ha) as [Ec Er]. unfold acts_as.
  rewrite Ec, Er. split; [eauto|].
  intros p Hr. destruct (Hm p Hr) as (p1 & E1 & Hr1 & Hs1).
  destruct (Hfa p1 Hr1) as (p2 & E2 & Hr2 & Hs2).
  exists p2. rewrite exec_app, E1, E2, Hs2, Hs1. auto.
Qed.

Lemma keeps_as_seq {A B} (m : Prog A) (f : A -> Prog B) g k :
  keeps_as m g k -> (forall a, keeps_as (f a) g k) -> keeps_as (m ≫= f) g k.
Proof.
  intros Hm Hf.
  exact (acts_as_bind m f g k _ _ _ _ Hm (fun a _ => Hf a)).
Qed.

(** The series is reached by [m], and left alone afterwards. *)
Lemma acts_as_then {A B} (m : Prog A) (f : A -> Prog B) g k F
    (Q : A -> Prop) :
  acts_as m g k F Q -> (forall a, keeps_as (f a) g k) ->
  acts_as (m ≫= f) g k F (fun _ => True).
Proof.
  intros Hm Hf.
  exact (acts_as_bind m f g k F _ Q _ Hm (fun a _ => Hf a)).
Qed.

(** The series is reached after [m], which returns. *)
Lemma acts_as_after {A B} (m : Prog A) (f : A -> Prog B) g k F' o
    (Q : A -> Prop) (R : B -> Prop) :
  acts_as m g k F' Q -> (forall a, acts_as (f a) g k (fun _ => o) R) ->
  acts_as (m ≫= f) g k (fun _ => o) R.
Proof.
  intros Hm Hf.
  exact (acts_as_bind m f g k F' (fun _ => o) Q R Hm (fun a _ => Hf a)).
Qed.

(** The series is left alone by [m], and reached afterwards. *)
Lemma acts_as_skip {A B} (m : Prog A) (f : A -> Prog B) g k G
    (R : B -> Prop) :
  keeps_as m g k -> (forall a, acts_as (f a) g k G R) ->
  acts_as (m ≫= f) g k G R.
Proof.
  intros Hm Hf.
  exact (acts_as_bind m f g k (fun x => x) G _ R Hm (fun a _ => Hf a)).
Qed.

Lemma keeps_as_if {A} (b : bool) (m1 m2 : Prog A) g k :
  keeps_as m1 g k -> keeps_as m2 g k -> keeps_as (if b then m1 else m2) g k.
Proof. now destruct b. Qed.

Lemma acts_as_WithLabelValues g lvs g0 k0 :
  length lvs = length (decl g) ->
  forallb utf8.ValidString lvs = true ->
  acts_as (WithLabelValues g lvs) g0 k0
    (fun x => if decide (g = g0 /\ lvs = k0) then touch x else x)
    (fun gauge => gauge = (g, lvs)).
Proof.
  intros Hlen Hv. split; [eexists; split; reflexivity|].
  intros p Hr. cbn [WithLabelValues calls exec].
  destruct (step (CallWithLabelValues g lvs) p) as [p'|] eqn:E.
  - exists p'. split; [reflexivity|]. split.
    + eapply labelled_as_frame; [eapply step_frame, E | exact Hr].
    + apply (series_step _ _ _ g0 k0) in E. exact E.
  - cbn [step] in E. rewrite (Hr g), Hv in E. now rewrite decide_True in E.
Qed.

Lemma acts_as_Gauge_Set g lvs v g0 k0 :
  acts_as (Gauge_Set (g, lvs) v) g0 k0
    (fun x => if decide (g = g0 /\ lvs = k0) then Some v else x)
    (fun _ => True).
Proof.
  split; [exists tt; auto|].
  intros p Hr. cbn [Gauge_Set calls exec fst snd].
  destruct (step (CallSet g lvs v) p) as [p'|] eqn:E; [|discriminate E].
  exists p'. split; [reflexivity|]. split.
  - eapply labelled_as_frame; [eapply step_frame, E | exact Hr].
  - apply (series_step _ _ _ g0 k0) in E. exact E.
Qed.

(** With as many label values as the vector has labels, all of them
    valid UTF-8, [DeleteLabelValues] removes the series. *)
Lemma acts_as_DeleteLabelValues g lvs g0 k0 :
  acts_as (DeleteLabelValues g lvs) g0 k0
    (fun x => if decide (g = g0 /\ lvs = k0 /\
                         length lvs = length (decl g) /\
                         forallb utf8.ValidString lvs = true)
              then None else x)
    (fun _ => True).
Proof.
  split; [exists tt; auto|].
  intros p Hr. cbn [DeleteLabelValues calls exec].
  destruct (step (CallDeleteLabelValues g lvs) p) as [p'|] eqn:E.
  - exists p'. split; [reflexivity|]. split.
    + eapply labelled_as_frame; [eapply step_frame, E | exact Hr].
    + apply (series_step _ _ _ g0 k0) in E. rewrite E. cbn [effect].
      now rewrite (Hr g).
  - cbn [step] in E. case_decide; [case_match|]; discriminate E.
Qed.

Lemma keeps_as_with {B} g lvs (f : Gauge -> Prog B) g0 k0 :
  length lvs = length (decl g) ->
  forallb utf8.ValidString lvs = true ->
  ~ (g = g0 /\ lvs = k0) ->
  keeps_as (f (g, lvs)) g0 k0 ->
  keeps_as (WithLabelValues g lvs ≫= f) g0 k0.
Proof.
  intros Hlen Hv Hne Hf.
  refine (acts_as_bind _ _ g0 k0 (fun x => x) (fun x => x)
            (fun gauge => gauge = (g, lvs)) _ _ _).
  - eapply acts_as_weaken; [apply (acts_as_WithLabelValues g lvs g0 k0 Hlen Hv)| |].
    + intros x. cbn. now rewrite decide_False.
    + intros a Ha. exact Ha.
  - intros gauge ->. exact Hf.
Qed.

Lemma keeps_as_set g lvs v g0 k0 :
  ~ (g = g0 /\ lvs = k0) -> keeps_as (Gauge_Set (g, lvs) v) g0 k0.
Proof.
  intros Hne.
  eapply acts_as_weaken; [apply (acts_as_Gauge_Set g lvs v g0 k0)| |auto].
  intros x. cbn. now rewrite decide_False.
Qed.

Lemma keeps_as_delete g lvs g0 k0 :
  ~ (g = g0 /\ lvs = k0) -> keeps_as (DeleteLabelValues g lvs) g0 k0.
Proof.
  intros Hne.
  eapply acts_as_weaken;
    [apply (acts_as_DeleteLabelValues g lvs g0 k0)| |auto].
  intros x. cbn beta. rewrite decide_False; [reflexivity | tauto].
Qed.

Lemma removes_as_delete g lvs :
  length lvs = length (decl g) ->
  forallb utf8.ValidString lvs = true ->
  acts_as (DeleteLabelValues g lvs) g lvs (fun _ => None) (fun _ => True).
Proof.
  intros Hlen Hv.
  eapply acts_as_weaken;
    [apply (acts_as_DeleteLabelValues g lvs g lvs)| |auto].
  intros x. cbn beta. now rewrite decide_True.
Qed.

Lemma keeps_as_for_each {A} (l : list A) (body : A -> Prog unit) g k :
  Forall (fun i => keeps_as (body i) g k) l -> keeps_as (for_each l body) g k.
Proof.
  induction 1 as [|i l Hi Hl IH]; cbn [for_each].
  - apply keeps_as_ret.
  - apply keeps_as_seq; [exact Hi | intros; exact IH].
Qed.

(** One iteration of a loop reaches the series, the others leave it. *)
Lemma acts_as_for_each {A} (l : list A) (body : A -> Prog unit) i g k F :
  In i l -> NoDup l ->
  acts_as (body i) g k F (fun _ => True) ->
  (forall j, In j l -> j <> i -> keeps_as (body j) g k) ->
  acts_as (for_each l body) g k F (fun _ => True).
Proof.
  intros Hi Hnd Hbody Hothers.
  induction l as [|a l IH]; [destruct Hi|].
  apply NoDup_cons in Hnd as [Ha Hnd]. cbn [for_each].
  destruct Hi as [->|Hi].
  - eapply acts_as_then; [exact Hbody|]. intros _.
    apply keeps_as_for_each. apply Forall_forall. intros j Hj.
    apply list_elem_of_In in Hj.
    apply Hothers; [now right|]. intros ->.
    apply Ha. now apply list_elem_of_In.
  - refine (acts_as_bind _ _ g k (fun x => x) F (fun _ => True) _ _ _).
    + apply Hothers; [now left|]. intros ->.
      apply Ha. now apply list_elem_of_In.
    + intros _ _. apply IH; [assumption|assumption|].
      intros j Hj. apply Hothers. now right.
Qed.

(** What is left of a series when the code may panic, as [sets] and
    [leaves]. *)
Definition sets_as {A} (m : Prog A) (g : family) (k : list string)
    (F : option float -> option float) : Prop :=
  forall p, labelled_as p ->
    series g k (exec (calls m) p).2 = F (series g k p).

Definition leaves_as {A} (m : Prog A) (g : family) (k : list string) : Prop :=
  sets_as m g k (fun x => x).

Lemma acts_as_sets {A} (m : Prog A) g k F (Q : A -> Prop) :
  acts_as m g k F Q -> sets_as m g k F.
Proof.
  intros [_ Hp] p Hr. destruct (Hp p Hr) as (p' & E & _ & Hs).
  now rewrite E.
Qed.

Lemma keeps_as_leaves {A} (m : Prog A) g k :
  keeps_as m g k -> leaves_as m g k.
Proof. apply acts_as_sets. Qed.

Lemma labelled_as_exec cs p : labelled_as p -> labelled_as (exec cs p).2.
Proof. apply labelled_as_frame, exec_frame. Qed.

Lemma sets_as_then_leaves {A B} (m : Prog A) (f : A -> Prog B) g k F
    (Q : A -> Prop) :
  acts_as m g k F Q -> (forall a, leaves_as (f a) g k) ->
  sets_as (m ≫= f) g k F.
Proof.
  intros [(a & Ha & HQ) Hm] Hf p Hr.
  destruct (bind_returned m f a Ha) as [-> _].
  destruct (Hm p Hr) as (p1 & E1 & Hr1 & Hs1).
  rewrite exec_app, E1, (Hf a p1 Hr1). exact Hs1.
Qed.

Lemma leaves_as_ret {A} (a : A) g k : leaves_as (mret a) g k.
Proof. intros p Hr. reflexivity. Qed.

Lemma leaves_as_if {A} (b : bool) (m1 m2 : Prog A) g k :
  leaves_as m1 g k -> leaves_as m2 g k ->
  leaves_as (if b then m1 else m2) g k.
Proof. now destruct b. Qed.

Lemma leaves_as_seq {A B} (m : Prog A) (f : A -> Prog B) g k :
  leaves_as m g k -> (forall a, leaves_as (f a) g k) ->
  leaves_as (m ≫= f) g k.
Proof.
  intros Hm Hf p Hr. destruct (result m) as [a|] eqn:Ha.
  - destruct (bind_returned m f a Ha) as [-> _]. rewrite exec_app.
    pose proof (Hm p Hr) as H1.
    pose proof (labelled_as_exec (calls m) p Hr) as Hr1.
    destruct (exec (calls m) p) as [[|] p1]; cbn [snd] in *.
    + now rewrite (Hf a p1 Hr1).
    + exact H1.
  - destruct (bind_panicked m f Ha) as [-> _]. apply (Hm p Hr).
Qed.

(** [WithLabelValues] on another series: whether it panics or not. *)
Lemma leaves_as_with {B} g lvs (f : Gauge -> Prog B) g0 k0 :
  ~ (g = g0 /\ lvs = k0) ->
  leaves_as (f (g, lvs)) g0 k0 ->
  leaves_as (WithLabelValues g lvs ≫= f) g0 k0.
Proof.
  intros Hne Hf p Hr.
  destruct (bind_returned (WithLabelValues g lvs) f (g, lvs) eq_refl) as [-> _].
  rewrite exec_app. cbn [WithLabelValues calls exec].
  destruct (step (CallWithLabelValues g lvs) p) as [p'|] eqn:E; [|reflexivity].
  rewrite (Hf p')
    by (eapply labelled_as_frame; [eapply step_frame, E | exact Hr]).
  rewrite (series_step _ _ _ g0 k0 E). cbn [effect]. now rewrite decide_False.
Qed.

Section Reading_a_report.

Variable ParseFloat : string -> option float.
Variable values : Values.
Hypothesis Hwf : well_formed values.

Lemma keeps_as_parseValue field g k :
  keeps_as (parseValue ParseFloat values field) g k.
Proof.
  split.
  - destruct (parses_or_fails ParseFloat values Hwf field) as [[v H]|[e H]];
      eauto.
  - intros p Hr. rewrite parseValue_calls. exists p. auto.
Qed.

Lemma keeps_as_parseString field g k : keeps_as (parseString values field) g k.
Proof.
  split.
  - destruct (parseString_returns values Hwf field) as [r H]. eauto.
  - intros p Hr. rewrite parseString_calls. exists p. auto.
Qed.

Lemma keeps_as_update g lvs field g0 k0 :
  length lvs = length (decl g) ->
  forallb utf8.ValidString lvs = true ->
  ~ (g = g0 /\ lvs = k0) ->
  keeps_as (update ParseFloat values g lvs field) g0 k0.
Proof.
  intros Hlen Hv Hne. unfold update.
  apply keeps_as_with; [exact Hlen | exact Hv | exact Hne |].
  apply keeps_as_seq; [apply keeps_as_parseValue|].
  intros r. unfold updateGauge. destruct r as [v [e|]]; cbn [fst snd].
  - apply keeps_as_ret.
  - now apply keeps_as_set.
Qed.

End Reading_a_report.

End Any_labels.

(** ** The earlier [Parse], series by series *)

Abbreviation labelled1 := (labelled_as Earlier.declared).
Abbreviation acts1 := (acts_as Earlier.declared).
Abbreviation keeps1 := (keeps_as Earlier.declared).
Abbreviation sets1 := (sets_as Earlier.declared).
Abbreviation leaves1 := (leaves_as Earlier.declared).

Ltac keeps1_step :=
  lazymatch goal with
  | |- keeps_as _ (mret _) _ _ => apply keeps_as_ret
  | |- keeps_as _ (update _ _ _ _ _) _ _ =>
      apply keeps_as_update; [assumption | arity | labels_ok | differ]
  | |- keeps_as _ (DeleteLabelValues _ _) _ _ =>
      apply keeps_as_delete; differ
  | |- keeps_as _ (Gauge_Set _ _) _ _ => apply keeps_as_set; differ
  | |- keeps_as _ (parseString _ _) _ _ =>
      apply keeps_as_parseString; assumption
  | |- keeps_as _ (parseValue _ _ _) _ _ =>
      apply keeps_as_parseValue; assumption
  | |- keeps_as _ (if _ then _ else _) _ _ => apply keeps_as_if
  | |- keeps_as _ (WithLabelValues _ _ ≫= _) _ _ =>
      apply keeps_as_with; [arity | labels_ok | differ |]
  | |- keeps_as _ (_ ≫= _) _ _ => apply keeps_as_seq; [|intros ?]
  end.

Ltac solve_keeps1 := repeat keeps1_step.

Section Earlier_blocks.

Variable ParseFloat : string -> option float.
Variable math_Pow : float -> float -> float.
Variable math_Log : float -> float.
Variable values : Values.
Hypothesis Hwf : well_formed values.
Variable p_name : string.
Hypothesis Hname : utf8.ValidString p_name = true.

Lemma keeps1_slot i g0 k0 :
  In i (seqZ 1 10) ->
  k0 <> [p_name; Itoa i] ->
  k0 <> [p_name; "soil" +:+ Itoa i] ->
  keeps1 (Earlier.slot ParseFloat p_name values i) g0 k0.
Proof.
  intros Hi H1 H2. destruct (slot_labels_valid i Hi) as [Hvi Hvs].
  unfold Earlier.slot. solve_keeps1.
Qed.

(** A slot whose field is not in the report removes its series. *)
Lemma removes1_slot i trigger field g sfx :
  In i (seqZ 1 10) ->
  In (trigger, field, g, sfx) (slot_fields i) ->
  Has values trigger = false ->
  acts1 (Earlier.slot ParseFloat p_name values i) g (p_name :: sfx)
    (fun _ => None) (fun _ => True).
Proof.
  intros Hi. destruct (slot_labels_valid i Hi) as [Hvi Hvs].
  pose proof (soil_ne (Itoa i)) as Hsoil.
  unfold slot_fields. cbn [In].
  intros [H|[H|[H|[H|[H|[]]]]]] Hno; injection H as <- <- <- <-;
    unfold Earlier.slot; cbn zeta; rewrite Hno.
  - eapply acts_as_then; [|intros ?; solve_keeps1].
    eapply acts_as_after; [apply keeps_as_delete; differ|].
    intros _. apply removes_as_delete; [arity | labels_ok].
  - eapply acts_as_then; [|intros ?; solve_keeps1].
    eapply acts_as_then; [apply removes_as_delete; [arity | labels_ok]|].
    intros _. solve_keeps1.
  - eapply acts_as_skip; [solve_keeps1|]. intros _.
    eapply acts_as_then; [|intros ?; solve_keeps1].
    eapply acts_as_then; [apply removes_as_delete; [arity | labels_ok]|].
    intros _. solve_keeps1.
  - eapply acts_as_skip; [solve_keeps1|]. intros _.
    eapply acts_as_then; [|intros ?; solve_keeps1].
    eapply acts_as_after; [apply keeps_as_delete; differ|].
    intros _. apply removes_as_delete; [arity | labels_ok].
  - eapply acts_as_skip; [solve_keeps1|]. intros _.
    eapply acts_as_skip; [solve_keeps1|]. intros _.
    apply removes_as_delete; [arity | labels_ok].
Qed.

Lemma slot_labels_NoDup : NoDup (seqZ 1 10).
Proof.
  rewrite seqZ_1_10. apply NoDup_ListNoDup. vm_compute.
  repeat constructor; cbn; intuition discriminate.
Qed.

Lemma removes1_loop i trigger field g sfx :
  In i (seqZ 1 10) ->
  In (trigger, field, g, sfx) (slot_fields i) ->
  Has values trigger = false ->
  acts1 (for_each (seqZ 1 10) (Earlier.slot ParseFloat p_name values))
    g (p_name :: sfx) (fun _ => None) (fun _ => True).
Proof.
  intros Hi Hf Hno. apply acts_as_for_each with (i := i).
  - exact Hi.
  - apply slot_labels_NoDup.
  - now apply (removes1_slot i trigger field).
  - intros j Hj Hne.
    destruct (slot_labels_distinct i j Hi Hj Hne) as (D1 & D2 & D3 & D4).
    unfold slot_fields in Hf. cbn [In] in Hf.
    destruct Hf as [H|[H|[H|[H|[H|[]]]]]]; injection H as <- <- <- <-;
      apply keeps1_slot; congruence.
Qed.

Lemma keeps1_outdoor g0 k0 :
  (Temperature = g0 -> [p_name; "outdoor"] <> k0) ->
  (WindSpeedMph = g0 -> [p_name; "sustained"] <> k0) ->
  (Humidity = g0 -> [p_name; "outdoor"] <> k0) ->
  (Temperature = g0 -> [p_name; "dewpoint"] <> k0) ->
  (Temperature = g0 -> [p_name; "feelsLike"] <> k0) ->
  keeps1 (Earlier.outdoor ParseFloat math_Pow math_Log p_name values) g0 k0.
Proof.
  intros H1 H2 H3 H4 H5. unfold Earlier.outdoor.
  apply keeps_as_seq; [solve_keeps1|]. intros [tempF [e|]]; cbn [fst snd].
  { apply keeps_as_ret. }
  apply keeps_as_with; [arity | labels_ok | differ |].
  apply keeps_as_seq; [solve_keeps1|]. intros _.
  apply keeps_as_seq; [solve_keeps1|]. intros [w [e|]]; cbn [fst snd].
  - apply keeps_as_seq; [solve_keeps1|]. intros fl1.
    apply keeps_as_seq; [solve_keeps1|]. intros [h [e'|]]; cbn [fst snd];
      solve_keeps1.
  - apply keeps_as_seq; [solve_keeps1|]. intros fl1.
    apply keeps_as_seq; [solve_keeps1|]. intros [h [e'|]]; cbn [fst snd];
      solve_keeps1.
Qed.

(** The station block leaves the series of the other vectors alone, also
    when the station type makes [WithLabelValues] panic. *)
Lemma leaves1_station err g0 k0 :
  g0 <> StationType ->
  leaves1 (Earlier.station p_name values err) g0 k0.
Proof.
  intros Hg. unfold Earlier.station.
  apply leaves_as_seq; [apply keeps_as_leaves; solve_keeps1|].
  intros [stationType station_err].
  cbn [fst snd]. apply leaves_as_if; [|apply leaves_as_ret].
  apply leaves_as_with; [differ|]. unfold updateGauge. cbn [fst snd].
  apply keeps_as_leaves, keeps_as_set. differ.
Qed.

Ltac keeps1_block :=
  lazymatch goal with
  | |- keeps_as _ (Earlier.outdoor _ _ _ _ _) _ _ =>
      apply keeps1_outdoor;
        [not_named | not_named | not_named | not_named | not_named]
  end.

Ltac solve_keeps1_all := repeat first [keeps1_block | keeps1_step].

Ltac solve_tail1 :=
  repeat lazymatch goal with
  | |- leaves_as _ (Earlier.station _ _ _) _ _ =>
      apply leaves1_station; discriminate
  | |- leaves_as _ (_ ≫= _) _ _ =>
      apply leaves_as_seq;
        [apply keeps_as_leaves; solve [solve_keeps1_all] | intros ?]
  end.

(** After the loop no statement names the series of a slot. *)
Lemma removes1_Parse_body i trigger field g sfx :
  In i (seqZ 1 10) ->
  In (trigger, field, g, sfx) (slot_fields i) ->
  Has values trigger = false ->
  sets1 (Earlier.Parse_body ParseFloat math_Pow math_Log p_name values)
    g (p_name :: sfx) (fun _ => None).
Proof.
  intros Hi Hf Hno. unfold Earlier.Parse_body.
  eapply sets_as_then_leaves; [now apply (removes1_loop i trigger field)|].
  intros _.
  clear Hno.
  rewrite seqZ_1_10 in Hi. cbn [In] in Hi.
  unfold slot_fields in Hf. cbn [In] in Hf.
  repeat (destruct Hi as [<-|Hi];
    [destruct Hf as [H|[H|[H|[H|[H|[]]]]]]; injection H as <- <- <- <-;
     match goal with
     | |- leaves_as _ _ _ [_; ?s] =>
         let s' := eval vm_compute in s in change s with s'
     end;
     solve [solve_tail1]|]).
  destruct Hi.
Qed.

End Earlier_blocks.

Lemma Earlier_Parse_exec (ParseFloat : string -> option float)
    (math_Pow : float -> float -> float) (math_Log : float -> float)
    (values : Values) (p : Parser) :
  Earlier.Parse ParseFloat math_Pow math_Log values p =
  (exec (calls (Earlier.Parse_body ParseFloat math_Pow math_Log (name p) values))
     p).2.
Proof.
  unfold Earlier.Parse, run.
  destruct (exec _ p) as [[|] p']; reflexivity.
Qed.

Lemma labelled1_NewParser n m b : labelled1 (Earlier.NewParser n m b).
Proof. intros g. destruct g; reflexivity. Qed.

Lemma Earlier_Parse_frame (ParseFloat : string -> option float)
    (math_Pow : float -> float -> float) (math_Log : float -> float)
    (values : Values) (p : Parser) :
  same_frame p (Earlier.Parse ParseFloat math_Pow math_Log values p).
Proof. rewrite Earlier_Parse_exec. apply exec_frame. Qed.

Lemma Earlier_Parse_sets (ParseFloat : string -> option float)
    (math_Pow : float -> float -> float) (math_Log : float -> float)
    (values : Values) (p : Parser) g k F :
  labelled1 p ->
  sets1 (Earlier.Parse_body ParseFloat math_Pow math_Log (name p) values)
    g k F ->
  series g k (Earlier.Parse ParseFloat math_Pow math_Log values p) =
  F (series g k p).
Proof. intros Hr H. rewrite Earlier_Parse_exec. now apply H. Qed.

(** ** A parser whose name is not valid UTF-8

    The loop removes until its first [WithLabelValues], which panics: the
    run makes no series. *)

Lemma Earlier_Parse_body_stops_early (ParseFloat : string -> option float)
    (math_Pow : float -> float -> float) (math_Log : float -> float)
    (p_name : string) (values : Values) :
  utf8.ValidString p_name = false ->
  stops_early
    (calls (Earlier.Parse_body ParseFloat math_Pow math_Log p_name values)).
Proof.
  intros H. unfold Earlier.Parse_body.
  apply stops_early_bind.
  { apply stops_early_for_each. intros i.
    unfold Earlier.slot, update, updateGauge. repeat stops_step. }
  intros _. unfold update, Earlier.outdoor, Earlier.station, updateGauge.
  repeat stops_step.
Qed.

Lemma exec_stops_early_absent cs g k :
  stops_early cs ->
  forall p, series g k p = None -> series g k (exec cs p).2 = None.
Proof.
  induction 1 as [|g' lvs cs Hs IH|g' lvs cs Hbad]; intros p Hp; cbn [exec].
  - exact Hp.
  - destruct (step (CallDeleteLabelValues g' lvs) p) as [p'|] eqn:E;
      [|exact Hp].
    apply IH. rewrite (series_step _ _ _ g k E). cbn [effect].
    case_decide; [reflexivity | exact Hp].
  - cbn [step]. rewrite Hbad. destruct (decide _); exact Hp.
Qed.

(** ** The series keep valid labels

    In a run every [Set] is made on a [Gauge] that a [WithLabelValues] of
    the run has returned: [guarded seen cs], where [seen] are the gauges
    returned so far. *)

Fixpoint guarded (seen : list Gauge) (cs : list call) : Prop :=
  match cs with
  | [] => True
  | CallWithLabelValues g lvs :: cs => guarded ((g, lvs) :: seen) cs
  | CallSet g lvs _ :: cs => In (g, lvs) seen /\ guarded seen cs
  | CallDeleteLabelValues _ _ :: cs => guarded seen cs
  end.

Lemma guarded_mono cs : forall seen seen',
  incl seen seen' -> guarded seen cs -> guarded seen' cs.
Proof.
  induction cs as [|[g lvs|g lvs v|g lvs] cs IH]; intros seen seen' Hi H;
    cbn [guarded] in *.
  - exact I.
  - apply (IH ((g, lvs) :: seen)); [|exact H].
    intros x [<-|Hx]; [now left | right; now apply Hi].
  - destruct H as [H1 H2]. split; [now apply Hi | now apply (IH seen)].
  - now apply (IH seen).
Qed.

Lemma guarded_app cs1 : forall seen cs2,
  guarded seen cs1 -> guarded seen cs2 -> guarded seen (cs1 ++ cs2).
Proof.
  induction cs1 as [|[g lvs|g lvs v|g lvs] cs1 IH]; intros seen cs2 H1 H2;
    cbn [guarded app] in *.
  - exact H2.
  - apply IH; [exact H1|].
    apply (guarded_mono cs2 seen); [|exact H2]. intros x Hx. now right.
  - destruct H1 as [Hin H1]. split; [exact Hin | now apply IH].
  - now apply IH.
Qed.

Lemma guarded_bind {A B} (m : Prog A) (f : A -> Prog B) seen :
  guarded seen (calls m) ->
  (forall a, guarded seen (calls (f a))) ->
  guarded seen (calls (m ≫= f)).
Proof.
  intros Hm Hf. destruct (result m) as [a|] eqn:E.
  - destruct (bind_returned m f a E) as [-> _].
    apply guarded_app; auto.
  - destruct (bind_panicked m f E) as [-> _]. exact Hm.
Qed.

Lemma guarded_with {B} g lvs (f : Gauge -> Prog B) seen :
  guarded ((g, lvs) :: seen) (calls (f (g, lvs))) ->
  guarded seen (calls (WithLabelValues g lvs ≫= f)).
Proof.
  intros H.
  destruct (bind_returned (WithLabelValues g lvs) f (g, lvs) eq_refl) as [-> _].
  exact H.
Qed.

Lemma guarded_for_each {A} (l : list A) (body : A -> Prog unit) seen :
  (forall i, guarded seen (calls (body i))) ->
  guarded seen (calls (for_each l body)).
Proof.
  intros H. induction l as [|i l IH]; cbn [for_each]; [exact I|].
  apply guarded_bind; auto.
Qed.

Ltac guarded_step :=
  lazymatch goal with
  | |- guarded _ (calls (mret _)) => exact I
  | |- guarded _ (calls (parseValue _ _ _)) =>
      rewrite parseValue_calls; exact I
  | |- guarded _ (calls (parseString _ _)) =>
      rewrite parseString_calls; exact I
  | |- guarded _ (calls (DeleteLabelValues _ _)) => exact I
  | |- guarded _ (calls (Gauge_Set _ _)) =>
      split; [cbn [In fst snd]; auto 10 | exact I]
  | |- guarded _ (calls (if _ then _ else _)) => case_match
  | |- guarded _ (calls (match _ with _ => _ end)) => case_match
  | |- guarded _ (calls (WithLabelValues _ _ ≫= _)) =>
      apply guarded_with; cbv beta
  | |- guarded _ (calls (_ ≫= _)) => apply guarded_bind; [|intros ?]
  end.

Lemma Earlier_Parse_body_guarded (ParseFloat : string -> option float)
    (math_Pow : float -> float -> float) (math_Log : float -> float)
    (p_name : string) (values : Values) :
  guarded []
    (calls (Earlier.Parse_body ParseFloat math_Pow math_Log p_name values)).
Proof.
  unfold Earlier.Parse_body.
  apply guarded_bind.
  { apply guarded_for_each. intros i.
    unfold Earlier.slot, update, updateGauge. repeat guarded_step. }
  intros _. unfold update, Earlier.outdoor, Earlier.station, updateGauge.
  repeat guarded_step.
Qed.

Lemma exec_valid_series cs : forall seen p,
  guarded seen cs ->
  (forall g lvs, In (g, lvs) seen -> forallb utf8.ValidString lvs = true) ->
  valid_series p -> valid_series (exec cs p).2.
Proof.
  induction cs as [|c cs IH]; intros seen p Hg Hseen Hp; [exact Hp|].
  cbn [exec]. destruct (step c p) as [p'|] eqn:E; [|exact Hp].
  destruct c as [g lvs|g lvs v|g lvs]; cbn [guarded] in Hg.
  - assert (Hv : forallb utf8.ValidString lvs = true).
    { cbn [step] in E. case_decide; [|discriminate E].
      now destruct (forallb utf8.ValidString lvs). }
    apply (IH ((g, lvs) :: seen)); [exact Hg | |].
    + intros g' lvs' [H|H]; [now injection H as <- <- | exact (Hseen g' lvs' H)].
    + intros g0 k0. rewrite (series_step _ _ _ g0 k0 E). cbn [effect].
      case_decide as Hd; [|apply Hp]. destruct Hd as [_ <-]. intros _.
      exact Hv.
  - destruct Hg as [Hin Hg]. apply (IH seen); [exact Hg | exact Hseen |].
    intros g0 k0. rewrite (series_step _ _ _ g0 k0 E). cbn [effect].
    case_decide as Hd; [|apply Hp]. destruct Hd as [_ <-].
    intros _. exact (Hseen g lvs Hin).
  - apply (IH seen); [exact Hg | exact Hseen |].
    intros g0 k0. rewrite (series_step _ _ _ g0 k0 E). cbn [effect].
    case_decide; [now intros [x Hx] | apply Hp].
Qed.

(** The state of a parser built by the earlier [NewParser], at any time:
    [NewParser] gives it, [Parse] keeps it. *)
Lemma registered_as_NewParser n m b :
  registered_as Earlier.declared (Earlier.NewParser n m b).
Proof.
  split; [apply labelled1_NewParser|].
  intros g k [x Hx].
  assert (E : series g k (Earlier.NewParser n m b) = None)
    by (destruct g; apply lookup_empty).
  congruence.
Qed.

Lemma Earlier_Parse_registered (ParseFloat : string -> option float)
    (math_Pow : float -> float -> float) (math_Log : float -> float)
    (values : Values) (p : Parser) :
  registered_as Earlier.declared p ->
  registered_as Earlier.declared
    (Earlier.Parse ParseFloat math_Pow math_Log values p).
Proof.
  intros [Hl Hv]. split.
  - eapply labelled_as_frame; [apply Earlier_Parse_frame | exact Hl].
  - rewrite Earlier_Parse_exec.
    apply (exec_valid_series _ []);
      [apply Earlier_Parse_body_guarded | intros g lvs [] | exact Hv].
Qed.

(** * Properties of the earlier version *)

(** X15.  In the earlier version of the package, where a series is named
    by the parser and the sensor alone, the loop does remove: on a parser
    built by its [NewParser] and a report whose fields all have a value,
    for each slot [i] from 1 to 10, a report without [temp{i}f] leaves no
    temperature and no battery series of the slot, a report without
    [soilhum{i}] no soil humidity and no soil battery series, a report
    without [humidity{i}] no humidity series.  (The calls of
    [DeleteLabelValues] are the same in the current version, where the
    vectors have one label more.) *)
Theorem Earlier_Parse_removes_silent_slots
    (ParseFloat : string -> option float)
    (math_Pow : float -> float -> float) (math_Log : float -> float)
    (values : Values) (p : Parser) (i : Z) :
  registered_as Earlier.declared p -> well_formed values ->
  In i (seqZ 1 10) ->
  let p' := Earlier.Parse ParseFloat math_Pow math_Log values p in
  (Has values ("temp" +:+ Itoa i +:+ "f") = false ->
   series Temperature [name p; Itoa i] p' = None /\
   series Battery [name p; Itoa i] p' = None) /\
  (Has values ("soilhum" +:+ Itoa i) = false ->
   series Humidity [name p; "soil" +:+ Itoa i] p' = None /\
   series Battery [name p; "soil" +:+ Itoa i] p' = None) /\
  (Has values ("humidity" +:+ Itoa i) = false ->
   series Humidity [name p; Itoa i] p' = None).
Proof.
  intros [Hr Hvs] Hwf Hi p'.
  assert (H : forall trigger field g sfx,
            In (trigger, field, g, sfx) (slot_fields i) ->
            Has values trigger = false ->
            series g (name p :: sfx) p' = None).
  { intros trigger field g sfx Hf Hno. subst p'.
    destruct (utf8.ValidString (name p)) eqn:Hname.
    - apply (Earlier_Parse_sets ParseFloat math_Pow math_Log values p g _
               (fun _ => None) Hr).
      now apply (removes1_Parse_body ParseFloat math_Pow math_Log values Hwf
                   (name p) Hname i trigger field).
    - rewrite Earlier_Parse_exec. apply exec_stops_early_absent.
      + now apply Earlier_Parse_body_stops_early.
      + destruct (series g (name p :: sfx) p) as [x|] eqn:E; [|reflexivity].
        assert (Hs : is_Some (series g (name p :: sfx) p))
          by (rewrite E; eauto).
        apply Hvs in Hs. cbn [forallb] in Hs. rewrite Hname in Hs.
        discriminate Hs. }
  unfold slot_fields in H. cbn [In] in H.
  split; [|split].
  - intros Hno. split; eapply H; eauto 6.
  - intros Hno. split; eapply H; eauto 6.
  - intros Hno. eapply H; eauto 6.
Qed.

Lemma Earlier_Parse_removes_silent_slots_witness :
  series Temperature ["home"; "1"]
    (Earlier.Parse ParseFloat_uint Pow_undefined Log_at_half ∅
       (Earlier.Parse ParseFloat_uint Pow_undefined Log_at_half
          report_slot1 Earlier.station_home)) = None.
Proof.
  refine (proj1 (proj1 (Earlier_Parse_removes_silent_slots ParseFloat_uint
            Pow_undefined Log_at_half ∅
            (Earlier.Parse ParseFloat_uint Pow_undefined Log_at_half
               report_slot1 Earlier.station_home) 1 _ _ _) _)).
  - apply Earlier_Parse_registered, registered_as_NewParser.
  - apply well_formed_empty.
  - vm_compute. tauto.
  - vm_compute. reflexivity.
Defined.

(** X16.  The earlier [Parse] is idempotent as well, with its removals:
    from every state of the registry, two calls with the same report
    leave the state that one call leaves. *)
Theorem Earlier_Parse_idempotent (ParseFloat : string -> option float)
    (math_Pow : float -> float -> float) (math_Log : float -> float)
    (values : Values) (p : Parser) :
  Earlier.Parse ParseFloat math_Pow math_Log values
    (Earlier.Parse ParseFloat math_Pow math_Log values p) =
  Earlier.Parse ParseFloat math_Pow math_Log values p.
Proof.
  pose proof (Earlier_Parse_frame ParseFloat math_Pow math_Log values p)
    as (Hn & _).
  rewrite (Earlier_Parse_exec _ _ _ _ (Earlier.Parse _ _ _ _ p)), Hn.
  rewrite (Earlier_Parse_exec _ _ _ _ p). apply exec_idem.
Qed.
